(** * Round Robin and Earliest Deadline First: the simulation of scheduler.py

    The development follows [scheduler.py]: the [process] class, the
    admission routine [update_ready_queue], the two simulation loops [rr] and
    [edf], [check_status] and [calculate_metrics].

    Conventions of the embedding.
    - Python integers are unbounded: they are [Z].
    - An attribute that [__init__] sets to [None] is an [option].
    - A Python list of process objects is a [list process].  The objects of a
      run are pairwise distinct (this is what [read_processes] builds, one
      fresh object per line), and at every moment an object sits in exactly
      one of the pending list, the ready queue, the local variable [process]
      and the completed list, so that in-place mutation of an object is the
      replacement of its record at the one place where it lives.
    - The global [current_time] and the three lists are the fields of the
      simulation state [sim].
    - A [while] loop which Python may run forever is run with a fuel; the
      function returns [None] when the fuel is exhausted.
    - A raised exception is a value of [result]. *)

From Stdlib Require Import List ZArith QArith Qround Lia Bool String.
From Stdlib Require Import Permutation Sorted Ascii.
Import ListNotations.
Local Open Scope Z_scope.

(** ** The process class *)

(** The two strings that [status] receives: ['S'] and ['F']. *)
Inductive status_flag : Type := S_ | F_.

Record process : Type := mk_process {
  name : string;
  arrival_time : Z;
  burst_time : Z;
  deadline : Z;
  start_time : option Z;
  end_time : option Z;
  remaining_time : Z;
  waiting_time : option Z;
  response_time : option Z;
  turnaround_time : option Z;
  status : option status_flag
}.

(** [process.__init__] *)
Definition new_process (n : string) (arrival burst dl : Z) : process :=
  {| name := n; arrival_time := arrival; burst_time := burst; deadline := dl;
     start_time := None; end_time := None; remaining_time := burst;
     waiting_time := None; response_time := None; turnaround_time := None;
     status := None |}.

(** The four constructor arguments, which no function of the module assigns. *)
Definition descriptor (p : process) : string * Z * Z * Z :=
  (name p, arrival_time p, burst_time p, deadline p).

(** A record is fresh when it is as [__init__] leaves it. *)
Definition fresh (p : process) : Prop :=
  p = new_process (name p) (arrival_time p) (burst_time p) (deadline p).

(** Attribute assignments. *)
Definition set_remaining_time (r : Z) (p : process) : process :=
  {| name := name p; arrival_time := arrival_time p; burst_time := burst_time p;
     deadline := deadline p; start_time := start_time p; end_time := end_time p;
     remaining_time := r; waiting_time := waiting_time p;
     response_time := response_time p; turnaround_time := turnaround_time p;
     status := status p |}.

Definition set_response_time (r : Z) (p : process) : process :=
  {| name := name p; arrival_time := arrival_time p; burst_time := burst_time p;
     deadline := deadline p; start_time := start_time p; end_time := end_time p;
     remaining_time := remaining_time p; waiting_time := waiting_time p;
     response_time := Some r; turnaround_time := turnaround_time p;
     status := status p |}.

Definition set_start_time (t : Z) (p : process) : process :=
  {| name := name p; arrival_time := arrival_time p; burst_time := burst_time p;
     deadline := deadline p; start_time := Some t; end_time := end_time p;
     remaining_time := remaining_time p; waiting_time := waiting_time p;
     response_time := response_time p; turnaround_time := turnaround_time p;
     status := status p |}.

Definition set_end_time (t : Z) (p : process) : process :=
  {| name := name p; arrival_time := arrival_time p; burst_time := burst_time p;
     deadline := deadline p; start_time := start_time p; end_time := Some t;
     remaining_time := remaining_time p; waiting_time := waiting_time p;
     response_time := response_time p; turnaround_time := turnaround_time p;
     status := status p |}.

Definition set_status (f : status_flag) (p : process) : process :=
  {| name := name p; arrival_time := arrival_time p; burst_time := burst_time p;
     deadline := deadline p; start_time := start_time p; end_time := end_time p;
     remaining_time := remaining_time p; waiting_time := waiting_time p;
     response_time := response_time p; turnaround_time := turnaround_time p;
     status := Some f |}.

Definition set_turnaround_time (t : Z) (p : process) : process :=
  {| name := name p; arrival_time := arrival_time p; burst_time := burst_time p;
     deadline := deadline p; start_time := start_time p; end_time := end_time p;
     remaining_time := remaining_time p; waiting_time := waiting_time p;
     response_time := response_time p; turnaround_time := Some t;
     status := status p |}.

Definition set_waiting_time (t : Z) (p : process) : process :=
  {| name := name p; arrival_time := arrival_time p; burst_time := burst_time p;
     deadline := deadline p; start_time := start_time p; end_time := end_time p;
     remaining_time := remaining_time p; waiting_time := Some t;
     response_time := response_time p; turnaround_time := turnaround_time p;
     status := status p |}.

(** ** Exceptions *)

Inductive exn : Type :=
| ValueError
| TypeError
| ZeroDivisionError
| OverflowError.

Inductive result (A : Type) : Type :=
| Ok (a : A)
| Raise (e : exn).
Arguments Ok {A} a.
Arguments Raise {A} e.

(** ** list.sort and sorted with a key: the stable sort *)

Section StableSort.
Variable A : Type.
Variable key : A -> Z.

(** [x] goes in front of the first element whose key is not smaller, so an
    element that was in front of elements of the same key stays there. *)
Fixpoint insert_by (x : A) (l : list A) : list A :=
  match l with
  | [] => [x]
  | y :: l' => if key x <=? key y then x :: y :: l' else y :: insert_by x l'
  end.

Definition sort_by (l : list A) : list A := fold_right insert_by [] l.

Definition key_le (x y : A) : Prop := key x <= key y.
End StableSort.
Arguments key_le {A} key x y.
Arguments insert_by {A} key x l.
Arguments sort_by {A} key l.

(** ** The simulation state *)

Record sim : Type := mk_sim {
  current_time : Z;
  processes : list process;
  ready_queue : list process;
  cpu : list process
}.

Definition set_current_time (t : Z) (s : sim) : sim :=
  {| current_time := t; processes := processes s;
     ready_queue := ready_queue s; cpu := cpu s |}.

Definition set_ready_queue (q : list process) (s : sim) : sim :=
  {| current_time := current_time s; processes := processes s;
     ready_queue := q; cpu := cpu s |}.

Definition set_cpu (c : list process) (s : sim) : sim :=
  {| current_time := current_time s; processes := processes s;
     ready_queue := ready_queue s; cpu := c |}.

(** ** update_ready_queue *)

(** [del i l] is [l] without its element of index [i]: what
    [processes.remove(process)] does when [process] is the object of index
    [i], the class defining no [__eq__]. *)
Fixpoint del {A : Type} (i : nat) (l : list A) : list A :=
  match l, i with
  | [], _ => []
  | _ :: l', O => l'
  | x :: l', S j => x :: del j l'
  end.

(** The [for] loop over [processes], as the list iterator runs it: the
    iterator holds an index [i], yields [processes[i]] as long as [i] is
    smaller than the current length, and moves to [i+1], whatever the body
    did to the list.  Each turn consumes one unit of [n]; the loop is run with
    [n] the length of the list, which bounds the number of turns. *)
Fixpoint for_remove (now : Z) (n i : nat) (pending ready : list process)
  : list process * list process :=
  match n with
  | O => (pending, ready)
  | S n' =>
      match nth_error pending i with
      | None => (pending, ready)
      | Some p =>
          if arrival_time p <=? now
          then for_remove now n' (S i) (del i pending) (ready ++ [p])
          else for_remove now n' (S i) pending ready
      end
  end.

Definition update_ready_queue (s : sim) : sim :=
  let '(pending, ready) :=
    for_remove (current_time s) (List.length (processes s)) 0
               (processes s) (ready_queue s) in
  {| current_time := current_time s; processes := pending;
     ready_queue := ready; cpu := cpu s |}.

(** The same loop by recursion on the list: an admitted process takes the
    iterator past its successor, which stays where it is, unvisited. *)
Fixpoint scan (now : Z) (pending : list process)
  : list process * list process :=
  match pending with
  | [] => ([], [])
  | p :: rest =>
      if arrival_time p <=? now then
        match rest with
        | [] => ([], [p])
        | q :: rest' =>
            let '(kept, admitted) := scan now rest' in
            (q :: kept, p :: admitted)
        end
      else
        let '(kept, admitted) := scan now rest in (p :: kept, admitted)
  end.

(** ** check_status *)

(** [None <= deadline] raises [TypeError]. *)
Definition check_status (p : process) : result process :=
  match end_time p with
  | Some e => Ok (if e <=? deadline p then set_status S_ p else set_status F_ p)
  | None => Raise TypeError
  end.

(** ** The loops *)

(** [while cond: body], run for at most [fuel] turns. *)
Fixpoint while {St : Type} (cond : St -> bool) (body : St -> St)
  (fuel : nat) (s : St) : option St :=
  if cond s then
    match fuel with
    | O => None
    | S n => while cond body n (body s)
    end
  else Some s.

(** [while processes or ready_queue] *)
Definition pending_or_ready (s : sim) : bool :=
  match processes s, ready_queue s with
  | [], [] => false
  | _, _ => true
  end.

(** The first dispatch of a process records its response and start times. *)
Definition first_dispatch (now : Z) (p : process) : process :=
  match response_time p with
  | None => set_start_time now (set_response_time (now - arrival_time p) p)
  | Some _ => p
  end.

(** One unit of execution of the running process:
    [process.remaining_time -= 1; current_time += 1;
     update_ready_queue(processes, ready_queue)]. *)
Definition tick (sp : sim * process) : sim * process :=
  let '(s, p) := sp in
  (update_ready_queue (set_current_time (current_time s + 1) s),
   set_remaining_time (remaining_time p - 1) p).

(** [while running_time > 0]: the body runs [running_time] times, and not at
    all when [running_time] is not positive. *)
Definition run_for (running_time : Z) (sp : sim * process) : sim * process :=
  Nat.iter (Z.to_nat running_time) tick sp.

(** The unfinished process goes back to the tail of the ready queue, after
    one more admission. *)
Definition requeue (s : sim) (p : process) : sim :=
  let s' := update_ready_queue s in
  set_ready_queue (ready_queue s' ++ [p]) s'.

(** The body of the loop of [rr]. *)
Definition rr_iter (quantum : Z) (s : sim) : sim :=
  let s1 := update_ready_queue s in
  match ready_queue s1 with
  | [] => set_current_time (current_time s1 + 1) s1
  | p :: queue =>
      let p1 := first_dispatch (current_time s1) p in
      let running_time := Z.min quantum (remaining_time p1) in
      let '(s2, p2) := run_for running_time (set_ready_queue queue s1, p1) in
      if remaining_time p2 =? 0 then
        set_cpu
          (cpu s2 ++ [set_status S_ (set_end_time (current_time s2) p2)]) s2
      else requeue s2 p2
  end.

(** The body of the loop of [edf].  Two branches stand for what cannot
    happen: [pop(0)] on an empty sorted queue, the queue being not empty, and
    an exception in [check_status], the end time being set. *)
Definition edf_iter (s : sim) : sim :=
  let s1 := update_ready_queue s in
  match ready_queue s1 with
  | [] => set_current_time (current_time s1 + 1) s1
  | _ :: _ =>
      match sort_by deadline (ready_queue s1) with
      | [] => s1
      | p :: queue =>
          let p1 := first_dispatch (current_time s1) p in
          let '(s2, p2) := tick (set_ready_queue queue s1, p1) in
          if remaining_time p2 =? 0 then
            match check_status (set_end_time (current_time s2) p2) with
            | Ok p3 => set_cpu (cpu s2 ++ [p3]) s2
            | Raise _ => s2
            end
          else requeue s2 p2
      end
  end.

(** [sorted(cpu, key=lambda p: p.start_time)]: a list of at most one element
    is copied without any comparison; otherwise every key is compared with
    another one, and a comparison with [None] raises [TypeError]. *)
Definition start_key (p : process) : Z :=
  match start_time p with Some t => t | None => 0 end.

Definition has_start_time (p : process) : bool :=
  match start_time p with Some _ => true | None => false end.

Definition sorted_by_start_time (l : list process) : result (list process) :=
  match l with
  | [] | [_] => Ok l
  | _ => if forallb has_start_time l then Ok (sort_by start_key l)
         else Raise TypeError
  end.

(** The state in which both loops start: the caller's list sorted by arrival
    time, the clock at 0, nothing ready, nothing completed. *)
Definition initial (ps : list process) : sim :=
  {| current_time := 0; processes := sort_by arrival_time ps;
     ready_queue := []; cpu := [] |}.

(** What a call leaves: the caller's list, which the call has sorted and
    emptied in place, and the value returned or the exception raised. *)
Definition outcome : Type := list process * result (list process).

Definition finish (s : sim) : outcome :=
  (processes s, sorted_by_start_time (cpu s)).

Definition rr (fuel : nat) (ps : list process) (quantum : Z)
  : option outcome :=
  option_map finish
    (while pending_or_ready (rr_iter quantum) fuel (initial ps)).

Definition edf (fuel : nat) (ps : list process) : option outcome :=
  option_map finish (while pending_or_ready edf_iter fuel (initial ps)).

(** ** The schedule of a run *)

(** A slice [(n, a, b)]: the process named [n] held the processor from time
    [a] to time [b]. *)
Definition slice : Type := string * Z * Z.

(** The slice that one turn of the loop of [rr] gives, if it dispatches. *)
Definition rr_dispatch (quantum : Z) (s : sim) : list slice :=
  match ready_queue (update_ready_queue s) with
  | [] => []
  | p :: _ => [(name p, current_time s, current_time (rr_iter quantum s))]
  end.

Definition edf_dispatch (s : sim) : list slice :=
  match sort_by deadline (ready_queue (update_ready_queue s)) with
  | [] => []
  | p :: _ => [(name p, current_time s, current_time (edf_iter s))]
  end.

(** A loop body together with the record of its dispatches. *)
Definition logged (iter : sim -> sim) (dispatch : sim -> list slice)
  (sl : sim * list slice) : sim * list slice :=
  (iter (fst sl), snd sl ++ dispatch (fst sl)).

Definition trace (iter : sim -> sim) (dispatch : sim -> list slice)
  (fuel : nat) (ps : list process) : option (list slice) :=
  option_map snd
    (while (fun sl => pending_or_ready (fst sl)) (logged iter dispatch)
           fuel (initial ps, [])).

Definition rr_trace (fuel : nat) (ps : list process) (quantum : Z) :=
  trace (rr_iter quantum) (rr_dispatch quantum) fuel ps.

Definition edf_trace (fuel : nat) (ps : list process) :=
  trace edf_iter edf_dispatch fuel ps.

(** ** calculate_metrics *)

Definition bind {A B : Type} (r : result A) (k : A -> result B) : result B :=
  match r with
  | Ok a => k a
  | Raise e => Raise e
  end.

Notation "x <- r ;; k" := (bind r (fun x => k))
  (at level 61, r at next level, right associativity).

(** A list of attribute values, read as integers: one [None] among them makes
    the arithmetic or the comparison that meets it raise [TypeError]. *)
Fixpoint integers (l : list (option Z)) : result (list Z) :=
  match l with
  | [] => Ok []
  | None :: _ => Raise TypeError
  | Some z :: l' => zs <- integers l' ;; Ok (z :: zs)
  end.

Definition sum (l : list Z) : Z := fold_right Z.add 0 l.

(** [sum([p.attribute for p in cpu])] *)
Definition total (l : list (option Z)) : result Z :=
  zs <- integers l ;; Ok (sum zs).

(** [max(cpu, key=lambda p: p.end_time).end_time]: [ValueError] on the empty
    list; a single element is returned without any comparison; otherwise every
    key takes part in a comparison. *)
Definition last_finish (cpu : list process) : result (option Z) :=
  match cpu with
  | [] => Raise ValueError
  | [p] => Ok (end_time p)
  | p :: rest =>
      match end_time p with
      | None => Raise TypeError
      | Some e => es <- integers (map end_time rest) ;;
                  Ok (Some (fold_left Z.max es e))
      end
  end.

(** The [for] loop that assigns [turnaround_time] and [waiting_time]; it
    stops at the first record without an [end_time], those before it being
    already assigned. *)
Fixpoint assign_times (cpu : list process) : list process * result unit :=
  match cpu with
  | [] => ([], Ok tt)
  | p :: rest =>
      match end_time p with
      | None => (p :: rest, Raise TypeError)
      | Some e =>
          let ta := e - arrival_time p in
          let p' := set_waiting_time (ta - burst_time p)
                      (set_turnaround_time ta p) in
          let '(rest', r) := assign_times rest in (p' :: rest', r)
      end
  end.

Section Metrics.
(** The binary64 arithmetic of Python's [float] is a parameter: the type,
    the true division of two integers with a non-zero divisor ([None] when
    the quotient is too large for a float, where Python raises
    [OverflowError]), [round(x, 2)], [x * 100] and [x > y]. *)
Variable float : Type.
Variable true_div : Z -> Z -> option float.
Variable round2 : float -> float.
Variable times100 : float -> float.
Variable float_gt : float -> float -> bool.

(** A metric is a float, or the integer [0] of the [else 0] branches. *)
Inductive number : Type :=
| Int (z : Z)
| Float (x : float).

Definition metrics : Type :=
  (number * number * number * number * number * number)%type.

(** [a / b] *)
Definition divide (a b : Z) : result float :=
  if b =? 0 then Raise ZeroDivisionError
  else match true_div a b with
       | Some x => Ok x
       | None => Raise OverflowError
       end.

(** [round(amount / total_processes, 2) if total_processes > 0 else 0] *)
Definition average (amount total_processes : Z) : result number :=
  if 0 <? total_processes
  then x <- divide amount total_processes ;; Ok (Float (round2 x))
  else Ok (Int 0).

(** [round(process.turnaround_time / process.burst_time, 2)] *)
Definition stretch (p : process) : result float :=
  match turnaround_time p with
  | None => Raise TypeError
  | Some ta => x <- divide ta (burst_time p) ;; Ok (round2 x)
  end.

(** [max] over the generator: the items are computed one after the other,
    and an item replaces the current maximum when it is greater. *)
Fixpoint max_from (current : float) (l : list process) : result float :=
  match l with
  | [] => Ok current
  | p :: rest =>
      x <- stretch p ;;
      max_from (if float_gt x current then x else current) rest
  end.

Definition max_stretch (cpu : list process) : result float :=
  match cpu with
  | [] => Raise ValueError
  | p :: rest => x <- stretch p ;; max_from x rest
  end.

(** [round(a / b, 2)], where [b] may be [None]. *)
Definition rounded_ratio (a : Z) (b : option Z) : result float :=
  match b with
  | None => Raise TypeError
  | Some b => x <- divide a b ;; Ok (round2 x)
  end.

(** [round((a / b) * 100, 2)] *)
Definition rounded_percentage (a : Z) (b : option Z) : result float :=
  match b with
  | None => Raise TypeError
  | Some b => x <- divide a b ;; Ok (round2 (times100 x))
  end.

(** The statements after the [for] loop, on the list as the loop left it. *)
Definition aggregate (total_time : option Z) (cpu : list process)
  : result metrics :=
  let total_processes := Z.of_nat (List.length cpu) in
  total_waiting_time <- total (map waiting_time cpu) ;;
  total_turnaround_time <- total (map turnaround_time cpu) ;;
  total_response_time <- total (map response_time cpu) ;;
  let total_burst_time := sum (map burst_time cpu) in
  awt <- average total_waiting_time total_processes ;;
  art <- average total_response_time total_processes ;;
  att <- average total_turnaround_time total_processes ;;
  throughput <- rounded_ratio total_processes total_time ;;
  utilization <- rounded_percentage total_burst_time total_time ;;
  proportionality <- max_stretch cpu ;;
  Ok (awt, art, att, Float throughput, Float utilization,
      Float proportionality).

(** The call leaves the list with the records as the [for] loop assigned
    them, and returns the tuple or raises. *)
Definition calculate_metrics (cpu : list process)
  : list process * result metrics :=
  match last_finish cpu with
  | Raise e => (cpu, Raise e)
  | Ok total_time =>
      match assign_times cpu with
      | (cpu', Raise e) => (cpu', Raise e)
      | (cpu', Ok _) => (cpu', aggregate total_time cpu')
      end
  end.
End Metrics.
Arguments Int {float} z.
Arguments Float {float} x.
Arguments divide {float} true_div a b.
Arguments average {float} true_div round2 amount total_processes.
Arguments stretch {float} true_div round2 p.
Arguments max_from {float} true_div round2 float_gt current l.
Arguments max_stretch {float} true_div round2 float_gt cpu.
Arguments rounded_ratio {float} true_div round2 a b.
Arguments rounded_percentage {float} true_div round2 times100 a b.
Arguments aggregate {float} true_div round2 times100 float_gt total_time cpu.
Arguments calculate_metrics {float} true_div round2 times100 float_gt cpu.

(** ** The range of the floats

    Python's true division of two integers gives the double nearest to the
    quotient, and raises [OverflowError] only when that double would be
    infinite, that is when the magnitude of the quotient is
    [2 ^ 1024 - 2 ^ 970] or more.  The statements ask less of [true_div]:
    that it returns on every quotient of magnitude [2 ^ 1023] at most. *)
Definition float_range : Z := 2 ^ 1023.

Definition in_float_range (z : Z) : Prop := Z.abs z <= float_range.

Definition no_overflow {float : Type} (true_div : Z -> Z -> option float)
  : Prop :=
  forall a b,
    b <> 0 -> Z.abs a <= float_range * Z.abs b -> true_div a b <> None.

(** ** An instance of the float interface for running the model

    Exact rationals stand for the doubles nearest to them.  The division
    fails where Python's overflows.  [round2] goes to the nearest hundredth
    of the exact value, a tie going to the even hundredth, as [round] does on
    a double that holds the tie: a tie is an odd multiple of 1/200, which a
    double holds when its denominator in lowest terms is 8.  (When it is 40
    or 200, the double nearest to the tie lies on one side of it, and Python
    rounds to that side.)  The instance is used to run the model on small
    inputs. *)
Module Exact.
Definition true_div (a b : Z) : option Q :=
  if Z.abs a <? (2 ^ 1024 - 2 ^ 970) * Z.abs b
  then Some (Qred (Qmake a 1 / Qmake b 1)%Q)
  else None.
Definition round2 (x : Q) : Q :=
  let y := (x * Qmake 100 1)%Q in
  let below := Qfloor y in
  let nearest :=
    match Qcompare (y - Qmake below 1)%Q (Qmake 1 2) with
    | Lt => below
    | Gt => below + 1
    | Eq => if Z.even below then below else below + 1
    end in
  Qred (Qmake nearest 100).
Definition times100 (x : Q) : Q := Qred (x * Qmake 100 1)%Q.
Definition float_gt (x y : Q) : bool := negb (Qle_bool x y).
Definition calculate (cpu : list process) :=
  calculate_metrics true_div round2 times100 float_gt cpu.
End Exact.

(** ** The two loop bodies as one

    The bodies of [rr] and [edf] differ in three places: the order in which
    the ready queue is served, the number of units a dispatch runs, and the
    status given at completion. *)

Section Policy.
Variable select : list process -> list process.
Variable units : process -> Z.
Variable flag : Z -> Z -> status_flag.

Definition complete (now : Z) (p : process) : process :=
  set_status (flag now (deadline p)) (set_end_time now p).

Definition sched_iter (s : sim) : sim :=
  let s1 := update_ready_queue s in
  match select (ready_queue s1) with
  | [] => set_current_time (current_time s1 + 1) s1
  | p :: queue =>
      let p1 := first_dispatch (current_time s1) p in
      let '(s2, p2) := run_for (units p1) (set_ready_queue queue s1, p1) in
      if remaining_time p2 =? 0 then
        set_cpu (cpu s2 ++ [complete (current_time s2) p2]) s2
      else requeue s2 p2
  end.

Definition sched_dispatch (s : sim) : list slice :=
  match select (ready_queue (update_ready_queue s)) with
  | [] => []
  | p :: _ => [(name p, current_time s, current_time (sched_iter s))]
  end.
End Policy.

Definition rr_units (quantum : Z) (p : process) : Z :=
  Z.min quantum (remaining_time p).

Definition edf_flag (e d : Z) : status_flag := if e <=? d then S_ else F_.

(** What one turn of a loop does, up to the order inside the lists: either
    nothing is ready and the clock moves by one, or a process [p] of the ready
    queue, possibly admitted in this very turn, runs [n] units while the
    processes [adm] are admitted, and then completes or goes back to the
    queue. *)
Inductive turn (units : process -> Z) (flag : Z -> Z -> status_flag)
  (s s' : sim) : list slice -> Prop :=
| turn_idle :
    ready_queue s = [] ->
    processes s' = processes s ->
    ready_queue s' = [] ->
    cpu s' = cpu s ->
    current_time s' = current_time s + 1 ->
    Forall (fun p => current_time s < arrival_time p) (processes s) ->
    turn units flag s s' []
| turn_run (p : process) (others adm : list process) (n : nat) :
    Permutation (processes s) (adm ++ processes s') ->
    Forall (fun a => arrival_time a <= current_time s') adm ->
    Permutation (ready_queue s ++ adm) (p :: others) ->
    In p (ready_queue s) \/ arrival_time p <= current_time s ->
    n = Z.to_nat (units (first_dispatch (current_time s) p)) ->
    current_time s' = current_time s + Z.of_nat n ->
    (let p2 := set_remaining_time (remaining_time p - Z.of_nat n)
                 (first_dispatch (current_time s) p) in
     (remaining_time p2 = 0 /\
      cpu s' = cpu s ++ [complete flag (current_time s') p2] /\
      Permutation (ready_queue s') others) \/
     (remaining_time p2 <> 0 /\
      cpu s' = cpu s /\
      Permutation (ready_queue s') (p2 :: others))) ->
    turn units flag s s' [(name p, current_time s, current_time s')].

(** [admitted adm s s']: from [s] to [s'] the processes [adm] have gone from
    the pending list to the tail of the ready queue. *)
Definition admitted (adm : list process) (s s' : sim) : Prop :=
  Permutation (processes s) (adm ++ processes s') /\
  ready_queue s' = ready_queue s ++ adm /\
  cpu s' = cpu s /\
  Forall (fun a => arrival_time a <= current_time s') adm.

(** The objects of a run: those that wait for their arrival, those that are
    ready and those that have completed. *)
Definition live (s : sim) : list process :=
  processes s ++ ready_queue s ++ cpu s.

(** A process that has not been dispatched yet. *)
Definition unstarted (p : process) : Prop :=
  response_time p = None /\ remaining_time p = burst_time p.

(** A process that has been dispatched: its start and response times are
    those of its first dispatch, which was not before its arrival, and the
    units it has run since lie between its start and the current time. *)
Definition started (now : Z) (p : process) : Prop :=
  exists st,
    start_time p = Some st /\
    response_time p = Some (st - arrival_time p) /\
    arrival_time p <= st /\
    st + (burst_time p - remaining_time p) <= now.

Definition pending_ok (p : process) : Prop :=
  unstarted p /\ 0 < burst_time p.

Definition ready_ok (now : Z) (p : process) : Prop :=
  arrival_time p <= now /\
  0 < remaining_time p <= burst_time p /\
  (unstarted p \/ started now p).

Definition done_ok (flag : Z -> Z -> status_flag) (p : process) : Prop :=
  remaining_time p = 0 /\ 0 < burst_time p /\
  exists st e,
    start_time p = Some st /\ end_time p = Some e /\
    response_time p = Some (st - arrival_time p) /\
    status p = Some (flag e (deadline p)) /\
    arrival_time p <= st /\ st + burst_time p <= e.

(** The invariant of both loops, for the input list [ps]. *)
Definition inv (flag : Z -> Z -> status_flag) (ps : list process) (s : sim)
  : Prop :=
  Permutation (map descriptor (live s)) (map descriptor ps) /\
  Forall pending_ok (processes s) /\
  Forall (ready_ok (current_time s)) (ready_queue s) /\
  Forall (done_ok flag) (cpu s).

(** The measure of both loops: the units that remain to be run, plus the time
    until the last pending process arrives. *)
Definition total_remaining (l : list process) : Z :=
  fold_right (fun p acc => remaining_time p + acc) 0 l.

Definition gap (now : Z) (l : list process) : Z :=
  fold_right (fun p acc => Z.max (arrival_time p - now) acc) 0 l.

Definition work_left (s : sim) : nat :=
  Z.to_nat (total_remaining (processes s ++ ready_queue s)
            + gap (current_time s) (processes s)).

(** ** Reading a schedule *)

(** The intervals during which the process named [n] held the processor. *)
Fixpoint runs (n : string) (log : list slice) : list (Z * Z) :=
  match log with
  | [] => []
  | (m, a, b) :: log' =>
      if String.eqb m n then (a, b) :: runs n log' else runs n log'
  end.

(** The time the intervals cover. *)
Definition busy (l : list (Z * Z)) : Z :=
  fold_right (fun ab acc => snd ab - fst ab + acc) 0 l.

(** Each interval ends where the next one begins. *)
Fixpoint abutting (l : list (Z * Z)) : Prop :=
  match l with
  | (_, b) :: l' =>
      match l' with
      | [] => True
      | (a', _) :: _ => b = a' /\ abutting l'
      end
  | [] => True
  end.

(** The process named [n] was never preempted: from its first dispatch to
    its last, the processor was never given to another process nor left
    idle. *)
Definition uninterrupted (n : string) (log : list slice) : Prop :=
  abutting (runs n log).

(** The end of the last interval of [l], or [b] if there is none. *)
Fixpoint last_to (b : Z) (l : list (Z * Z)) : Z :=
  match l with
  | [] => b
  | (_, b') :: l' => last_to b' l'
  end.

(** The beginning of the first interval and the end of the last one. *)
Definition span (l : list (Z * Z)) : option (Z * Z) :=
  match l with
  | [] => None
  | (a, b) :: l' => Some (a, last_to b l')
  end.

(** The schedule so far agrees with the records. *)
Definition pending_log (log : list slice) (p : process) : Prop :=
  unstarted p /\ runs (name p) log = [].

Definition ready_log (log : list slice) (p : process) : Prop :=
  busy (runs (name p) log) = burst_time p - remaining_time p /\
  match runs (name p) log with
  | [] => response_time p = None
  | (a, _) :: _ => start_time p = Some a /\ response_time p <> None
  end.

Definition done_log (log : list slice) (p : process) : Prop :=
  busy (runs (name p) log) = burst_time p /\
  exists a b,
    span (runs (name p) log) = Some (a, b) /\
    start_time p = Some a /\ end_time p = Some b.

Definition inv_log (sl : sim * list slice) : Prop :=
  NoDup (map name (live (fst sl))) /\
  Forall (pending_log (snd sl)) (processes (fst sl)) /\
  Forall (ready_log (snd sl)) (ready_queue (fst sl)) /\
  Forall (done_log (snd sl)) (cpu (fst sl)).

(** ** Notions used in the statements *)

(** [sublist l1 l2]: [l1] is [l2] without some of its elements, the others
    in their order. *)
Inductive sublist {A : Type} : list A -> list A -> Prop :=
| sublist_nil : sublist [] []
| sublist_skip x l1 l2 : sublist l1 l2 -> sublist l1 (x :: l2)
| sublist_keep x l1 l2 : sublist l1 l2 -> sublist (x :: l1) (x :: l2).

(** What the [for] loop assigns to one record whose [end_time] is [e]. *)
Definition assigned (e : Z) (p : process) : process :=
  set_waiting_time (e - arrival_time p - burst_time p)
    (set_turnaround_time (e - arrival_time p) p).

(** What the [for] loop does to one record. *)
Definition assign (p : process) : process :=
  match end_time p with
  | Some e => assigned e p
  | None => p
  end.

(** The relation between the two assigned attributes of a record. *)
Definition conserved (p : process) : Prop :=
  exists e ta w,
    end_time p = Some e /\ turnaround_time p = Some ta /\
    waiting_time p = Some w /\
    ta = w + burst_time p /\ ta = e - arrival_time p.

(** The attributes that [calculate_metrics] does not assign are the same in
    both records. *)
Definition same_but_times (p p' : process) : Prop :=
  descriptor p' = descriptor p /\
  start_time p' = start_time p /\ end_time p' = end_time p /\
  remaining_time p' = remaining_time p /\
  response_time p' = response_time p /\ status p' = status p.

(** The numbers that [calculate_metrics] divides are in the range of the
    floats: every record has its [end_time] and its [response_time], and the
    number of the records, the sum of their burst times and, for each of
    them, the response, turnaround and waiting times are of magnitude
    [float_range] at most. *)
Definition times_in_range (cpu : list process) : Prop :=
  in_float_range (Z.of_nat (List.length cpu)) /\
  in_float_range (sum (map burst_time cpu)) /\
  Forall (fun p => exists e r,
            end_time p = Some e /\ response_time p = Some r /\
            in_float_range r /\
            in_float_range (e - arrival_time p) /\
            in_float_range (e - arrival_time p - burst_time p)) cpu.

(** [max] reads the [end_time] attributes only. *)
Definition finish_of (es : list (option Z)) : result (option Z) :=
  match es with
  | [] => Raise ValueError
  | [e] => Ok e
  | None :: _ => Raise TypeError
  | Some e :: rest => zs <- integers rest ;; Ok (Some (fold_left Z.max zs e))
  end.

(** [a] comes before [b] in the order of the start times; a record without
    start time compares with none. *)
Definition start_le (a b : process) : Prop :=
  match start_time a, start_time b with
  | Some x, Some y => x <= y
  | _, _ => False
  end.

(** The two processes of the second scenario. *)
Definition P1 : process := new_process "P1" 0 4 10.
Definition P2 : process := new_process "P2" 1 2 3.

(** The status of a completed process says whether it met its deadline. *)
Definition status_by_deadline (p : process) : Prop :=
  exists e,
    end_time p = Some e /\
    (status p = Some S_ <-> e <= deadline p) /\
    (status p = Some F_ <-> e > deadline p).

(** A returned record: nothing remains to run, and the attributes that the
    schedulers assign are set. *)
Definition completed (p : process) : Prop :=
  remaining_time p = 0 /\ start_time p <> None /\ end_time p <> None /\
  response_time p <> None /\ status p <> None.

(** The start and end times of a returned record, for the input list [ps]
    and the schedule [tr] of the run. *)
Definition timing (ps : list process) (tr : list slice) (p : process) : Prop :=
  exists st e,
    start_time p = Some st /\ end_time p = Some e /\
    arrival_time p <= st /\ st <= e /\
    burst_time p <= e - st /\
    (NoDup (map name ps) -> uninterrupted (name p) tr ->
     e - st = burst_time p).

(** The second scenario with a deadline that P2 cannot meet. *)
Definition P2_late : process := new_process "P2" 1 2 2.

(** [ran p st e f]: the record of [p] once it has been dispatched first at
    [st] and has completed at [e] with status [f]. *)
Definition ran (p : process) (st e : Z) (f : status_flag) : process :=
  {| name := name p; arrival_time := arrival_time p;
     burst_time := burst_time p; deadline := deadline p;
     start_time := Some st; end_time := Some e; remaining_time := 0;
     waiting_time := None; response_time := Some (st - arrival_time p);
     turnaround_time := None; status := Some f |}.

(** ** Notions used in further properties *)

(** The elements of even index (0, 2, ...) and those of odd index. *)
Fixpoint evens {A : Type} (l : list A) : list A :=
  match l with
  | [] => []
  | x :: l' =>
      x :: match l' with
           | [] => []
           | _ :: l'' => evens l''
           end
  end.

Definition odds {A : Type} (l : list A) : list A :=
  match l with
  | [] => []
  | _ :: l' => evens l'
  end.

(** The status of a completed record is the one that the policy gives at
    its end time. *)
Definition flagged (flag : Z -> Z -> status_flag) (p : process) : Prop :=
  exists e, end_time p = Some e /\ status p = Some (flag e (deadline p)).

(** The length of a slice. *)
Definition slice_length (sl : slice) : Z := snd sl - snd (fst sl).

(** The slices follow one another in time, from [from] on: each one begins
    when the previous one has ended, or later, and ends when it has begun, or
    later. *)
Fixpoint in_order (from : Z) (log : list slice) : Prop :=
  match log with
  | [] => True
  | (_, a, b) :: log' => from <= a /\ a <= b /\ in_order b log'
  end.

(** The end of the last slice, or [from] when there is none. *)
Fixpoint log_end (from : Z) (log : list slice) : Z :=
  match log with
  | [] => from
  | (_, _, b) :: log' => log_end b log'
  end.

(** The units that the processes of a list have run. *)
Definition executed (l : list process) : Z :=
  fold_right (fun p acc => burst_time p - remaining_time p + acc) 0 l.

(** The clock of a run: it is not behind the units run so far, it is not
    ahead of them by more than the latest arrival, no completed process has
    ended after it, and when nothing is left to run it is the end time of a
    completed process. *)
Definition inv_clock (flag : Z -> Z -> status_flag) (ps : list process)
  (s : sim) : Prop :=
  inv flag ps s /\
  executed (live s) <= current_time s <= executed (live s) + gap 0 ps /\
  Forall (fun p => exists e, end_time p = Some e /\ e <= current_time s)
    (cpu s) /\
  (pending_or_ready s = true \/ cpu s = [] \/
   exists p, In p (cpu s) /\ end_time p = Some (current_time s)).

(** A process whose remaining time is [bad] waits or is ready. *)
Definition stuck (bad : Z -> Prop) (s : sim) : Prop :=
  Exists (fun p => bad (remaining_time p)) (processes s ++ ready_queue s).

(** The times of a record after a run and the computation of the metrics. *)
Definition times_of_run (p : process) : Prop :=
  exists w r ta,
    waiting_time p = Some w /\ response_time p = Some r /\
    turnaround_time p = Some ta /\
    0 <= r <= w /\ burst_time p <= ta /\ ta = w + burst_time p.

(** ** read_processes, main and the script

    The input file is the list of its lines, as the file iterator gives them.
    Three library functions are parameters: [line.strip().split()], [int] on
    a string ([None] when it raises [ValueError]) and [str.lower]. *)

(** What a call may raise besides the exceptions of [exn]: [StopIteration],
    which [next] raises on a file without any line. *)
Inductive raised : Type :=
| StopIteration
| Exception (e : exn).

Inductive answer (A : Type) : Type :=
| Returns (a : A)
| Raises (r : raised).
Arguments Returns {A} a.
Arguments Raises {A} r.

Section Files.
Variable split_fields : string -> list string.
Variable int : string -> option Z.

(** [name, arrival, burst, deadline = line.strip().split()] raises
    [ValueError] unless there are four fields; then
    [process(name, int(arrival), int(burst), int(deadline))]. *)
Definition process_of_line (line : string) : result process :=
  match split_fields line with
  | [name; arrival; burst; deadline] =>
      match int arrival with
      | None => Raise ValueError
      | Some a =>
          match int burst with
          | None => Raise ValueError
          | Some b =>
              match int deadline with
              | None => Raise ValueError
              | Some d => Ok (new_process name a b d)
              end
          end
      end
  | _ => Raise ValueError
  end.

(** The [for] loop over the lines: the first line that raises ends it. *)
Fixpoint processes_of_lines (lines : list string) : result (list process) :=
  match lines with
  | [] => Ok []
  | line :: lines' =>
      p <- process_of_line line ;;
      ps <- processes_of_lines lines' ;;
      Ok (p :: ps)
  end.

(** [next(file)] skips the header line. *)
Definition read_processes (file : list string) : answer (list process) :=
  match file with
  | [] => Raises StopIteration
  | _ :: lines =>
      match processes_of_lines lines with
      | Ok ps => Returns ps
      | Raise e => Raises (Exception e)
      end
  end.

(** A line that gives a process. *)
Definition line_gives (line : string) (p : process) : Prop :=
  exists name arrival burst deadline a b d,
    split_fields line = [name; arrival; burst; deadline] /\
    int arrival = Some a /\ int burst = Some b /\ int deadline = Some d /\
    p = new_process name a b d.

Definition well_formed (line : string) : Prop :=
  exists p, line_gives line p.

Variable float : Type.
Variable true_div : Z -> Z -> option float.
Variable round2 : float -> float.
Variable times100 : float -> float.
Variable float_gt : float -> float -> bool.

(** [main], up to the dictionary of the metrics: the file is read twice, [rr]
    runs on the first list and [edf] on the second, then [calculate_metrics]
    runs on what [rr] has returned and on what [edf] has returned.  For each
    policy the result holds the list as [calculate_metrics] leaves it, which
    [main] prints afterwards, and the tuple.  The data frame and the printing
    are not modelled; the file is taken to hold the same lines at both
    readings. *)
Definition main_metrics (fuel : nat) (file : list string) (quantum : Z)
  : option (answer ((list process * metrics float)
                    * (list process * metrics float))) :=
  match read_processes file with
  | Raises r => Some (Raises r)
  | Returns processes1 =>
      match read_processes file with
      | Raises r => Some (Raises r)
      | Returns processes2 =>
          match rr fuel processes1 quantum with
          | None => None
          | Some (_, Raise e) => Some (Raises (Exception e))
          | Some (_, Ok cpu_rr) =>
              match edf fuel processes2 with
              | None => None
              | Some (_, Raise e) => Some (Raises (Exception e))
              | Some (_, Ok cpu_edf) =>
                  match calculate_metrics true_div round2 times100 float_gt
                          cpu_rr with
                  | (_, Raise e) => Some (Raises (Exception e))
                  | (cpu_rr', Ok metrics_rr) =>
                      match calculate_metrics true_div round2 times100
                              float_gt cpu_edf with
                      | (_, Raise e) => Some (Raises (Exception e))
                      | (cpu_edf', Ok metrics_edf) =>
                          Some (Returns ((cpu_rr', metrics_rr),
                                         (cpu_edf', metrics_edf)))
                      end
                  end
              end
          end
      end
  end.

Variable lower : string -> string.

(** [s.endswith(suffix)] *)
Definition endswith (s suffix : string) : bool :=
  let n := String.length s in
  let m := String.length suffix in
  (m <=? n)%nat && String.eqb (String.substring (n - m) m s) suffix.

(** What the script does with its arguments: it prints messages and exits
    with a status, or it calls [main]. *)
Inductive action : Type :=
| Exit (status : Z) (printed : list string)
| Main (input_file : string) (quantum : Z).

(** The block under [if __name__ == "__main__"], with [sys.argv]. *)
Definition script (argv : list string) : action :=
  match argv with
  | [_; input_file; argument] =>
      if negb (endswith (lower input_file) ".txt") then
        Exit 1 ["Error: Input file must be a .txt file."%string]
      else
        match int argument with
        | None => Exit 1 ["Error: Quantum value must be an integer."%string]
        | Some quantum =>
            if quantum <=? 0 then
              Exit 1
                ["Error: Quantum value must be a positive integer."%string]
            else Main input_file quantum
        end
  | _ =>
      Exit 1
        ["Error: Invalid number of arguments provided.";
         "Usage: python scheduler.py [input-file] [quantum]"]%string
  end.
End Files.
Arguments main_metrics split_fields int {float} true_div round2 times100
  float_gt fuel file quantum.

(** ** Instances of the three library functions, for texts in ASCII

    On a text in ASCII the white space of [str.strip], [str.split] and [int]
    is made of the characters 9 to 13 and 28 to 32; [int] takes an optional
    sign and decimal digits, between two of which one underscore may stand,
    with white space around the whole; [str.lower] changes the letters [A]
    to [Z].  The instances are used to run the model on small inputs: they
    leave out the bound that an interpreter may put on the number of digits
    of a literal. *)
Module Plain.
Definition is_space (c : ascii) : bool :=
  let n := nat_of_ascii c in
  ((9 <=? n)%nat && (n <=? 13)%nat) || ((28 <=? n)%nat && (n <=? 32)%nat).

(** The fields of [s], after the characters of [word], the field that is
    being read. *)
Fixpoint split_from (word : string) (s : string) : list string :=
  match s with
  | EmptyString =>
      match word with
      | EmptyString => []
      | _ => [word]
      end
  | String c s' =>
      if is_space c then
        match word with
        | EmptyString => split_from EmptyString s'
        | _ => word :: split_from EmptyString s'
        end
      else split_from (String.append word (String c EmptyString)) s'
  end.

(** [line.strip().split()] *)
Definition split_fields (line : string) : list string :=
  split_from EmptyString line.

Fixpoint lstrip (s : string) : string :=
  match s with
  | EmptyString => EmptyString
  | String c s' => if is_space c then lstrip s' else s
  end.

Fixpoint rstrip (s : string) : string :=
  match s with
  | EmptyString => EmptyString
  | String c s' =>
      match rstrip s' with
      | EmptyString => if is_space c then EmptyString
                       else String c EmptyString
      | rest => String c rest
      end
  end.

Definition digit (c : ascii) : option Z :=
  let n := Z.of_nat (nat_of_ascii c) in
  if (48 <=? n) && (n <=? 57) then Some (n - 48) else None.

(** The digits of a literal; [after_digit] tells whether the previous
    character was a digit, after which an underscore or the end may come. *)
Fixpoint digits (acc : Z) (after_digit : bool) (s : string) : option Z :=
  match s with
  | EmptyString => if after_digit then Some acc else None
  | String c s' =>
      if Ascii.eqb c "_"%char then
        if after_digit then digits acc false s' else None
      else
        match digit c with
        | Some d => digits (10 * acc + d) true s'
        | None => None
        end
  end.

(** [int(s)]; [None] when it raises [ValueError]. *)
Definition int (s : string) : option Z :=
  match rstrip (lstrip s) with
  | String "-"%char s' => option_map Z.opp (digits 0 false s')
  | String "+"%char s' => digits 0 false s'
  | s' => digits 0 false s'
  end.

Definition lower_char (c : ascii) : ascii :=
  let n := nat_of_ascii c in
  if (65 <=? n)%nat && (n <=? 90)%nat then ascii_of_nat (n + 32) else c.

(** [s.lower()] *)
Fixpoint lower (s : string) : string :=
  match s with
  | EmptyString => EmptyString
  | String c s' => String (lower_char c) (lower s')
  end.

(** A line as the file iterator gives it, with its line feed. *)
Definition line (s : string) : string :=
  String.append s (String "010"%char EmptyString).
End Plain.

(** * Properties *)

(** ** update_ready_queue *)

Lemma del_app {A : Type} (pre : list A) (x : A) (rest : list A) :
  del (List.length pre) (pre ++ x :: rest) = pre ++ rest.
Proof.
  induction pre as [|y pre IH]; simpl; [reflexivity|].
  now rewrite IH.
Qed.

Lemma nth_error_middle {A : Type} (pre : list A) (x : A) (rest : list A) :
  nth_error (pre ++ x :: rest) (List.length pre) = Some x.
Proof.
  induction pre as [|y pre IH]; simpl; [reflexivity|exact IH].
Qed.

Lemma nth_error_past {A : Type} (pre : list A) (k : nat) :
  nth_error pre (List.length pre + k) = None.
Proof.
  apply nth_error_None. lia.
Qed.

(** The iterator at index [length pre] of [pre ++ rest] does to [rest] what
    [scan] says, and leaves [pre] alone. *)
Lemma for_remove_scan (now : Z) (n : nat) :
  forall pre rest ready,
    (List.length rest <= n)%nat ->
    for_remove now n (List.length pre) (pre ++ rest) ready =
    (pre ++ fst (scan now rest), ready ++ snd (scan now rest)).
Proof.
  induction n as [|n IH]; intros pre rest ready Hn.
  - destruct rest; [|simpl in Hn; lia].
    simpl. now rewrite !app_nil_r.
  - destruct rest as [|p rest].
    + simpl. rewrite app_nil_r.
      replace (List.length pre) with (List.length pre + 0)%nat by lia.
      rewrite nth_error_past. now rewrite !app_nil_r.
    + cbn [for_remove]. rewrite nth_error_middle.
      cbn [scan]. destruct (arrival_time p <=? now) eqn:Harr.
      * rewrite del_app.
        destruct rest as [|q rest].
        -- cbn [fst snd]. rewrite !app_nil_r.
           destruct n as [|n]; cbn [for_remove].
           ++ reflexivity.
           ++ replace (S (List.length pre)) with (List.length pre + 1)%nat
                by lia.
              now rewrite nth_error_past.
        -- replace (pre ++ q :: rest) with ((pre ++ [q]) ++ rest)
             by now rewrite <- app_assoc.
           replace (S (List.length pre)) with (List.length (pre ++ [q]))
             by (rewrite length_app; simpl; lia).
           rewrite IH by (simpl in Hn; lia).
           destruct (scan now rest) as [kept admitted]. simpl.
           now rewrite <- !app_assoc.
      * replace (pre ++ p :: rest) with ((pre ++ [p]) ++ rest)
          by now rewrite <- app_assoc.
        replace (S (List.length pre)) with (List.length (pre ++ [p]))
          by (rewrite length_app; simpl; lia).
        rewrite IH by (simpl in Hn; lia).
        destruct (scan now rest) as [kept admitted]. simpl.
        now rewrite <- !app_assoc.
Qed.

Lemma update_ready_queue_scan (s : sim) :
  update_ready_queue s =
  {| current_time := current_time s;
     processes := fst (scan (current_time s) (processes s));
     ready_queue := ready_queue s ++ snd (scan (current_time s) (processes s));
     cpu := cpu s |}.
Proof.
  unfold update_ready_queue.
  pose proof (for_remove_scan (current_time s) (List.length (processes s))
                [] (processes s) (ready_queue s) (le_n _)) as H.
  cbn [List.length app] in H. rewrite H. reflexivity.
Qed.

(** Induction two elements at a time, as [scan] recurses. *)
Lemma list_pair_ind {A : Type} (P : list A -> Prop) :
  P [] ->
  (forall x, P [x]) ->
  (forall x y l, P l -> P (y :: l) -> P (x :: y :: l)) ->
  forall l, P l.
Proof.
  intros Hnil Hone Hstep l.
  assert (H : P l /\ forall x, P (x :: l)).
  { induction l as [|y l [IH1 IH2]].
    - split; [exact Hnil|exact Hone].
    - split; [apply IH2|]. intro x. apply Hstep; [exact IH1|apply IH2]. }
  exact (proj1 H).
Qed.

(** The equations of [scan]. *)
Lemma scan_admit (now : Z) (p q : process) (rest : list process) :
  (arrival_time p <=? now) = true ->
  scan now (p :: q :: rest) =
  (q :: fst (scan now rest), p :: snd (scan now rest)).
Proof.
  intro H. cbn [scan]. rewrite H. now destruct (scan now rest).
Qed.

Lemma scan_admit_last (now : Z) (p : process) :
  (arrival_time p <=? now) = true -> scan now [p] = ([], [p]).
Proof.
  intro H. cbn [scan]. now rewrite H.
Qed.

Lemma scan_keep (now : Z) (p : process) (rest : list process) :
  (arrival_time p <=? now) = false ->
  scan now (p :: rest) = (p :: fst (scan now rest), snd (scan now rest)).
Proof.
  intro H. change (scan now (p :: rest)) with
    (if arrival_time p <=? now then
       match rest with
       | [] => ([], [p])
       | q :: rest' =>
           let '(kept, admitted) := scan now rest' in (q :: kept, p :: admitted)
       end
     else let '(kept, admitted) := scan now rest in (p :: kept, admitted)).
  rewrite H. now destruct (scan now rest).
Qed.

Ltac scan_cases p t H :=
  destruct (arrival_time p <=? t) eqn:H;
  [ first [ rewrite (scan_admit _ _ _ _ H) | rewrite (scan_admit_last _ _ H) ]
  | rewrite (scan_keep _ _ _ H) ]; cbn [fst snd scan].

(** Admission moves processes, it neither loses nor duplicates any. *)
Lemma scan_permutation (now : Z) (pending : list process) :
  Permutation pending (snd (scan now pending) ++ fst (scan now pending)).
Proof.
  induction pending as [|p|p q rest IH1 IH2] using list_pair_ind.
  - reflexivity.
  - scan_cases p now H; reflexivity.
  - scan_cases p now H.
    + simpl. constructor. rewrite IH1 at 1. apply Permutation_middle.
    + rewrite IH2 at 1. apply Permutation_middle.
Qed.

(** Only arrived processes are admitted. *)
Lemma scan_admitted_arrived (now : Z) (pending : list process) :
  Forall (fun p => arrival_time p <= now) (snd (scan now pending)).
Proof.
  induction pending as [|p|p q rest IH1 IH2] using list_pair_ind.
  - constructor.
  - scan_cases p now H; repeat constructor. lia.
  - scan_cases p now H; [|exact IH2].
    constructor; [lia|exact IH1].
Qed.

Create HintDb sched.
#[local] Hint Constructors sublist : sched.

(** The admitted processes come in their order in the pending list, and so do
    those that stay. *)
Lemma scan_sublist (now : Z) (pending : list process) :
  sublist (snd (scan now pending)) pending /\
  sublist (fst (scan now pending)) pending.
Proof.
  induction pending as [|p|p q rest IH1 IH2] using list_pair_ind.
  - split; constructor.
  - scan_cases p now H; split; auto with sched.
  - scan_cases p now H.
    + destruct IH1. split; auto with sched.
    + destruct IH2. split; auto with sched.
Qed.

(** When a call admits nothing, nothing had arrived. *)
Lemma scan_nothing (now : Z) (pending : list process) :
  snd (scan now pending) = [] ->
  fst (scan now pending) = pending /\
  Forall (fun p => now < arrival_time p) pending.
Proof.
  induction pending as [|p rest IH]; [now split|].
  destruct (arrival_time p <=? now) eqn:H.
  - destruct rest as [|q rest].
    + rewrite (scan_admit_last _ _ H). discriminate.
    + rewrite (scan_admit _ _ _ _ H). discriminate.
  - rewrite (scan_keep _ _ _ H). cbn [fst snd].
    intro E. destruct (IH E) as [-> HF]. split; [reflexivity|].
    constructor; [lia|exact HF].
Qed.

(** The head of the pending list is admitted as soon as it has arrived. *)
Lemma scan_head (now : Z) (p : process) (rest : list process) :
  arrival_time p <= now ->
  exists admitted, snd (scan now (p :: rest)) = p :: admitted.
Proof.
  intro H. apply Z.leb_le in H.
  destruct rest as [|q rest].
  - rewrite (scan_admit_last _ _ H). now exists [].
  - rewrite (scan_admit _ _ _ _ H). now eexists.
Qed.

(** What a call of [update_ready_queue] does do: it appends to the ready
    queue processes of the pending list that have arrived, in their order in
    that list, the first arrived one among them; the others stay, in their
    order. *)
Lemma update_ready_queue_sound (s : sim) :
  exists adm,
    ready_queue (update_ready_queue s) = ready_queue s ++ adm /\
    sublist adm (processes s) /\
    sublist (processes (update_ready_queue s)) (processes s) /\
    Permutation (processes s) (adm ++ processes (update_ready_queue s)) /\
    Forall (fun p => arrival_time p <= current_time s) adm /\
    (adm = [] -> Forall (fun p => current_time s < arrival_time p)
                   (processes s)).
Proof.
  rewrite update_ready_queue_scan. cbn [ready_queue processes].
  exists (snd (scan (current_time s) (processes s))).
  split; [reflexivity|].
  split; [apply scan_sublist|]. split; [apply scan_sublist|].
  split; [apply scan_permutation|].
  split; [apply scan_admitted_arrived|].
  intro H. now apply scan_nothing.
Qed.

(** C1.  The admission of every arrived process in a single call fails on the
    code: with two pending processes that have both arrived, the call admits
    the first one, and the list iterator, which the removal has shifted, never
    visits the second one: it stays in the pending list although its arrival
    time is not later than the current time. *)
Theorem update_ready_queue_skips_successor :
  let A := new_process "A" 0 3 10 in
  let B := new_process "B" 0 2 5 in
  let s := {| current_time := 0; processes := [A; B];
              ready_queue := []; cpu := [] |} in
  arrival_time B <= current_time s /\
  processes (update_ready_queue s) = [B] /\
  ready_queue (update_ready_queue s) = [A].
Proof.
  cbv zeta. split; [simpl; lia|]. split; reflexivity.
Qed.

(** ** calculate_metrics *)

Lemma assign_times_cons (p : process) (rest : list process) (e : Z) :
  end_time p = Some e ->
  assign_times (p :: rest) =
  (assigned e p :: fst (assign_times rest), snd (assign_times rest)).
Proof.
  intro H. cbn [assign_times]. rewrite H.
  now destruct (assign_times rest).
Qed.

Lemma assign_times_stop (p : process) (rest : list process) :
  end_time p = None -> assign_times (p :: rest) = (p :: rest, Raise TypeError).
Proof.
  intro H. cbn [assign_times]. now rewrite H.
Qed.

(** The loop keeps the [end_time] of every record. *)
Lemma assign_times_end_time (cpu : list process) :
  map end_time (fst (assign_times cpu)) = map end_time cpu.
Proof.
  induction cpu as [|p rest IH]; [reflexivity|].
  destruct (end_time p) as [e|] eqn:He.
  - rewrite (assign_times_cons _ _ _ He).
    cbn [fst map assigned set_waiting_time set_turnaround_time end_time].
    now rewrite IH.
  - now rewrite (assign_times_stop _ _ He).
Qed.

(** Running the loop again on the list it left changes nothing. *)
Lemma assign_times_again (cpu : list process) :
  assign_times (fst (assign_times cpu)) = assign_times cpu.
Proof.
  induction cpu as [|p rest IH]; [reflexivity|].
  destruct (end_time p) as [e|] eqn:He.
  - rewrite (assign_times_cons _ _ _ He). cbn [fst].
    rewrite (assign_times_cons (assigned e p) _ e) by exact He.
    rewrite IH. reflexivity.
  - rewrite (assign_times_stop _ _ He). cbn [fst]. now apply assign_times_stop.
Qed.

(** When the loop reaches the end of the list, every record is assigned. *)
Lemma assign_times_done (cpu : list process) :
  snd (assign_times cpu) = Ok tt ->
  Forall conserved (fst (assign_times cpu)).
Proof.
  induction cpu as [|p rest IH]; [constructor|].
  destruct (end_time p) as [e|] eqn:He.
  - rewrite (assign_times_cons _ _ _ He). cbn [fst snd]. intro H.
    constructor; [|now apply IH].
    exists e, (e - arrival_time p), (e - arrival_time p - burst_time p).
    cbn. repeat split; [exact He|lia].
  - rewrite (assign_times_stop _ _ He). discriminate.
Qed.

Lemma assign_times_completed (cpu : list process) :
  Forall (fun p => end_time p <> None) cpu ->
  snd (assign_times cpu) = Ok tt.
Proof.
  induction 1 as [|p rest Hp _ IH]; [reflexivity|].
  destruct (end_time p) as [e|] eqn:He; [|contradiction].
  now rewrite (assign_times_cons _ _ _ He).
Qed.

Lemma integers_completed (l : list process) :
  Forall (fun p => end_time p <> None) l ->
  exists es, integers (map end_time l) = Ok es.
Proof.
  induction 1 as [|p rest Hp _ [es IH]]; [now exists []|].
  destruct (end_time p) as [e|] eqn:He; [|contradiction].
  exists (e :: es). cbn. rewrite He, IH. reflexivity.
Qed.

(** [max] reads the [end_time] attributes only. *)
Lemma last_finish_map (l : list process) :
  last_finish l = finish_of (map end_time l).
Proof.
  destruct l as [|p [|q l]]; try reflexivity.
  cbn [last_finish map finish_of]. now destruct (end_time p).
Qed.

Lemma last_finish_ext (l l' : list process) :
  map end_time l = map end_time l' -> last_finish l = last_finish l'.
Proof.
  intro E. now rewrite !last_finish_map, E.
Qed.

Lemma last_finish_completed (cpu : list process) :
  cpu <> [] ->
  Forall (fun p => end_time p <> None) cpu ->
  exists t, last_finish cpu = Ok t.
Proof.
  intros Hne H. destruct cpu as [|p [|q rest]]; [contradiction|now eexists|].
  inversion H as [|? ? Hp Hrest]; subst.
  destruct (end_time p) as [e|] eqn:He; [|contradiction].
  destruct (integers_completed _ Hrest) as [es Hes].
  rewrite last_finish_map. cbn [map finish_of]. rewrite He.
  change (end_time q :: map end_time rest) with (map end_time (q :: rest)).
  rewrite Hes. cbn. now eexists.
Qed.

Lemma same_but_times_refl (l : list process) : Forall2 same_but_times l l.
Proof.
  induction l; constructor; [now repeat split|assumption].
Qed.

Lemma assign_times_frame (l : list process) :
  Forall2 same_but_times l (fst (assign_times l)).
Proof.
  induction l as [|p rest IH]; [constructor|].
  destruct (end_time p) as [e|] eqn:He.
  - rewrite (assign_times_cons _ _ _ He). cbn [fst].
    constructor; [now repeat split|exact IH].
  - rewrite (assign_times_stop _ _ He). apply same_but_times_refl.
Qed.

Lemma Forall2_and_right {A B : Type} (R : A -> B -> Prop) (P : B -> Prop)
  (l : list A) (l' : list B) :
  Forall2 R l l' -> Forall P l' ->
  Forall2 (fun a b => R a b /\ P b) l l'.
Proof.
  induction 1 as [|a b l l' Hab _ IH]; intro H; [constructor|].
  inversion H; subst. constructor; [now split|now apply IH].
Qed.

Section MetricsFacts.
Variable float : Type.
Variable true_div : Z -> Z -> option float.
Variable round2 : float -> float.
Variable times100 : float -> float.
Variable float_gt : float -> float -> bool.

(** C2.  On the empty list [calculate_metrics] raises: [max] of an empty
    sequence is a [ValueError].  No tuple is returned, and in particular
    none made of zeros. *)
Theorem calculate_metrics_empty_raises :
  calculate_metrics true_div round2 times100 float_gt [] =
    ([], Raise ValueError) /\
  forall m, snd (calculate_metrics true_div round2 times100 float_gt [])
            <> Ok m.
Proof.
  split; [reflexivity|]. intros m. cbn. discriminate.
Qed.

(** The list that a call leaves is the one that the loop leaves, or the
    argument when [max] has raised. *)
Lemma calculate_metrics_state (cpu : list process) :
  fst (calculate_metrics true_div round2 times100 float_gt cpu) =
  match last_finish cpu with
  | Ok _ => fst (assign_times cpu)
  | Raise _ => cpu
  end.
Proof.
  unfold calculate_metrics.
  destruct (last_finish cpu); [|reflexivity].
  now destruct (assign_times cpu) as [cpu' [[]|e]].
Qed.

(** When a call returns a tuple, the list was not empty and every record
    of the list it leaves is assigned. *)
Lemma calculate_metrics_returned (cpu cpu' : list process) (m : metrics float) :
  calculate_metrics true_div round2 times100 float_gt cpu = (cpu', Ok m) ->
  cpu <> [] /\ Forall conserved cpu'.
Proof.
  unfold calculate_metrics.
  destruct cpu as [|p rest]; [discriminate|].
  destruct (last_finish (p :: rest)); [|discriminate].
  pose proof (assign_times_done (p :: rest)) as H.
  destruct (assign_times (p :: rest)) as [cpu1 [[]|e]]; [|discriminate].
  intros [= <- _]. split; [discriminate|]. now apply H.
Qed.

(** C7.  After [calculate_metrics] has run on a non-empty list of completed
    processes (every [end_time] is set), the list holds the same records in
    the same order, each with its other attributes unchanged and with
    [turnaround_time = waiting_time + burst_time] and
    [turnaround_time = end_time - arrival_time], whether the divisions that
    follow the assignments succeed or not. *)
Theorem calculate_metrics_conservation (cpu : list process) :
  cpu <> [] ->
  Forall (fun p => end_time p <> None) cpu ->
  Forall2 (fun p p' => same_but_times p p' /\ conserved p') cpu
    (fst (calculate_metrics true_div round2 times100 float_gt cpu)).
Proof.
  intros Hne Hc. rewrite calculate_metrics_state.
  destruct (last_finish_completed _ Hne Hc) as [t ->].
  apply Forall2_and_right; [apply assign_times_frame|].
  apply assign_times_done. now apply assign_times_completed.
Qed.

(** A second call of [calculate_metrics] on the list that a first call has
    left gives what the first call gave, a tuple or an exception, and leaves
    the records as they were. *)
Lemma calculate_metrics_again (cpu cpu1 : list process)
  (r1 : result (metrics float)) :
  calculate_metrics true_div round2 times100 float_gt cpu = (cpu1, r1) ->
  calculate_metrics true_div round2 times100 float_gt cpu1 = (cpu1, r1).
Proof.
  unfold calculate_metrics.
  destruct (last_finish cpu) as [t|e] eqn:Hlast.
  - pose proof (assign_times_again cpu) as Hagain.
    pose proof (assign_times_end_time cpu) as Hend.
    destruct (assign_times cpu) as [cpu' r] eqn:Hassign.
    cbn [fst] in Hagain, Hend.
    assert (Hlast1 : last_finish cpu' = Ok t)
      by (rewrite <- Hlast; now apply last_finish_ext).
    destruct r as [[]|e]; intros [= <- <-]; now rewrite Hlast1, Hagain.
  - intros [= <- <-]. now rewrite Hlast.
Qed.
End MetricsFacts.

(** ** Loops with fuel *)

Section While.
Variable St : Type.
Variable cond : St -> bool.
Variable body : St -> St.

Lemma while_exit (n : nat) (s : St) :
  cond s = false -> while cond body n s = Some s.
Proof.
  intro H. destruct n; simpl; now rewrite H.
Qed.

Lemma while_turn (n : nat) (s : St) :
  cond s = true -> while cond body (S n) s = while cond body n (body s).
Proof.
  intro H. simpl. now rewrite H.
Qed.

(** More fuel does not change the result of a loop that has ended. *)
Lemma while_more_fuel (n m : nat) (s s' : St) :
  (n <= m)%nat -> while cond body n s = Some s' ->
  while cond body m s = Some s'.
Proof.
  revert m s. induction n as [|n IH]; intros m s Hle H.
  - simpl in H. destruct (cond s) eqn:Hc; [discriminate|].
    now rewrite while_exit.
  - destruct (cond s) eqn:Hc.
    + destruct m as [|m]; [lia|].
      rewrite while_turn in * by exact Hc. apply IH; [lia|exact H].
    + rewrite while_exit in * by exact Hc. exact H.
Qed.

Lemma while_deterministic (n m : nat) (s s1 s2 : St) :
  while cond body n s = Some s1 -> while cond body m s = Some s2 -> s1 = s2.
Proof.
  intros H1 H2.
  apply (while_more_fuel n (Nat.max n m)) in H1; [|lia].
  apply (while_more_fuel m (Nat.max n m)) in H2; [|lia].
  congruence.
Qed.

Variable Inv : St -> Prop.
Hypothesis Inv_body : forall s, Inv s -> cond s = true -> Inv (body s).

(** An invariant of the body holds when the loop ends, where the condition
    of the loop is false. *)
Lemma while_invariant (n : nat) (s s' : St) :
  Inv s -> while cond body n s = Some s' -> Inv s' /\ cond s' = false.
Proof.
  revert s. induction n as [|n IH]; intros s HI H.
  - simpl in H. destruct (cond s) eqn:Hc; [discriminate|].
    injection H as <-. now split.
  - destruct (cond s) eqn:Hc.
    + rewrite while_turn in H by exact Hc. apply (IH (body s)); auto.
    + rewrite while_exit in H by exact Hc. injection H as <-. now split.
Qed.

Variable measure : St -> nat.
Hypothesis measure_body :
  forall s, Inv s -> cond s = true -> (measure (body s) < measure s)%nat.

(** A loop whose body decreases a measure ends, within as many turns as
    the measure of its first state. *)
Lemma while_terminates (s : St) :
  Inv s -> exists s', while cond body (measure s) s = Some s'.
Proof.
  remember (measure s) as n eqn:Hn.
  assert (Hle : (measure s <= n)%nat) by lia. clear Hn.
  revert s Hle. induction n as [|n IH]; intros s Hle HI.
  - destruct (cond s) eqn:Hc.
    + pose proof (measure_body s HI Hc). lia.
    + exists s. now apply while_exit.
  - destruct (cond s) eqn:Hc.
    + rewrite while_turn by exact Hc. apply IH.
      * pose proof (measure_body s HI Hc). lia.
      * now apply Inv_body.
    + exists s. now apply while_exit.
Qed.
End While.
Arguments while_exit {St} cond body n s _.
Arguments while_turn {St} cond body n s _.
Arguments while_more_fuel {St} cond body n m s s' _ _.
Arguments while_deterministic {St} cond body n m s s1 s2 _ _.
Arguments while_invariant {St} cond body Inv _ n s s' _ _.
Arguments while_terminates {St} cond body Inv _ measure _ s _.

(** The logged loop runs the loop. *)
Lemma while_logged (iter : sim -> sim) (dispatch : sim -> list slice)
  (n : nat) :
  forall s log,
    option_map fst
      (while (fun sl => pending_or_ready (fst sl)) (logged iter dispatch)
         n (s, log)) =
    while pending_or_ready iter n s.
Proof.
  induction n as [|n IH]; intros s log; simpl.
  - now destruct (pending_or_ready s).
  - destruct (pending_or_ready s); [apply IH|reflexivity].
Qed.

(** ** The stable sort *)

Section StableSortFacts.
Variable A : Type.
Variable key : A -> Z.

Lemma insert_by_permutation (x : A) (l : list A) :
  Permutation (insert_by key x l) (x :: l).
Proof.
  induction l as [|y l IH]; simpl; [reflexivity|].
  destruct (key x <=? key y); [reflexivity|].
  rewrite IH. apply perm_swap.
Qed.

Lemma sort_by_permutation (l : list A) : Permutation (sort_by key l) l.
Proof.
  induction l as [|x l IH]; simpl; [reflexivity|].
  rewrite insert_by_permutation. now constructor.
Qed.

Lemma insert_by_sorted (x : A) (l : list A) :
  StronglySorted (key_le key) l ->
  StronglySorted (key_le key) (insert_by key x l).
Proof.
  induction 1 as [|y l Hs IH Hy]; simpl.
  - repeat constructor.
  - destruct (key x <=? key y) eqn:Hxy.
    + apply Z.leb_le in Hxy. constructor; [now constructor|].
      constructor; [exact Hxy|].
      eapply Forall_impl; [|exact Hy]. unfold key_le. intros; lia.
    + apply Z.leb_gt in Hxy. constructor; [exact IH|].
      rewrite insert_by_permutation. constructor; [|exact Hy].
      unfold key_le. lia.
Qed.

Lemma sort_by_sorted (l : list A) : StronglySorted (key_le key) (sort_by key l).
Proof.
  induction l as [|x l IH]; simpl; [constructor|].
  now apply insert_by_sorted.
Qed.

Lemma sort_by_nil (l : list A) : sort_by key l = [] -> l = [].
Proof.
  intro H. apply Permutation_nil. rewrite <- H.
  apply sort_by_permutation.
Qed.
End StableSortFacts.
Arguments insert_by_permutation {A} key x l.
Arguments sort_by_permutation {A} key l.
Arguments sort_by_sorted {A} key l.
Arguments sort_by_nil {A} key l _.

(** ** The order of the returned list *)

Lemma start_key_sorted (l : list process) :
  StronglySorted (key_le start_key) l ->
  Forall (fun x => has_start_time x = true) l ->
  StronglySorted start_le l.
Proof.
  induction 1 as [|x l Hl IH Hx]; intro Hs; [constructor|].
  inversion Hs as [|? ? Hx1 Hl1]; subst.
  constructor; [now apply IH|].
  rewrite Forall_forall in *. intros y Hy.
  specialize (Hx y Hy). specialize (Hl1 y Hy).
  unfold start_le, key_le, start_key, has_start_time in *.
  destruct (start_time x), (start_time y); try discriminate. exact Hx.
Qed.

Lemma sorted_by_start_time_sorted (c l : list process) :
  sorted_by_start_time c = Ok l -> StronglySorted start_le l.
Proof.
  destruct c as [|p [|q c]].
  - intros [= <-]. constructor.
  - intros [= <-]. repeat constructor.
  - unfold sorted_by_start_time.
    destruct (forallb has_start_time (p :: q :: c)) eqn:Hall; [|discriminate].
    intros [= <-].
    assert (Hs : Forall (fun x => has_start_time x = true)
                   (sort_by start_key (p :: q :: c))).
    { rewrite sort_by_permutation. apply Forall_forall.
      now apply forallb_forall. }
    apply start_key_sorted;
      [exact (sort_by_sorted start_key (p :: q :: c))|exact Hs].
Qed.

(** C8.  The list that [rr] returns and the list that [edf] returns are in
    ascending order of [start_time]: every process of the list has a start
    time not later than those of the processes behind it. *)
Theorem returned_list_sorted_by_start_time
  (fuel : nat) (ps : list process) (quantum : Z)
  (rest l : list process) :
  rr fuel ps quantum = Some (rest, Ok l) \/ edf fuel ps = Some (rest, Ok l) ->
  StronglySorted start_le l.
Proof.
  unfold rr, edf, finish.
  intros [H|H];
    match type of H with
    | option_map _ ?w = _ => destruct w as [s|]; [|discriminate]
    end;
    cbn in H; injection H as _ H;
    now apply (sorted_by_start_time_sorted (cpu s)).
Qed.

Lemma returned_list_sorted_by_start_time_witness :
  StronglySorted start_le [ran P1 0 6 S_; ran P2 2 4 S_].
Proof.
  apply (returned_list_sorted_by_start_time 3 [P1; P2] 2 []).
  left. reflexivity.
Defined.

(** ** The second scenario *)

(** C4.  P1 (arrival 0, burst 4, deadline 10) and P2 (arrival 1, burst 2,
    deadline 3), quantum 2.  [edf] gives the processor to P1 at 0, to P2 at 1
    and again at 2, where P2 completes at 3, then to P1 from 3 until it
    completes at 6.  [rr] runs P1 from 0 to 2, P2 from 2 to 4 and P1 from 4 to
    6.  The returned records carry these start and end times. *)
Theorem scenario_two_processes :
  edf_trace 6 [P1; P2] =
    Some [("P1", 0, 1); ("P2", 1, 2); ("P2", 2, 3);
          ("P1", 3, 4); ("P1", 4, 5); ("P1", 5, 6)]%string /\
  edf 6 [P1; P2] = Some ([], Ok [ran P1 0 6 S_; ran P2 1 3 S_]) /\
  rr_trace 3 [P1; P2] 2 =
    Some [("P1", 0, 2); ("P2", 2, 4); ("P1", 4, 6)]%string /\
  rr 3 [P1; P2] 2 = Some ([], Ok [ran P1 0 6 S_; ran P2 2 4 S_]).
Proof.
  repeat split; vm_compute; reflexivity.
Qed.

(** ** One turn of a loop *)

Lemma set_remaining_time_same (p : process) :
  set_remaining_time (remaining_time p) p = p.
Proof.
  now destruct p.
Qed.

Lemma set_remaining_time_twice (a b : Z) (p : process) :
  set_remaining_time a (set_remaining_time b p) = set_remaining_time a p.
Proof.
  reflexivity.
Qed.

Lemma first_dispatch_remaining_time (now : Z) (p : process) :
  remaining_time (first_dispatch now p) = remaining_time p.
Proof.
  unfold first_dispatch. now destruct (response_time p).
Qed.

Lemma update_ready_queue_admitted (s : sim) :
  exists adm,
    admitted adm s (update_ready_queue s) /\
    current_time (update_ready_queue s) = current_time s /\
    (adm = [] ->
     processes (update_ready_queue s) = processes s /\
     Forall (fun p => current_time s < arrival_time p) (processes s)).
Proof.
  rewrite update_ready_queue_scan.
  exists (snd (scan (current_time s) (processes s))).
  unfold admitted. cbn [processes ready_queue cpu current_time].
  repeat split.
  - apply scan_permutation.
  - apply scan_admitted_arrived.
  - now apply scan_nothing.
  - now apply scan_nothing.
Qed.

Lemma admitted_trans (a b : list process) (s1 s2 s3 : sim) :
  admitted a s1 s2 -> admitted b s2 s3 ->
  current_time s2 <= current_time s3 ->
  admitted (a ++ b) s1 s3.
Proof.
  intros (P1 & R1 & C1 & F1) (P2 & R2 & C2 & F2) Ht. repeat split.
  - rewrite P1, P2. now rewrite app_assoc.
  - now rewrite R2, R1, app_assoc.
  - congruence.
  - apply Forall_app. split; [|exact F2].
    eapply Forall_impl; [|exact F1]. cbn. intros; lia.
Qed.

Lemma admitted_refl (s : sim) : admitted [] s s.
Proof.
  repeat split; [reflexivity|now rewrite app_nil_r|constructor].
Qed.

(** Running [n] units admits some processes, moves the clock by [n] and takes
    [n] off the remaining time of the running process. *)
Lemma run_units (n : nat) (s : sim) (p : process) :
  exists adm s',
    Nat.iter n tick (s, p) =
      (s', set_remaining_time (remaining_time p - Z.of_nat n) p) /\
    admitted adm s s' /\
    current_time s' = current_time s + Z.of_nat n.
Proof.
  induction n as [|n (adm & s1 & E & Hadm & Ht)].
  - exists [], s. cbn [Nat.iter Z.of_nat].
    rewrite Z.sub_0_r, set_remaining_time_same, Z.add_0_r.
    split; [reflexivity|]. split; [apply admitted_refl|reflexivity].
  - change (Nat.iter (S n) tick (s, p)) with (tick (Nat.iter n tick (s, p))).
    rewrite E. cbn [tick].
    destruct (update_ready_queue_admitted
                (set_current_time (current_time s1 + 1) s1))
      as (adm2 & Hadm2 & Ht2 & _).
    exists (adm ++ adm2), (update_ready_queue
                             (set_current_time (current_time s1 + 1) s1)).
    split; [|split].
    + assert (X : remaining_time
                    (set_remaining_time (remaining_time p - Z.of_nat n) p) - 1
                  = remaining_time p - Z.of_nat (S n))
        by (cbn [set_remaining_time remaining_time]; lia).
      now rewrite X, set_remaining_time_twice.
    + eapply admitted_trans; [exact Hadm| |].
      * destruct Hadm2 as (Q1 & Q2 & Q3 & Q4). repeat split; assumption.
      * rewrite Ht2. cbn. lia.
    + rewrite Ht2. cbn [set_current_time current_time]. lia.
Qed.

Section PolicyFacts.
Variable select : list process -> list process.
Variable units : process -> Z.
Variable flag : Z -> Z -> status_flag.
Hypothesis select_permutation : forall l, Permutation (select l) l.

(** One turn of the loop body is a [turn]. *)
Lemma sched_iter_turn (s : sim) :
turn units flag s (sched_iter select units flag s)
  (sched_dispatch select units flag s).
Proof.
  unfold sched_dispatch.
  remember (sched_iter select units flag s) as s' eqn:Es'.
  unfold sched_iter in Es'.
  destruct (update_ready_queue_admitted s)
    as (adm1 & (P1 & R1 & C1 & F1) & T1 & Hnil).
  remember (update_ready_queue s) as s1 eqn:Es1.
  pose proof (select_permutation (ready_queue s1)) as Hsel.
  destruct (select (ready_queue s1)) as [|p queue].
  - apply Permutation_nil in Hsel. rewrite R1 in Hsel.
    apply app_eq_nil in Hsel. destruct Hsel as [Hr Ha].
    destruct (Hnil Ha) as [Hp Hlate]. subst s'.
    apply turn_idle; cbn; try congruence.
    rewrite R1, Hr, Ha. reflexivity.
  - set (p1 := first_dispatch (current_time s1) p) in *.
    destruct (run_units (Z.to_nat (units p1)) (set_ready_queue queue s1) p1)
      as (adm2 & s2 & E & (P2 & R2 & C2 & F2) & T2).
    unfold run_for in Es'. rewrite E in Es'.
    cbn [set_ready_queue processes ready_queue cpu current_time]
      in P2, R2, C2, T2.
    assert (Hp : In p (ready_queue s) \/ arrival_time p <= current_time s).
    { assert (Hin : In p (ready_queue s ++ adm1)).
      { rewrite <- R1. eapply Permutation_in; [exact Hsel|now left]. }
      apply in_app_or in Hin. destruct Hin as [Hin|Hin]; [now left|right].
      rewrite Forall_forall in F1. rewrite <- T1. now apply F1. }
    assert (Hp1 : remaining_time p1 = remaining_time p)
      by apply first_dispatch_remaining_time.
    rewrite Hp1 in E, Es'.
    destruct (remaining_time
                (set_remaining_time
                   (remaining_time p - Z.of_nat (Z.to_nat (units p1))) p1)
              =? 0) eqn:Hz.
    + subst s'.
      apply turn_run with (others := queue ++ adm2) (adm := adm1 ++ adm2)
                          (n := Z.to_nat (units p1)).
      * cbn. rewrite P1, P2. now rewrite app_assoc.
      * cbn. apply Forall_app. split; [|exact F2].
        eapply Forall_impl; [|exact F1]. cbn. intros; lia.
      * rewrite app_assoc, <- R1, <- Hsel. reflexivity.
      * exact Hp.
      * subst p1. now rewrite T1.
      * cbn. lia.
      * left. cbn. rewrite <- T1. fold p1. apply Z.eqb_eq in Hz.
        repeat split; [exact Hz|congruence|now rewrite R2].
    + destruct (update_ready_queue_admitted s2)
        as (adm3 & (P3 & R3 & C3 & F3) & T3 & _).
      unfold requeue in Es'. subst s'.
      apply turn_run with (others := queue ++ adm2 ++ adm3)
                          (adm := adm1 ++ adm2 ++ adm3)
                          (n := Z.to_nat (units p1)).
      * cbn. rewrite P1, P2, P3. now rewrite !app_assoc.
      * cbn. rewrite T3. apply Forall_app. split.
        -- eapply Forall_impl; [|exact F1]. cbn. intros; lia.
        -- apply Forall_app. split; [exact F2|].
           eapply Forall_impl; [|exact F3]. cbn. intros; lia.
      * rewrite app_assoc, <- R1, <- Hsel. reflexivity.
      * exact Hp.
      * subst p1. now rewrite T1.
      * cbn. lia.
      * right. cbn. rewrite <- T1. fold p1. apply Z.eqb_neq in Hz.
        repeat split; [exact Hz|congruence|].
        rewrite R3, R2, <- !app_assoc. rewrite (app_assoc adm2).
        rewrite (app_assoc queue).
        symmetry. apply Permutation_cons_append.
Qed.
End PolicyFacts.

(** ** The two bodies are instances of the common one *)

Lemma rr_iter_sched (quantum : Z) (s : sim) :
  rr_iter quantum s =
  sched_iter (fun l => l) (rr_units quantum) (fun _ _ => S_) s.
Proof.
  reflexivity.
Qed.

Lemma rr_dispatch_sched (quantum : Z) (s : sim) :
  rr_dispatch quantum s =
  sched_dispatch (fun l => l) (rr_units quantum) (fun _ _ => S_) s.
Proof.
  reflexivity.
Qed.

Lemma check_status_set_end_time (now : Z) (p : process) :
  check_status (set_end_time now p) = Ok (complete edf_flag now p).
Proof.
  unfold check_status, complete, edf_flag. cbn.
  now destruct (now <=? deadline p).
Qed.

Lemma edf_iter_sched (s : sim) :
  edf_iter s = sched_iter (sort_by deadline) (fun _ => 1) edf_flag s.
Proof.
  unfold edf_iter, sched_iter.
  destruct (ready_queue (update_ready_queue s)) as [|q rest] eqn:Hq;
    [reflexivity|].
  destruct (sort_by deadline (q :: rest)) as [|p queue] eqn:Hsort.
  - apply sort_by_nil in Hsort. discriminate.
  - unfold run_for. change (Nat.iter (Z.to_nat 1) tick) with tick.
    destruct (tick _) as [s2 p2].
    destruct (remaining_time p2 =? 0); [|reflexivity].
    now rewrite check_status_set_end_time.
Qed.

Lemma edf_dispatch_sched (s : sim) :
  edf_dispatch s = sched_dispatch (sort_by deadline) (fun _ => 1) edf_flag s.
Proof.
  unfold edf_dispatch, sched_dispatch. now rewrite edf_iter_sched.
Qed.

(** ** The invariant *)

Lemma Forall_perm {A : Type} (P : A -> Prop) (l l' : list A) :
  Permutation l l' -> Forall P l -> Forall P l'.
Proof.
  intros H. now apply Permutation_Forall.
Qed.

Lemma descriptor_first_dispatch (now : Z) (p : process) :
  descriptor (first_dispatch now p) = descriptor p.
Proof.
  unfold first_dispatch. now destruct (response_time p).
Qed.

Section Invariant.
Variable units : process -> Z.
Variable flag : Z -> Z -> status_flag.

(** A turn changes one object at most, and not its descriptor. *)
Lemma turn_live (s s' : sim) (log : list slice) :
  turn units flag s s' log ->
  (log = [] /\ live s' = live s) \/
  exists p p' others,
    log = [(name p, current_time s, current_time s')] /\
    Permutation (live s) (p :: others ++ processes s' ++ cpu s) /\
    Permutation (live s') (p' :: others ++ processes s' ++ cpu s) /\
    descriptor p' = descriptor p.
Proof.
  intros [Hr Hp Hr' Hc Ht Hlate | p others adm n HP HA HR Hp Hn Ht Hcase].
  - left. split; [reflexivity|]. unfold live. congruence.
  - right.
    assert (Hlive : Permutation (live s)
                      (p :: others ++ processes s' ++ cpu s)).
    { unfold live. rewrite HP.
      rewrite (Permutation_app_comm adm (processes s')), <- app_assoc.
      rewrite (app_assoc adm), (Permutation_app_comm adm (ready_queue s)).
      rewrite HR. cbn [app].
      transitivity (p :: processes s' ++ others ++ cpu s).
      - symmetry. apply Permutation_middle.
      - constructor. apply Permutation_app_swap_app. }
    cbv zeta in Hcase.
    destruct Hcase as [(Hz & Hc & Hq) | (Hz & Hc & Hq)].
    + eexists p, _, others. split; [reflexivity|].
      split; [exact Hlive|]. split.
      * unfold live. rewrite Hc, Hq.
        etransitivity; [|symmetry; apply Permutation_cons_append].
        rewrite Permutation_app_swap_app, <- !app_assoc. reflexivity.
      * unfold complete, descriptor. cbn.
        pose proof (descriptor_first_dispatch (current_time s) p) as E.
        unfold descriptor in E. exact E.
    + eexists p, _, others. split; [reflexivity|].
      split; [exact Hlive|]. split.
      * unfold live. rewrite Hc, Hq. cbn [app].
        etransitivity; [symmetry; apply Permutation_middle|].
        constructor. apply Permutation_app_swap_app.
      * unfold descriptor. cbn.
        pose proof (descriptor_first_dispatch (current_time s) p) as E.
        unfold descriptor in E. exact E.
Qed.

(** The descriptors of the objects of the run are those of the input. *)
Lemma turn_descriptors (s s' : sim) (log : list slice) :
  turn units flag s s' log ->
  Permutation (map descriptor (live s')) (map descriptor (live s)).
Proof.
  intro H. destruct (turn_live _ _ _ H)
    as [[_ ->] | (p & p' & others & _ & H1 & H2 & Hd)]; [reflexivity|].
  rewrite H1, H2. cbn [map]. now rewrite Hd.
Qed.

Hypothesis units_bounds :
  forall p, 0 < remaining_time p -> 1 <= units p <= remaining_time p.

Lemma ready_ok_later (now later : Z) (p : process) :
  now <= later -> ready_ok now p -> ready_ok later p.
Proof.
  intros Hle (Ha & Hr & [Hu | (st & H1 & H2 & H3 & H4)]).
  - repeat split; try lia. now left.
  - repeat split; try lia. right. exists st. repeat split; auto; lia.
Qed.

Lemma pending_ok_ready (now : Z) (p : process) :
  pending_ok p -> arrival_time p <= now -> ready_ok now p.
Proof.
  intros [[Hresp Hrem] Hb] Ha. repeat split; try lia.
  left. now split.
Qed.

(** The process that has run [k] units from [now] on. *)
Lemma ready_ok_run (now k : Z) (p : process) :
  ready_ok now p -> 0 <= k <= remaining_time p ->
  let p2 := set_remaining_time (remaining_time p - k)
              (first_dispatch now p) in
  started (now + k) p2 /\ arrival_time p2 <= now /\
  0 < burst_time p2 /\ remaining_time p2 <= burst_time p2.
Proof.
  intros (Ha & Hr & [[Hresp Hrem] | (st & H1 & H2 & H3 & H4)]) Hk;
    unfold first_dispatch.
  - rewrite Hresp. cbn. repeat split; try lia.
    exists now. cbn. repeat split; lia.
  - rewrite H2. cbn. repeat split; try lia.
    exists st. cbn. repeat split; auto; lia.
Qed.

Lemma started_complete (now : Z) (p : process) :
  started now p -> remaining_time p = 0 -> 0 < burst_time p ->
  done_ok flag (complete flag now p).
Proof.
  intros (st & H1 & H2 & H3 & H4) Hz Hb. unfold done_ok, complete. cbn.
  repeat split; try assumption.
  exists st, now. repeat split; auto; lia.
Qed.

Lemma started_requeue (now : Z) (p : process) :
  started now p -> remaining_time p <> 0 -> 0 <= remaining_time p ->
  remaining_time p <= burst_time p -> arrival_time p <= now ->
  ready_ok now p.
Proof.
  intros Hs Hz Hr Hb Ha. repeat split; try lia. now right.
Qed.

(** A turn keeps the invariant. *)
Lemma turn_inv (ps : list process) (s s' : sim) (log : list slice) :
  turn units flag s s' log -> inv flag ps s -> inv flag ps s'.
Proof.
  intros Hturn (Hperm & Hpend & Hready & Hdone).
  assert (Hdesc : Permutation (map descriptor (live s')) (map descriptor ps))
    by (rewrite (turn_descriptors _ _ _ Hturn); exact Hperm).
  destruct Hturn
    as [Hr Hp Hr' Hc Ht Hlate | p others adm n HP HA HR Hp Hn Ht Hcase].
  - split; [exact Hdesc|]. rewrite Hp, Hr', Hc. repeat split; auto.
  - assert (Hlater : current_time s <= current_time s') by lia.
    pose proof (Forall_perm _ _ _ HP Hpend) as Hpend'.
    apply Forall_app in Hpend'. destruct Hpend' as [Hadm Hpend'].
    assert (Hall : Forall (ready_ok (current_time s'))
                     (ready_queue s ++ adm)).
    { apply Forall_app. split.
      - eapply Forall_impl; [|exact Hready].
        intros q. now apply ready_ok_later.
      - rewrite Forall_forall in *. intros q Hq.
        apply pending_ok_ready; auto. }
    assert (Hp_ok : ready_ok (current_time s) p).
    { rewrite Forall_forall in Hready, Hadm.
      destruct Hp as [Hin | Harr]; [now apply Hready|].
      assert (Hin : In p (ready_queue s ++ adm))
        by (eapply Permutation_in; [symmetry; exact HR|now left]).
      apply in_app_or in Hin. destruct Hin as [Hin | Hin];
        [now apply Hready|].
      apply pending_ok_ready; auto. }
    pose proof (Forall_perm _ _ _ HR Hall) as Hall'.
    inversion Hall' as [|? ? _ Hothers]; subst.
    assert (Hk : 1 <= units (first_dispatch (current_time s) p)
                 <= remaining_time p).
    { rewrite <- (first_dispatch_remaining_time (current_time s) p).
      apply units_bounds. rewrite first_dispatch_remaining_time.
      destruct Hp_ok as (_ & Hr & _). lia. }
    assert (Hn : Z.of_nat
                   (Z.to_nat (units (first_dispatch (current_time s) p)))
                 = units (first_dispatch (current_time s) p))
      by (apply Z2Nat.id; lia).
    rewrite Hn in Ht, Hcase.
    destruct (ready_ok_run (current_time s)
                (units (first_dispatch (current_time s) p)) p Hp_ok)
      as (Hs2 & Ha2 & Hb2 & Hr2); [lia|].
    rewrite <- Ht in Hs2. cbv zeta in Hcase.
    destruct Hcase as [(Hz & Hc & Hq) | (Hz & Hc & Hq)].
    + split; [exact Hdesc|]. split; [exact Hpend'|]. split.
      * eapply Forall_perm; [symmetry; exact Hq|exact Hothers].
      * rewrite Hc. apply Forall_app. split; [exact Hdone|].
        constructor; [|constructor]. now apply started_complete.
    + split; [exact Hdesc|]. split; [exact Hpend'|]. split.
      * eapply Forall_perm; [symmetry; exact Hq|].
        constructor; [|exact Hothers].
        apply started_requeue; auto; try lia.
        cbn [set_remaining_time remaining_time]. lia.
      * now rewrite Hc.
Qed.
End Invariant.

(** ** The measure *)

Lemma total_remaining_app (l l' : list process) :
  total_remaining (l ++ l') = total_remaining l + total_remaining l'.
Proof.
  induction l as [|p l IH]; cbn; [reflexivity|].
  fold (total_remaining (l ++ l')). fold (total_remaining l). lia.
Qed.

Lemma total_remaining_permutation (l l' : list process) :
  Permutation l l' -> total_remaining l = total_remaining l'.
Proof.
  induction 1; cbn; try fold (total_remaining l);
    try fold (total_remaining l'); lia.
Qed.

Lemma total_remaining_nonneg (l : list process) :
  Forall (fun p => 0 < remaining_time p) l -> 0 <= total_remaining l.
Proof.
  induction 1; cbn; [lia|]. fold (total_remaining l). lia.
Qed.

Lemma gap_nonneg (now : Z) (l : list process) : 0 <= gap now l.
Proof.
  induction l as [|p l IH]; cbn; [lia|]. fold (gap now l). lia.
Qed.

Lemma gap_bound (now : Z) (l : list process) (p : process) :
  In p l -> arrival_time p - now <= gap now l.
Proof.
  induction l as [|q l IH]; cbn; [contradiction|]. fold (gap now l).
  intros [-> | H]; [lia|]. specialize (IH H). lia.
Qed.

Lemma gap_least (now g : Z) (l : list process) :
  0 <= g -> Forall (fun p => arrival_time p - now <= g) l -> gap now l <= g.
Proof.
  intro Hg. induction 1; cbn; [lia|]. fold (gap now l). lia.
Qed.

(** The gap shrinks when time passes and when processes are admitted. *)
Lemma gap_shrinks (now later : Z) (l l' : list process) :
  now <= later -> incl l' l -> gap later l' <= gap now l.
Proof.
  intros Ht Hincl. apply gap_least; [apply gap_nonneg|].
  apply Forall_forall. intros p Hp.
  pose proof (gap_bound now l p (Hincl p Hp)). lia.
Qed.

(** While all the pending processes are still to arrive, a unit of time
    takes one off the gap. *)
Lemma gap_idle (now : Z) (l : list process) :
  l <> [] -> Forall (fun p => now < arrival_time p) l ->
  gap (now + 1) l <= gap now l - 1.
Proof.
  intros Hne Hlate. destruct l as [|q l]; [contradiction|].
  apply gap_least.
  - pose proof (gap_bound now (q :: l) q (or_introl eq_refl)).
    inversion Hlate; subst. lia.
  - apply Forall_forall. intros p Hp.
    pose proof (gap_bound now (q :: l) p Hp). lia.
Qed.

Lemma pending_ok_remaining (l : list process) :
  Forall pending_ok l -> Forall (fun p => 0 < remaining_time p) l.
Proof.
  apply Forall_impl. intros p [[_ Hr] Hb]. lia.
Qed.

Lemma ready_ok_remaining (now : Z) (l : list process) :
  Forall (ready_ok now) l -> Forall (fun p => 0 < remaining_time p) l.
Proof.
  apply Forall_impl. intros p (_ & Hr & _). lia.
Qed.

Section Measure.
Variable units : process -> Z.
Variable flag : Z -> Z -> status_flag.
Hypothesis units_bounds :
  forall p, 0 < remaining_time p -> 1 <= units p <= remaining_time p.

(** A turn of the loop takes at least one off the measure. *)
Lemma turn_work_left (ps : list process) (s s' : sim) (log : list slice) :
  turn units flag s s' log -> inv flag ps s ->
  pending_or_ready s = true ->
  (work_left s' < work_left s)%nat.
Proof.
  intros Hturn Hinv Hlive.
  pose proof (turn_inv _ _ units_bounds _ _ _ _ Hturn Hinv) as Hinv'.
  destruct Hinv as (_ & Hpend & Hready & _).
  destruct Hinv' as (_ & Hpend' & Hready' & _).
  apply pending_ok_remaining in Hpend, Hpend'.
  apply ready_ok_remaining in Hready, Hready'.
  pose proof (gap_nonneg (current_time s') (processes s')) as Hg'.
  assert (Hgoal :
    total_remaining (processes s' ++ ready_queue s')
      + gap (current_time s') (processes s')
    < total_remaining (processes s ++ ready_queue s)
      + gap (current_time s) (processes s) /\
    0 <= total_remaining (processes s' ++ ready_queue s')).
  { split; [|apply total_remaining_nonneg, Forall_app; now split].
    destruct Hturn
      as [Hr Hp Hr' Hc Ht Hlate | p others adm n HP HA HR Hp Hn Ht Hcase].
    - rewrite Hp, Hr', Hr, Ht.
      assert (Hne : processes s <> []).
      { unfold pending_or_ready in Hlive. rewrite Hr in Hlive.
        destruct (processes s); [discriminate|discriminate]. }
      pose proof (gap_idle _ _ Hne Hlate). lia.
    - assert (Hgap : gap (current_time s') (processes s')
                     <= gap (current_time s) (processes s)).
      { apply gap_shrinks; [lia|]. intros q Hq.
        eapply Permutation_in; [symmetry; exact HP|].
        apply in_or_app. now right. }
      assert (Hbefore : total_remaining (processes s ++ ready_queue s)
                = total_remaining (processes s') + remaining_time p
                  + total_remaining others).
      { rewrite (total_remaining_permutation
                   (processes s ++ ready_queue s)
                   (processes s' ++ p :: others)).
        - rewrite total_remaining_app. cbn. fold (total_remaining others).
          lia.
        - rewrite HP, <- HR.
          rewrite (Permutation_app_comm adm (processes s')), <- app_assoc.
          apply Permutation_app_head. apply Permutation_app_comm. }
      assert (Hp_pos : 0 < remaining_time p).
      { assert (Hin : In p (ready_queue s ++ adm))
          by (eapply Permutation_in; [symmetry; exact HR|now left]).
        assert (Hadm : Forall (fun q => 0 < remaining_time q) adm).
        { eapply Forall_perm in Hpend; [|exact HP].
          now apply Forall_app in Hpend. }
        rewrite Forall_forall in Hready, Hadm.
        apply in_app_or in Hin. destruct Hin; auto. }
      assert (Hk : 1 <= Z.of_nat n).
      { pose proof (units_bounds (first_dispatch (current_time s) p)) as Hu.
        rewrite first_dispatch_remaining_time in Hu. specialize (Hu Hp_pos).
        lia. }
      cbv zeta in Hcase. rewrite total_remaining_app, Hbefore.
      destruct Hcase as [(Hz & Hc & Hq) | (Hz & Hc & Hq)];
        rewrite (total_remaining_permutation _ _ Hq);
        cbn [set_remaining_time remaining_time] in Hz |- *.
      + lia.
      + cbn. fold (total_remaining others). lia. }
  unfold work_left. lia.
Qed.
End Measure.

(** ** Schedules *)

Lemma runs_app (n : string) (log log' : list slice) :
  runs n (log ++ log') = runs n log ++ runs n log'.
Proof.
  induction log as [|[[m a] b] log IH]; cbn; [reflexivity|].
  destruct (String.eqb m n); cbn; now rewrite IH.
Qed.

Lemma busy_app (l l' : list (Z * Z)) : busy (l ++ l') = busy l + busy l'.
Proof.
  induction l as [|[a b] l IH]; cbn; [reflexivity|].
  fold (busy (l ++ l')). fold (busy l). lia.
Qed.

Lemma last_to_snoc (b a' b' : Z) (l : list (Z * Z)) :
  last_to b (l ++ [(a', b')]) = b'.
Proof.
  revert b. induction l as [|[a1 b1] l IH]; intro b; cbn; [reflexivity|].
  apply IH.
Qed.

(** Abutting intervals cover the time from the first beginning to the last
    end. *)
Lemma abutting_span (l : list (Z * Z)) (a b : Z) :
  abutting l -> span l = Some (a, b) -> b - a = busy l.
Proof.
  destruct l as [|[a1 b1] l]; [discriminate|].
  cbn [span]. intros Hab [= <- <-]. revert a1 b1 Hab.
  induction l as [|[a2 b2] l IH]; intros a1 b1 Hab.
  - cbn. lia.
  - destruct Hab as [-> Hab]. specialize (IH a2 b2 Hab).
    cbn [last_to]. cbn [busy fold_right fst snd] in *.
    fold (busy l) in *. lia.
Qed.

Lemma runs_other (log : list slice) (n m : string) (a b : Z) :
  m <> n -> runs n (log ++ [(m, a, b)]) = runs n log.
Proof.
  intro H. rewrite runs_app. cbn.
  apply String.eqb_neq in H. rewrite H. apply app_nil_r.
Qed.

Lemma runs_same (log : list slice) (n : string) (a b : Z) :
  runs n (log ++ [(n, a, b)]) = runs n log ++ [(a, b)].
Proof.
  rewrite runs_app. cbn. now rewrite String.eqb_refl.
Qed.

Lemma map_name_descriptor (l : list process) :
  map name l = map (fun d => fst (fst (fst d))) (map descriptor l).
Proof.
  rewrite map_map. reflexivity.
Qed.

(** What a turn leaves untouched, in one list. *)
Lemma turn_run_live (P R C P' adm others : list process) (p : process) :
  Permutation P (adm ++ P') ->
  Permutation (R ++ adm) (p :: others) ->
  Permutation (P ++ R ++ C) (p :: others ++ P' ++ C).
Proof.
  intros HP HR. rewrite HP.
  rewrite (Permutation_app_comm adm P'), <- app_assoc.
  rewrite (app_assoc adm), (Permutation_app_comm adm R).
  rewrite HR. cbn [app].
  transitivity (p :: P' ++ others ++ C).
  - symmetry. apply Permutation_middle.
  - constructor. apply Permutation_app_swap_app.
Qed.

Lemma pending_log_other (log : list slice) (q : process) (m : string)
  (a b : Z) :
  m <> name q -> pending_log log q -> pending_log (log ++ [(m, a, b)]) q.
Proof.
  intros Hm [Hu Hr]. split; [exact Hu|]. now rewrite runs_other.
Qed.

Lemma ready_log_other (log : list slice) (q : process) (m : string)
  (a b : Z) :
  m <> name q -> ready_log log q -> ready_log (log ++ [(m, a, b)]) q.
Proof.
  intros Hm H. unfold ready_log. now rewrite runs_other.
Qed.

Lemma done_log_other (log : list slice) (q : process) (m : string)
  (a b : Z) :
  m <> name q -> done_log log q -> done_log (log ++ [(m, a, b)]) q.
Proof.
  intros Hm H. unfold done_log. now rewrite runs_other.
Qed.

Lemma pending_log_ready (log : list slice) (p : process) :
  pending_log log p -> ready_log log p.
Proof.
  intros [[Hresp Hrem] Hr]. unfold ready_log. rewrite Hr. cbn.
  split; [lia|exact Hresp].
Qed.

(** The record of the process that has run [n] units from [now] on agrees
    with the schedule that has its new slice. *)
Lemma ready_log_run (log : list slice) (p : process) (now : Z) (n : nat) :
  ready_log log p ->
  ready_log (log ++ [(name p, now, now + Z.of_nat n)])
    (set_remaining_time (remaining_time p - Z.of_nat n)
       (first_dispatch now p)).
Proof.
  intros [Hbusy Hstart]. unfold ready_log, first_dispatch.
  destruct (runs (name p) log) as [|[a b] r] eqn:Hr.
  - rewrite Hstart. cbn [name set_remaining_time set_start_time
                           set_response_time].
    rewrite runs_same, Hr. cbn in *. split; [lia|]. split; [reflexivity|].
    discriminate.
  - destruct Hstart as [Hst Hresp].
    destruct (response_time p) as [rt|] eqn:Hrt; [|contradiction].
    cbn [name set_remaining_time]. rewrite runs_same, Hr.
    cbn [app]. split.
    + change ((a, b) :: r ++ [(now, now + Z.of_nat n)])
        with (((a, b) :: r) ++ [(now, now + Z.of_nat n)]).
      rewrite busy_app, Hbusy. cbn. lia.
    + cbn. split; [exact Hst|]. rewrite Hrt. discriminate.
Qed.

(** The record of the process that completes at the end of its last slice
    agrees with the schedule. *)
Lemma ready_log_done (flag : Z -> Z -> status_flag) (log : list slice)
  (p : process) (a b : Z) :
  ready_log (log ++ [(name p, a, b)]) p -> remaining_time p = 0 ->
  done_log (log ++ [(name p, a, b)]) (complete flag b p).
Proof.
  intros [Hbusy Hstart] Hz. unfold done_log, complete.
  cbn [name set_status set_end_time burst_time start_time end_time].
  split; [lia|]. rewrite runs_same in *.
  destruct (runs (name p) log) as [|[a1 b1] r]; cbn [app] in *.
  - exists a, b. repeat split. tauto.
  - exists a1, b. cbn [span]. rewrite last_to_snoc. repeat split. tauto.
Qed.

Section LogInvariant.
Variable units : process -> Z.
Variable flag : Z -> Z -> status_flag.

(** A turn keeps the agreement of the records with the schedule. *)
Lemma turn_inv_log (s s' : sim) (log log1 : list slice) :
  turn units flag s s' log1 ->
  inv_log (s, log) -> inv_log (s', log ++ log1).
Proof.
  intros Hturn (Hnd & Hpend & Hready & Hdone). cbn [fst snd] in *.
  assert (Hnd' : NoDup (map name (live s'))).
  { eapply Permutation_NoDup; [|exact Hnd].
    rewrite !map_name_descriptor. apply Permutation_map. symmetry.
    eapply turn_descriptors. exact Hturn. }
  destruct Hturn
    as [Hr Hp Hr' Hc Ht Hlate | p others adm n HP HA HR Hp Hn Ht Hcase].
  - rewrite app_nil_r. unfold inv_log. cbn [fst snd].
    rewrite Hp, Hr', Hc. repeat split; auto.
  - clear Hn.
    pose proof (turn_run_live _ _ (cpu s) _ _ _ _ HP HR) as Hlive.
    fold (live s) in Hlive.
    assert (Hnd1 : NoDup (map name (p :: others ++ processes s' ++ cpu s)))
      by (eapply Permutation_NoDup; [apply Permutation_map; exact Hlive|
          exact Hnd]).
    cbn [map] in Hnd1. inversion Hnd1 as [|? ? Hnotin _]; subst.
    assert (Hother : forall q, In q (others ++ processes s' ++ cpu s) ->
                               name p <> name q).
    { intros q Hq E. apply Hnotin. rewrite E. now apply in_map. }
    pose proof (Forall_perm _ _ _ HP Hpend) as Hpend1.
    apply Forall_app in Hpend1. destruct Hpend1 as [Hadm Hpend1].
    assert (Hall : Forall (ready_log log) (p :: others)).
    { eapply Forall_perm; [exact HR|]. apply Forall_app. split;
        [exact Hready|].
      eapply Forall_impl; [|exact Hadm]. apply pending_log_ready. }
    inversion Hall as [|? ? Hp_log Hothers]; subst.
    pose proof (ready_log_run log p (current_time s) n Hp_log) as Hp2.
    rewrite <- Ht in Hp2.
    assert (Hpend' : Forall (pending_log
              (log ++ [(name p, current_time s, current_time s')]))
              (processes s')).
    { rewrite Forall_forall in *. intros q Hq.
      apply pending_log_other; [|now apply Hpend1].
      apply Hother. apply in_or_app. right. apply in_or_app. now left. }
    assert (Hothers' : Forall (ready_log
              (log ++ [(name p, current_time s, current_time s')]))
              others).
    { rewrite Forall_forall in *. intros q Hq.
      apply ready_log_other; [|now apply Hothers].
      apply Hother. apply in_or_app. now left. }
    assert (Hdone' : Forall (done_log
              (log ++ [(name p, current_time s, current_time s')]))
              (cpu s)).
    { rewrite Forall_forall in *. intros q Hq.
      apply done_log_other; [|now apply Hdone].
      apply Hother. apply in_or_app. right. apply in_or_app. now right. }
    assert (Hname : name (set_remaining_time (remaining_time p - Z.of_nat n)
                            (first_dispatch (current_time s) p)) = name p).
    { unfold first_dispatch. now destruct (response_time p). }
    cbv zeta in Hcase. unfold inv_log. cbn [fst snd].
    destruct Hcase as [(Hz & Hc & Hq) | (Hz & Hc & Hq)].
    + split; [exact Hnd'|]. split; [exact Hpend'|]. split.
      * eapply Forall_perm; [symmetry; exact Hq|exact Hothers'].
      * rewrite Hc. apply Forall_app. split; [exact Hdone'|].
        constructor; [|constructor].
        rewrite <- Hname in Hp2 |- * at 1.
        apply ready_log_done; assumption.
    + split; [exact Hnd'|]. split; [exact Hpend'|]. split.
      * eapply Forall_perm; [symmetry; exact Hq|].
        constructor; [exact Hp2|exact Hothers'].
      * now rewrite Hc.
Qed.
End LogInvariant.

(** ** Runs *)

Lemma while_ext {St : Type} (cond : St -> bool) (body body' : St -> St) :
  (forall s, body s = body' s) ->
  forall n s, while cond body n s = while cond body' n s.
Proof.
  intros E n. induction n as [|n IH]; intro s; cbn; [reflexivity|].
  destruct (cond s); [|reflexivity]. now rewrite E, IH.
Qed.

Lemma fresh_unstarted (p : process) : fresh p -> unstarted p.
Proof.
  unfold fresh. intros ->. now split.
Qed.

(** The completed list of a run can be sorted. *)
Lemma sorted_by_start_time_done (flag : Z -> Z -> status_flag)
  (c : list process) :
  Forall (done_ok flag) c ->
  exists l, sorted_by_start_time c = Ok l /\ Permutation l c.
Proof.
  intro H. destruct c as [|p [|q c]].
  - now exists [].
  - now exists [p].
  - exists (sort_by start_key (p :: q :: c)).
    split; [|apply sort_by_permutation].
    unfold sorted_by_start_time.
    replace (forallb has_start_time (p :: q :: c)) with true; [reflexivity|].
    symmetry. apply forallb_forall. rewrite Forall_forall in H.
    intros x Hx. destruct (H x Hx) as (_ & _ & st & e & Hst & _).
    unfold has_start_time. now rewrite Hst.
Qed.

Section Run.
Variable select : list process -> list process.
Variable units : process -> Z.
Variable flag : Z -> Z -> status_flag.
Hypothesis select_permutation : forall l, Permutation (select l) l.
Hypothesis units_bounds :
  forall p, 0 < remaining_time p -> 1 <= units p <= remaining_time p.

Variable ps : list process.
Hypothesis ps_fresh : Forall fresh ps.
Hypothesis ps_burst : Forall (fun p => 0 < burst_time p) ps.

Lemma inv_initial : inv flag ps (initial ps).
Proof.
  unfold inv, initial, live. cbn. rewrite !app_nil_r.
  split; [apply Permutation_map, sort_by_permutation|].
  split; [|split; constructor].
  eapply Forall_perm; [symmetry; apply sort_by_permutation|].
  rewrite Forall_forall in *. intros p Hp.
  split; [apply fresh_unstarted|]; auto.
Qed.

Lemma inv_log_initial :
  NoDup (map name ps) -> inv_log (initial ps, []).
Proof.
  intro Hnd. unfold inv_log, initial, live. cbn. rewrite !app_nil_r.
  split; [|split; [|split; constructor]].
  - eapply Permutation_NoDup; [|exact Hnd].
    apply Permutation_map. symmetry. apply sort_by_permutation.
  - eapply Forall_perm; [symmetry; apply sort_by_permutation|].
    rewrite Forall_forall in *. intros p Hp.
    split; [apply fresh_unstarted|]; auto.
Qed.

(** The loop ends, within [work_left] turns. *)
Lemma sched_terminates :
  exists s,
    while pending_or_ready (sched_iter select units flag)
      (work_left (initial ps)) (initial ps)
    = Some s.
Proof.
  apply (while_terminates pending_or_ready (sched_iter select units flag)
           (inv flag ps)).
  - intros s Hinv _.
    exact (turn_inv _ _ units_bounds _ _ _ _
             (sched_iter_turn _ _ _ select_permutation s) Hinv).
  - intros s Hinv Hc.
    exact (turn_work_left _ _ units_bounds _ _ _ _
             (sched_iter_turn _ _ _ select_permutation s) Hinv Hc).
  - exact inv_initial.
Qed.

(** When the loop has ended, nothing is pending, nothing is ready, and the
    invariant holds. *)
Lemma sched_final (fuel : nat) (s : sim) :
  while pending_or_ready (sched_iter select units flag) fuel (initial ps)
  = Some s ->
  inv flag ps s /\ processes s = [] /\ ready_queue s = [].
Proof.
  intro H.
  destruct (while_invariant pending_or_ready (sched_iter select units flag)
              (inv flag ps)
              (fun s Hinv _ =>
                 turn_inv _ _ units_bounds _ _ _ _
                   (sched_iter_turn _ _ _ select_permutation s) Hinv)
              fuel (initial ps) s inv_initial H) as [Hinv Hc].
  split; [exact Hinv|]. unfold pending_or_ready in Hc.
  destruct (processes s); [|discriminate].
  destruct (ready_queue s); [|discriminate]. now split.
Qed.

(** The schedule of a run that has ended agrees with the records. *)
Lemma sched_trace (fuel : nat) (s : sim) :
  while pending_or_ready (sched_iter select units flag) fuel (initial ps)
  = Some s ->
  exists tr,
    trace (sched_iter select units flag) (sched_dispatch select units flag)
      fuel ps = Some tr /\
    (NoDup (map name ps) -> inv_log (s, tr)).
Proof.
  intro H. unfold trace.
  pose proof (while_logged (sched_iter select units flag)
              (sched_dispatch select units flag) fuel (initial ps) []) as Hl.
  rewrite H in Hl.
  destruct (while (fun sl => pending_or_ready (fst sl))
              (logged (sched_iter select units flag)
                 (sched_dispatch select units flag))
              fuel (initial ps, []))
    as [[s1 tr]|] eqn:Hw; [|discriminate].
  cbn in Hl. injection Hl as ->.
  exists tr. split; [reflexivity|]. intro Hnd.
  refine (proj1 (while_invariant _
                   (logged (sched_iter select units flag)
                      (sched_dispatch select units flag))
                   inv_log _ fuel (initial ps, []) (s, tr)
                   (inv_log_initial Hnd) Hw)).
  intros [s0 log0] Hinv _. unfold logged. cbn [fst snd].
  eapply turn_inv_log; [|exact Hinv].
  apply sched_iter_turn. exact select_permutation.
Qed.

(** What a run that has ended returns. *)
Lemma sched_result (fuel : nat) (out : outcome) :
  option_map finish
    (while pending_or_ready (sched_iter select units flag) fuel (initial ps))
  = Some out ->
  exists l tr,
    out = ([], Ok l) /\
    trace (sched_iter select units flag) (sched_dispatch select units flag)
      fuel ps = Some tr /\
    Permutation (map descriptor l) (map descriptor ps) /\
    Forall (done_ok flag) l /\
    (NoDup (map name ps) -> Forall (done_log tr) l).
Proof.
  destruct (while pending_or_ready (sched_iter select units flag) fuel
              (initial ps)) as [s|] eqn:Hw; [|discriminate].
  cbn. intros [= <-].
  destruct (sched_final _ _ Hw) as ((Hperm & _ & _ & Hdone) & Hp & Hr).
  destruct (sched_trace _ _ Hw) as (tr & Htr & Hlog).
  destruct (sorted_by_start_time_done _ _ Hdone) as (l & Hl & Hpl).
  exists l, tr. unfold finish. rewrite Hp, Hl.
  split; [reflexivity|]. split; [exact Htr|].
  unfold live in Hperm. rewrite Hp, Hr in Hperm. cbn in Hperm.
  split; [now rewrite Hpl|].
  split; [eapply Forall_perm; [symmetry; exact Hpl|exact Hdone]|].
  intro Hnd. destruct (Hlog Hnd) as (_ & _ & _ & Hd). cbn in Hd.
  eapply Forall_perm; [symmetry; exact Hpl|exact Hd].
Qed.
End Run.

(** ** The two schedulers *)

Lemma rr_units_bounds (quantum : Z) :
  0 < quantum ->
  forall p, 0 < remaining_time p ->
            1 <= rr_units quantum p <= remaining_time p.
Proof.
  unfold rr_units. lia.
Qed.

Lemma edf_units_bounds :
  forall p, 0 < remaining_time p -> 1 <= 1 <= remaining_time p.
Proof.
  lia.
Qed.

Lemma same_permutation (l : list process) : Permutation l l.
Proof.
  reflexivity.
Qed.

Lemma edf_while (fuel : nat) (s : sim) :
  while pending_or_ready edf_iter fuel s =
  while pending_or_ready (sched_iter (sort_by deadline) (fun _ => 1) edf_flag)
    fuel s.
Proof.
  apply while_ext. exact edf_iter_sched.
Qed.

Lemma edf_trace_sched (fuel : nat) (ps : list process) :
  edf_trace fuel ps =
  trace (sched_iter (sort_by deadline) (fun _ => 1) edf_flag)
    (sched_dispatch (sort_by deadline) (fun _ => 1) edf_flag) fuel ps.
Proof.
  unfold edf_trace, trace. f_equal. apply while_ext.
  intros [s log]. unfold logged. cbn [fst snd].
  now rewrite edf_iter_sched, edf_dispatch_sched.
Qed.

Section Schedulers.
Variable ps : list process.
Hypothesis ps_fresh : Forall fresh ps.
Hypothesis ps_burst : Forall (fun p => 0 < burst_time p) ps.

Lemma rr_terminates (quantum : Z) :
  0 < quantum ->
  exists out, rr (work_left (initial ps)) ps quantum = Some out.
Proof.
  intro Hq.
  destruct (sched_terminates (fun l => l) (rr_units quantum) (fun _ _ => S_)
              same_permutation (rr_units_bounds quantum Hq)
              ps ps_fresh ps_burst) as [s Hs].
  exists (finish s). unfold rr.
  change (rr_iter quantum)
    with (sched_iter (fun l => l) (rr_units quantum) (fun _ _ => S_)).
  now rewrite Hs.
Qed.

Lemma rr_result (quantum : Z) (fuel : nat) (out : outcome) :
  0 < quantum -> rr fuel ps quantum = Some out ->
  exists l tr,
    out = ([], Ok l) /\
    rr_trace fuel ps quantum = Some tr /\
    Permutation (map descriptor l) (map descriptor ps) /\
    Forall (done_ok (fun _ _ => S_)) l /\
    (NoDup (map name ps) -> Forall (done_log tr) l).
Proof.
  intros Hq H.
  exact (sched_result (fun l => l) (rr_units quantum) (fun _ _ => S_)
           same_permutation (rr_units_bounds quantum Hq)
           ps ps_fresh ps_burst fuel out H).
Qed.

Lemma edf_terminates :
  exists out, edf (work_left (initial ps)) ps = Some out.
Proof.
  destruct (sched_terminates (sort_by deadline) (fun _ => 1) edf_flag
              (sort_by_permutation deadline) edf_units_bounds
              ps ps_fresh ps_burst) as [s Hs].
  exists (finish s). unfold edf. now rewrite edf_while, Hs.
Qed.

Lemma edf_result (fuel : nat) (out : outcome) :
  edf fuel ps = Some out ->
  exists l tr,
    out = ([], Ok l) /\
    edf_trace fuel ps = Some tr /\
    Permutation (map descriptor l) (map descriptor ps) /\
    Forall (done_ok edf_flag) l /\
    (NoDup (map name ps) -> Forall (done_log tr) l).
Proof.
  unfold edf. rewrite edf_while, edf_trace_sched.
  exact (sched_result (sort_by deadline) (fun _ => 1) edf_flag
           (sort_by_permutation deadline) edf_units_bounds
           ps ps_fresh ps_burst fuel out).
Qed.
End Schedulers.

(** The result of a call does not depend on the fuel that lets it end. *)
Lemma rr_deterministic (n m : nat) (ps : list process) (quantum : Z)
  (out out' : outcome) :
  rr n ps quantum = Some out -> rr m ps quantum = Some out' -> out = out'.
Proof.
  unfold rr. intros H H'.
  destruct (while pending_or_ready (rr_iter quantum) n (initial ps))
    as [s|] eqn:Hs; [|discriminate].
  destruct (while pending_or_ready (rr_iter quantum) m (initial ps))
    as [s'|] eqn:Hs'; [|discriminate].
  rewrite (while_deterministic _ _ _ _ _ _ _ Hs Hs') in H. congruence.
Qed.

Lemma edf_deterministic (n m : nat) (ps : list process)
  (out out' : outcome) :
  edf n ps = Some out -> edf m ps = Some out' -> out = out'.
Proof.
  unfold edf. intros H H'.
  destruct (while pending_or_ready edf_iter n (initial ps))
    as [s|] eqn:Hs; [|discriminate].
  destruct (while pending_or_ready edf_iter m (initial ps))
    as [s'|] eqn:Hs'; [|discriminate].
  rewrite (while_deterministic _ _ _ _ _ _ _ Hs Hs') in H. congruence.
Qed.

(** C5.  For a list of fresh processes with positive burst times, and a
    positive quantum for [rr], both loops end and both functions return a
    list; the number of turns is at most the sum of the burst times plus the
    latest arrival time, which is the measure of the first state. *)
Theorem schedulers_terminate (ps : list process) (quantum : Z) :
  Forall fresh ps ->
  Forall (fun p => 0 < burst_time p) ps ->
  0 < quantum ->
  (exists l, rr (work_left (initial ps)) ps quantum = Some ([], Ok l)) /\
  (exists l, edf (work_left (initial ps)) ps = Some ([], Ok l)).
Proof.
  intros Hf Hb Hq. split.
  - destruct (rr_terminates ps Hf Hb quantum Hq) as [out Hout].
    destruct (rr_result ps Hf Hb quantum _ out Hq Hout) as (l & _ & -> & _).
    now exists l.
  - destruct (edf_terminates ps Hf Hb) as [out Hout].
    destruct (edf_result ps Hf Hb _ out Hout) as (l & _ & -> & _).
    now exists l.
Qed.

Lemma schedulers_terminate_witness :
  (exists l, rr (work_left (initial [P1; P2])) [P1; P2] 2 = Some ([], Ok l)) /\
  (exists l, edf (work_left (initial [P1; P2])) [P1; P2] = Some ([], Ok l)).
Proof.
  apply (schedulers_terminate [P1; P2] 2).
  - repeat constructor.
  - repeat constructor.
  - reflexivity.
Defined.

Lemma done_ok_completed (flag : Z -> Z -> status_flag) (p : process) :
  done_ok flag p -> completed p.
Proof.
  intros (Hz & _ & st & e & H1 & H2 & H3 & H4 & _).
  unfold completed. rewrite H1, H2, H3, H4. repeat split; auto; discriminate.
Qed.

(** C10.  For a list of fresh processes with positive burst times (and a
    positive quantum), [rr] and [edf] return, each, a list that holds the
    processes of the input list, each one once, completed: nothing remains to
    run and the start, end and response times and the status are set.  The
    caller's list is empty when they return. *)
Theorem schedulers_complete_every_process (ps : list process) (quantum : Z) :
  Forall fresh ps ->
  Forall (fun p => 0 < burst_time p) ps ->
  0 < quantum ->
  (exists fuel l,
     rr fuel ps quantum = Some ([], Ok l) /\
     Permutation (map descriptor l) (map descriptor ps) /\
     Forall completed l) /\
  (exists fuel l,
     edf fuel ps = Some ([], Ok l) /\
     Permutation (map descriptor l) (map descriptor ps) /\
     Forall completed l).
Proof.
  intros Hf Hb Hq. split.
  - destruct (rr_terminates ps Hf Hb quantum Hq) as [out Hout].
    destruct (rr_result ps Hf Hb quantum _ out Hq Hout)
      as (l & _ & -> & _ & Hperm & Hdone & _).
    exists (work_left (initial ps)), l. repeat split; auto.
    eapply Forall_impl; [|exact Hdone]. apply done_ok_completed.
  - destruct (edf_terminates ps Hf Hb) as [out Hout].
    destruct (edf_result ps Hf Hb _ out Hout)
      as (l & _ & -> & _ & Hperm & Hdone & _).
    exists (work_left (initial ps)), l. repeat split; auto.
    eapply Forall_impl; [|exact Hdone]. apply done_ok_completed.
Qed.

Lemma schedulers_complete_every_process_witness :
  (exists fuel l,
     rr fuel [P1; P2] 2 = Some ([], Ok l) /\
     Permutation (map descriptor l) (map descriptor [P1; P2]) /\
     Forall completed l) /\
  (exists fuel l,
     edf fuel [P1; P2] = Some ([], Ok l) /\
     Permutation (map descriptor l) (map descriptor [P1; P2]) /\
     Forall completed l).
Proof.
  apply (schedulers_complete_every_process [P1; P2] 2).
  - repeat constructor.
  - repeat constructor.
  - reflexivity.
Defined.

Lemma done_timing (flag : Z -> Z -> status_flag) (ps : list process)
  (tr : list slice) (l : list process) :
  Forall (done_ok flag) l ->
  (NoDup (map name ps) -> Forall (done_log tr) l) ->
  Forall (timing ps tr) l.
Proof.
  intros Hdone Hlog. apply Forall_forall. intros p Hp.
  rewrite Forall_forall in Hdone.
  destruct (Hdone p Hp) as (_ & Hb & st & e & H1 & H2 & _ & _ & Ha & He).
  exists st, e. repeat split; auto; try lia.
  intros Hnd Hun. specialize (Hlog Hnd). rewrite Forall_forall in Hlog.
  destruct (Hlog p Hp) as (Hbusy & a & b & Hspan & Hst & Hend).
  rewrite H1 in Hst. rewrite H2 in Hend.
  injection Hst as ->. injection Hend as ->.
  rewrite <- Hbusy. now apply abutting_span.
Qed.

(** C6.  For a list of fresh processes with positive burst times (and a
    positive quantum for [rr]), every process of the list that [rr] or [edf]
    returns has [arrival_time <= start_time <= end_time] and
    [end_time - start_time >= burst_time], with equality when the process was
    never preempted: when, the names being distinct, each of its slices in the
    schedule of the run begins where its previous slice ended.  (No condition
    on the sign of the arrival times is needed.) *)
Theorem start_and_end_times (ps : list process) (quantum : Z) (fuel : nat)
  (rest l : list process) (tr : list slice) :
  Forall fresh ps ->
  Forall (fun p => 0 < burst_time p) ps ->
  (0 < quantum /\ rr fuel ps quantum = Some (rest, Ok l) /\
   rr_trace fuel ps quantum = Some tr) \/
  (edf fuel ps = Some (rest, Ok l) /\ edf_trace fuel ps = Some tr) ->
  Forall (timing ps tr) l.
Proof.
  intros Hf Hb [(Hq & Hrun & Htr) | (Hrun & Htr)].
  - destruct (rr_result ps Hf Hb quantum fuel _ Hq Hrun)
      as (l' & tr' & E & Htr' & _ & Hdone & Hlog).
    injection E as _ <-. rewrite Htr in Htr'. injection Htr' as <-.
    exact (done_timing _ ps tr l Hdone Hlog).
  - destruct (edf_result ps Hf Hb fuel _ Hrun)
      as (l' & tr' & E & Htr' & _ & Hdone & Hlog).
    injection E as _ <-. rewrite Htr in Htr'. injection Htr' as <-.
    exact (done_timing _ ps tr l Hdone Hlog).
Qed.

Lemma start_and_end_times_witness :
  Forall (timing [P1; P2] [("P1", 0, 2); ("P2", 2, 4); ("P1", 4, 6)]%string)
    [ran P1 0 6 S_; ran P2 2 4 S_].
Proof.
  apply (start_and_end_times [P1; P2] 2 3 []).
  - repeat constructor.
  - repeat constructor.
  - left. split; [reflexivity|]. split; reflexivity.
Defined.

(** ** The status that edf gives *)

Lemma sorted_by_start_time_permutation (c l : list process) :
  sorted_by_start_time c = Ok l -> Permutation l c.
Proof.
  destruct c as [|p [|q c]]; try (intros [= <-]; reflexivity).
  unfold sorted_by_start_time.
  destruct (forallb has_start_time (p :: q :: c)); [|discriminate].
  intros [= <-]. exact (sort_by_permutation start_key (p :: q :: c)).
Qed.

Lemma complete_status_by_deadline (now : Z) (p : process) :
  status_by_deadline (complete edf_flag now p).
Proof.
  exists now. unfold complete, edf_flag. cbn.
  split; [reflexivity|].
  destruct (now <=? deadline p) eqn:H;
    [apply Z.leb_le in H | apply Z.leb_gt in H];
    split; split; intro H'; try lia; try reflexivity; discriminate.
Qed.

(** Whatever the state, a turn of [edf] leaves in the completed list records
    whose status tells whether the deadline was met. *)
Lemma turn_status_by_deadline (units : process -> Z) (s s' : sim)
  (log : list slice) :
  turn units edf_flag s s' log ->
  Forall status_by_deadline (cpu s) -> Forall status_by_deadline (cpu s').
Proof.
  intros [Hr Hp Hr' Hc Ht Hlate | p others adm n HP HA HR Hp Hn Ht Hcase] H.
  - now rewrite Hc.
  - cbv zeta in Hcase. destruct Hcase as [(_ & Hc & _) | (_ & Hc & _)];
      rewrite Hc; [|exact H].
    apply Forall_app. split; [exact H|].
    constructor; [apply complete_status_by_deadline|constructor].
Qed.

(** C3.  Every process of the list that [edf] returns has the status ['S']
    exactly when its end time is not later than its deadline, and ['F']
    exactly when it is later.  A process that misses its deadline is returned
    like the others: for a list of fresh processes with positive burst times,
    the returned list holds every process of the input, completed. *)
Theorem edf_status_by_deadline (fuel : nat) (ps rest l : list process) :
  edf fuel ps = Some (rest, Ok l) ->
  Forall status_by_deadline l /\
  (Forall fresh ps -> Forall (fun p => 0 < burst_time p) ps ->
   Permutation (map descriptor l) (map descriptor ps) /\
   Forall completed l).
Proof.
  intro H. split.
  - unfold edf in H. rewrite edf_while in H.
    destruct (while pending_or_ready
                (sched_iter (sort_by deadline) (fun _ => 1) edf_flag)
                fuel (initial ps)) as [s|] eqn:Hw; [|discriminate].
    cbn in H. injection H as _ H.
    eapply Forall_perm;
      [symmetry; apply sorted_by_start_time_permutation; exact H|].
    refine (proj1 (while_invariant pending_or_ready _
                     (fun s => Forall status_by_deadline (cpu s)) _
                     fuel (initial ps) s _ Hw)).
    + intros s0 H0 _. eapply turn_status_by_deadline; [|exact H0].
      apply sched_iter_turn. apply sort_by_permutation.
    + constructor.
  - intros Hf Hb.
    destruct (edf_result ps Hf Hb fuel _ H)
      as (l' & _ & E & _ & Hperm & Hdone & _).
    injection E as _ <-. split; [exact Hperm|].
    eapply Forall_impl; [|exact Hdone]. apply done_ok_completed.
Qed.

Lemma edf_status_by_deadline_witness :
  Forall status_by_deadline [ran P1 0 6 S_; ran P2_late 1 3 F_] /\
  (Forall fresh [P1; P2_late] ->
   Forall (fun p => 0 < burst_time p) [P1; P2_late] ->
   Permutation (map descriptor [ran P1 0 6 S_; ran P2_late 1 3 F_])
     (map descriptor [P1; P2_late]) /\
   Forall completed [ran P1 0 6 S_; ran P2_late 1 3 F_]).
Proof.
  apply (edf_status_by_deadline 6 [P1; P2_late] []).
  reflexivity.
Defined.

(** ** The metrics of a completed run *)

Lemma assign_times_map (l : list process) :
  Forall (fun p => end_time p <> None) l ->
  assign_times l = (map assign l, Ok tt).
Proof.
  induction 1 as [|p rest Hp _ IH]; [reflexivity|].
  destruct (end_time p) as [e|] eqn:He; [|contradiction].
  rewrite (assign_times_cons _ _ _ He), IH. cbn [fst snd map].
  unfold assign. now rewrite He.
Qed.

Lemma fold_left_max_ge (es : list Z) (e : Z) : e <= fold_left Z.max es e.
Proof.
  revert e. induction es as [|x es IH]; intro e; cbn; [lia|].
  specialize (IH (Z.max e x)). lia.
Qed.

Lemma integers_map_some (l : list (option Z)) (zs : list Z) :
  integers l = Ok zs -> l = map Some zs.
Proof.
  revert zs. induction l as [|[z|] l IH]; intros zs; cbn.
  - now intros [= <-].
  - destruct (integers l) as [zs'|e]; cbn; [|discriminate].
    intros [= <-]. cbn. now rewrite (IH zs' eq_refl).
  - discriminate.
Qed.

Lemma fold_left_max_upper (es : list Z) (e : Z) :
  Forall (fun x => x <= fold_left Z.max es e) es.
Proof.
  revert e. induction es as [|x es IH]; intro e; cbn; constructor.
  - pose proof (fold_left_max_ge es (Z.max e x)). lia.
  - apply IH.
Qed.

Lemma fold_left_max_in (es : list Z) (e : Z) :
  In (fold_left Z.max es e) (e :: es).
Proof.
  revert e. induction es as [|x es IH]; intro e; cbn; [now left|].
  destruct (IH (Z.max e x)) as [H | H].
  - destruct (Z.max_spec e x) as [[_ E] | [_ E]]; rewrite E in *; auto.
  - auto.
Qed.

(** On a non-empty list of completed records, [max] gives the latest end
    time: no record ends after it, and one record ends at it. *)
Lemma last_finish_latest (l : list process) :
  l <> [] ->
  Forall (fun p => end_time p <> None) l ->
  exists t,
    last_finish l = Ok (Some t) /\
    Forall (fun p => forall e, end_time p = Some e -> e <= t) l /\
    Exists (fun p => end_time p = Some t) l.
Proof.
  intros Hne H. destruct l as [|p rest]; [contradiction|].
  inversion H as [|? ? Hp Hrest]; subst.
  destruct (end_time p) as [e|] eqn:He; [|contradiction].
  destruct rest as [|q rest].
  - exists e. cbn. rewrite He. split; [reflexivity|]. split.
    + constructor; [|constructor]. intros e' E. rewrite He in E.
      injection E as <-. lia.
    + now left.
  - destruct (integers_completed _ Hrest) as [es Hes].
    pose proof (integers_map_some _ _ Hes) as Hmap.
    exists (fold_left Z.max es e). rewrite last_finish_map.
    cbn [map finish_of]. rewrite He.
    change (end_time q :: map end_time rest) with (map end_time (q :: rest)).
    rewrite Hes. cbn [bind]. split; [reflexivity|]. split.
    + constructor.
      * intros e' E. rewrite He in E. injection E as <-.
        apply fold_left_max_ge.
      * pose proof (fold_left_max_upper es e) as Hup.
        rewrite Forall_forall in *. intros x Hx e' E.
        apply Hup. apply (in_map end_time) in Hx. rewrite Hmap, E in Hx.
        apply in_map_iff in Hx. destruct Hx as (z & Ez & Hz).
        now injection Ez as ->.
    + destruct (fold_left_max_in es e) as [E | Hin].
      * apply Exists_cons_hd. rewrite <- E. exact He.
      * apply Exists_cons_tl. apply Exists_exists.
        apply (in_map Some) in Hin. rewrite <- Hmap in Hin.
        apply in_map_iff in Hin. destruct Hin as (x & Ex & Hx).
        now exists x.
Qed.

Lemma sum_in_range (zs : list Z) (bound : Z) :
  Forall (fun z => Z.abs z <= bound) zs ->
  Z.abs (sum zs) <= bound * Z.of_nat (List.length zs).
Proof.
  induction 1 as [|z zs Hz _ IH]; [cbn; lia|].
  change (sum (z :: zs)) with (z + sum zs).
  cbn [List.length]. rewrite Nat2Z.inj_succ. lia.
Qed.

Lemma total_in_range (l : list (option Z)) (bound : Z) :
  Forall (fun x => exists z, x = Some z /\ Z.abs z <= bound) l ->
  exists z,
    total l = Ok z /\ Z.abs z <= bound * Z.of_nat (List.length l).
Proof.
  intro H.
  assert (Hzs : exists zs,
            integers l = Ok zs /\ List.length zs = List.length l /\
            Forall (fun z => Z.abs z <= bound) zs).
  { induction H as [|x l (z & -> & Hz) _ (zs & E & Hlen & Hzs)].
    - exists []. now repeat split.
    - exists (z :: zs). cbn [integers]. rewrite E. cbn [bind List.length].
      repeat split; [now rewrite Hlen|now constructor]. }
  destruct Hzs as (zs & E & Hlen & Hzs).
  exists (sum zs). unfold total. rewrite E. split; [reflexivity|].
  rewrite <- Hlen. now apply sum_in_range.
Qed.

Lemma length_le_sum (zs : list Z) :
  Forall (fun z => 1 <= z) zs -> Z.of_nat (List.length zs) <= sum zs.
Proof.
  induction 1 as [|z zs Hz _ IH]; [cbn; lia|].
  change (sum (z :: zs)) with (z + sum zs).
  cbn [List.length]. rewrite Nat2Z.inj_succ. lia.
Qed.

Lemma burst_time_assign (l : list process) :
  map burst_time (map assign l) = map burst_time l.
Proof.
  rewrite map_map. apply map_ext. intro p. unfold assign.
  now destruct (end_time p).
Qed.

Section MetricsInRange.
Variable float : Type.
Variable true_div : Z -> Z -> option float.
Variable round2 : float -> float.
Variable times100 : float -> float.
Variable float_gt : float -> float -> bool.
Hypothesis true_div_no_overflow : no_overflow true_div.

Lemma divide_returns (a b : Z) :
  b <> 0 -> Z.abs a <= float_range * Z.abs b ->
  exists x, divide true_div a b = Ok x.
Proof.
  intros Hb Ha. unfold divide.
  destruct (b =? 0) eqn:E; [apply Z.eqb_eq in E; contradiction|].
  destruct (true_div a b) as [x|] eqn:Ex; [now exists x|].
  now destruct (true_div_no_overflow a b Hb Ha).
Qed.

Lemma divide_by_zero (a : Z) :
  divide true_div a 0 = Raise ZeroDivisionError.
Proof.
  reflexivity.
Qed.

Lemma average_returns (a n : Z) :
  0 < n -> Z.abs a <= float_range * n ->
  exists x, average true_div round2 a n = Ok (Float x).
Proof.
  intros Hn Ha. unfold average.
  destruct (0 <? n) eqn:E; [|apply Z.ltb_ge in E; lia].
  destruct (divide_returns a n) as [x ->]; [lia|lia|].
  now eexists.
Qed.

Lemma stretch_outcome (p : process) :
  (exists ta, turnaround_time p = Some ta /\ in_float_range ta) ->
  (burst_time p = 0 /\ stretch true_div round2 p = Raise ZeroDivisionError) \/
  (burst_time p <> 0 /\ exists y, stretch true_div round2 p = Ok y).
Proof.
  intros (ta & Hta & Hrange). unfold stretch. rewrite Hta.
  destruct (Z.eq_dec (burst_time p) 0) as [E | E].
  - left. split; [exact E|]. now rewrite E.
  - right. split; [exact E|].
    destruct (divide_returns ta (burst_time p) E) as [x ->];
      [unfold in_float_range in Hrange; nia|].
    now eexists.
Qed.

Lemma max_from_returns (l : list process) (x : float) :
  Forall (fun p => exists ta,
            turnaround_time p = Some ta /\ in_float_range ta) l ->
  Forall (fun p => burst_time p <> 0) l ->
  exists y, max_from true_div round2 float_gt x l = Ok y.
Proof.
  intros H Hb. revert x.
  induction H as [|p l Hp _ IH]; intro x; [now exists x|].
  inversion Hb; subst. cbn [max_from].
  destruct (stretch_outcome p Hp) as [[E _] | [_ [y ->]]]; [contradiction|].
  cbn [bind]. now apply IH.
Qed.

Lemma max_from_zero_burst (l : list process) :
  Forall (fun p => exists ta,
            turnaround_time p = Some ta /\ in_float_range ta) l ->
  Exists (fun p => burst_time p = 0) l ->
  forall x, max_from true_div round2 float_gt x l = Raise ZeroDivisionError.
Proof.
  induction 1 as [|p l Hp _ IH]; intros Hex x; [inversion Hex|].
  cbn [max_from].
  destruct (stretch_outcome p Hp) as [[_ ->] | [Hb [y ->]]]; [reflexivity|].
  cbn [bind]. apply IH.
  inversion Hex; subst; [contradiction|assumption].
Qed.

Lemma max_stretch_returns (l : list process) :
  l <> [] ->
  Forall (fun p => exists ta,
            turnaround_time p = Some ta /\ in_float_range ta) l ->
  Forall (fun p => burst_time p <> 0) l ->
  exists y, max_stretch true_div round2 float_gt l = Ok y.
Proof.
  intros Hne Hl Hb. destruct l as [|p l]; [contradiction|].
  inversion Hl as [|? ? Hp Hrest]; subst. inversion Hb; subst.
  cbn [max_stretch].
  destruct (stretch_outcome p Hp) as [[E _] | [_ [y ->]]]; [contradiction|].
  cbn [bind]. now apply max_from_returns.
Qed.

Lemma max_stretch_zero_burst (l : list process) :
  Forall (fun p => exists ta,
            turnaround_time p = Some ta /\ in_float_range ta) l ->
  Exists (fun p => burst_time p = 0) l ->
  max_stretch true_div round2 float_gt l = Raise ZeroDivisionError.
Proof.
  intros Hl Hex. destruct l as [|p l]; [inversion Hex|].
  inversion Hl as [|? ? Hp Hrest]; subst. cbn [max_stretch].
  destruct (stretch_outcome p Hp) as [[_ ->] | [Hb [y ->]]]; [reflexivity|].
  cbn [bind]. apply max_from_zero_burst; [exact Hrest|].
  inversion Hex; subst; [contradiction|assumption].
Qed.

(** The statements after the loop, on a non-empty list whose numbers are in
    the range of the floats: they return a tuple when neither the total time
    nor a burst time is 0, and raise [ZeroDivisionError] otherwise. *)
Lemma aggregate_outcome (t : Z) (l : list process) :
  l <> [] ->
  in_float_range (Z.of_nat (List.length l)) ->
  in_float_range (sum (map burst_time l)) ->
  Forall (fun p => exists w ta r,
            waiting_time p = Some w /\ turnaround_time p = Some ta /\
            response_time p = Some r /\
            in_float_range w /\ in_float_range ta /\ in_float_range r) l ->
  (t <> 0 -> Forall (fun p => burst_time p <> 0) l ->
   exists m, aggregate true_div round2 times100 float_gt (Some t) l = Ok m) /\
  (t = 0 \/ Exists (fun p => burst_time p = 0) l ->
   aggregate true_div round2 times100 float_gt (Some t) l
   = Raise ZeroDivisionError).
Proof.
  intros Hne Hn Hb Hall. unfold aggregate.
  assert (Hpos : 0 < Z.of_nat (List.length l))
    by (destruct l; [contradiction|cbn [List.length]; lia]).
  destruct (total_in_range (map waiting_time l) float_range)
    as (w & -> & Hw).
  { apply Forall_map. eapply Forall_impl; [|exact Hall].
    intros p (w' & ta' & r' & -> & _ & _ & H & _). now exists w'. }
  destruct (total_in_range (map turnaround_time l) float_range)
    as (ta & -> & Hta).
  { apply Forall_map. eapply Forall_impl; [|exact Hall].
    intros p (w' & ta' & r' & _ & -> & _ & _ & H & _). now exists ta'. }
  destruct (total_in_range (map response_time l) float_range)
    as (r & -> & Hr).
  { apply Forall_map. eapply Forall_impl; [|exact Hall].
    intros p (w' & ta' & r' & _ & _ & -> & _ & _ & H). now exists r'. }
  rewrite length_map in Hw, Hta, Hr. cbn [bind].
  destruct (average_returns w _ Hpos Hw) as [awt ->].
  destruct (average_returns r _ Hpos Hr) as [art ->].
  destruct (average_returns ta _ Hpos Hta) as [att ->].
  cbn [bind]. unfold rounded_ratio, rounded_percentage.
  assert (Hstretch : Forall (fun p => exists ta,
            turnaround_time p = Some ta /\ in_float_range ta) l).
  { eapply Forall_impl; [|exact Hall].
    intros p (w' & ta' & r' & _ & E & _ & _ & H & _). now exists ta'. }
  assert (Hdiv : t <> 0 ->
            exists th ut,
              divide true_div (Z.of_nat (List.length l)) t = Ok th /\
              divide true_div (sum (map burst_time l)) t = Ok ut).
  { intro Ht. unfold in_float_range in Hn, Hb.
    destruct (divide_returns (Z.of_nat (List.length l)) t Ht) as [th Hth];
      [nia|].
    destruct (divide_returns (sum (map burst_time l)) t Ht) as [ut Hut];
      [nia|].
    now exists th, ut. }
  split.
  - intros Ht Hbursts. destruct (Hdiv Ht) as (th & ut & -> & ->).
    cbn [bind].
    destruct (max_stretch_returns l Hne Hstretch Hbursts) as [y ->].
    cbn [bind]. now eexists.
  - intros H. destruct (Z.eq_dec t 0) as [-> | Ht].
    + now rewrite divide_by_zero.
    + destruct H as [H | H]; [contradiction|].
      destruct (Hdiv Ht) as (th & ut & -> & ->). cbn [bind].
      now rewrite (max_stretch_zero_burst l Hstretch H).
Qed.

(** What the loop leaves, for a list whose numbers are in range. *)
Lemma assigned_in_range (cpu : list process) :
  times_in_range cpu ->
  in_float_range (Z.of_nat (List.length (map assign cpu))) /\
  in_float_range (sum (map burst_time (map assign cpu))) /\
  Forall (fun p => exists w ta r,
            waiting_time p = Some w /\ turnaround_time p = Some ta /\
            response_time p = Some r /\
            in_float_range w /\ in_float_range ta /\ in_float_range r)
    (map assign cpu).
Proof.
  intros (Hn & Hb & Hall). rewrite length_map, burst_time_assign.
  split; [exact Hn|]. split; [exact Hb|].
  apply Forall_map. eapply Forall_impl; [|exact Hall].
  intros p (e & r & He & Hr & Hr' & Hta & Hw). unfold assign. rewrite He.
  exists (e - arrival_time p - burst_time p), (e - arrival_time p), r.
  now repeat split.
Qed.

Lemma times_in_range_end_time (cpu : list process) :
  times_in_range cpu -> Forall (fun p => end_time p <> None) cpu.
Proof.
  intros (_ & _ & Hall). eapply Forall_impl; [|exact Hall].
  intros p (e & r & -> & _). discriminate.
Qed.

(** On a non-empty list whose numbers are in the range of the floats,
    [calculate_metrics] gets as far as the divisions by the total time. *)
Lemma calculate_metrics_aggregate (cpu : list process) :
  cpu <> [] -> times_in_range cpu ->
  exists t,
    last_finish cpu = Ok (Some t) /\
    calculate_metrics true_div round2 times100 float_gt cpu
    = (map assign cpu,
       aggregate true_div round2 times100 float_gt (Some t)
         (map assign cpu)).
Proof.
  intros Hne Hrange.
  pose proof (times_in_range_end_time cpu Hrange) as Hend.
  destruct (last_finish_latest cpu Hne Hend) as (t & Ht & _).
  exists t. split; [exact Ht|].
  unfold calculate_metrics. now rewrite Ht, (assign_times_map cpu Hend).
Qed.

Lemma calculate_metrics_returns (cpu : list process) :
  cpu <> [] ->
  times_in_range cpu ->
  Forall (fun p => burst_time p <> 0) cpu ->
  last_finish cpu <> Ok (Some 0) ->
  exists m,
    calculate_metrics true_div round2 times100 float_gt cpu
    = (map assign cpu, Ok m).
Proof.
  intros Hne Hrange Hb Hlast.
  destruct (calculate_metrics_aggregate cpu Hne Hrange) as (t & Ht & ->).
  destruct (assigned_in_range cpu Hrange) as (Hn' & Hb' & Hall').
  assert (Hne' : map assign cpu <> [])
    by (destruct cpu; [contradiction|discriminate]).
  destruct (proj1 (aggregate_outcome t _ Hne' Hn' Hb' Hall')) as [m ->].
  - intros ->. contradiction.
  - apply Forall_map. eapply Forall_impl; [|exact Hb].
    intros p Hp. unfold assign. now destruct (end_time p).
  - now exists m.
Qed.

(** C9.  On a non-empty list of completed processes (every record has its
    [end_time] and its [response_time], no burst time is 0, the latest end
    time is not 0, and the numbers are in the range of the floats), a call
    of [calculate_metrics] returns a tuple and leaves the records with their
    [turnaround_time] and [waiting_time] assigned; a second call, on the
    list that the first one has left, returns the same tuple and leaves the
    records as the first one left them. *)
Theorem calculate_metrics_twice (cpu : list process) :
  cpu <> [] ->
  times_in_range cpu ->
  Forall (fun p => burst_time p <> 0) cpu ->
  last_finish cpu <> Ok (Some 0) ->
  exists cpu1 m,
    calculate_metrics true_div round2 times100 float_gt cpu = (cpu1, Ok m) /\
    calculate_metrics true_div round2 times100 float_gt cpu1 = (cpu1, Ok m) /\
    Forall2 (fun p p' => same_but_times p p' /\ conserved p') cpu cpu1.
Proof.
  intros Hne Hrange Hb Hlast.
  destruct (calculate_metrics_returns cpu Hne Hrange Hb Hlast) as [m Hm].
  exists (map assign cpu), m. split; [exact Hm|]. split.
  - exact (calculate_metrics_again float true_div round2 times100 float_gt
             cpu (map assign cpu) (Ok m) Hm).
  - pose proof (times_in_range_end_time cpu Hrange) as Hend.
    pose proof (assign_times_frame cpu) as Hframe.
    pose proof (assign_times_done cpu) as Hdone.
    rewrite (assign_times_map cpu Hend) in Hframe, Hdone.
    apply Forall2_and_right; [exact Hframe|now apply Hdone].
Qed.
End MetricsInRange.

Lemma float_range_large : 1000000 <= float_range.
Proof.
  unfold float_range. apply Z.leb_le. vm_compute. reflexivity.
Qed.

Lemma in_float_range_small (z : Z) :
  Z.abs z <= 1000000 -> in_float_range z.
Proof.
  intro H. unfold in_float_range. pose proof float_range_large. lia.
Qed.

(** The division of the instance fails only out of the range. *)
Lemma exact_no_overflow : no_overflow Exact.true_div.
Proof.
  intros a b Hb Ha. unfold Exact.true_div.
  destruct (Z.abs a <? (2 ^ 1024 - 2 ^ 970) * Z.abs b) eqn:E;
    [discriminate|].
  apply Z.ltb_ge in E. exfalso.
  assert (H : float_range < 2 ^ 1024 - 2 ^ 970)
    by (unfold float_range; apply Z.ltb_lt; vm_compute; reflexivity).
  revert E H Ha. generalize (2 ^ 1024 - 2 ^ 970) float_range.
  intros K R E H Ha. nia.
Qed.

Lemma arrival_descriptor (l ps : list process) :
  Permutation (map descriptor l) (map descriptor ps) ->
  Forall (fun p => 0 <= arrival_time p) ps ->
  Forall (fun p => 0 <= arrival_time p) l.
Proof.
  intros Hperm H. rewrite Forall_forall in *. intros p Hp.
  assert (Hin : In (descriptor p) (map descriptor ps))
    by (eapply Permutation_in; [exact Hperm|now apply in_map]).
  apply in_map_iff in Hin. destruct Hin as (q & Eq & Hq).
  specialize (H q Hq). unfold descriptor in Eq.
  injection Eq as _ Ea _ _. lia.
Qed.

(** ** Examples *)

(** The first scenario: one process (arrival 0, burst 5, deadline 10),
    quantum 2.  Both schedulers run it from 0 to 5 without interruption. *)
Example scenario_single_process :
  let A := new_process "A" 0 5 10 in
  rr 3 [A] 2 = Some ([], Ok [ran A 0 5 S_]) /\
  rr_trace 3 [A] 2 = Some [("A", 0, 2); ("A", 2, 4); ("A", 4, 5)]%string /\
  uninterrupted "A" [("A", 0, 2); ("A", 2, 4); ("A", 4, 5)]%string /\
  edf 5 [A] = Some ([], Ok [ran A 0 5 S_]) /\
  snd (Exact.calculate [ran A 0 5 S_]) =
    Ok (Float 0%Q, Float 0%Q, Float 5%Q, Float (1 # 5)%Q, Float 100%Q,
        Float 1%Q).
Proof.
  cbv zeta. repeat split; vm_compute; reflexivity.
Qed.

(** In the second scenario under [rr], P2 runs without interruption and P1
    does not. *)
Example scenario_two_processes_preemption :
  let tr := [("P1", 0, 2); ("P2", 2, 4); ("P1", 4, 6)]%string in
  uninterrupted "P2" tr /\ ~ uninterrupted "P1" tr.
Proof.
  cbv zeta. split; [exact I|]. intros [H _]. discriminate.
Qed.

(** Three processes that arrive together are not served in their order: the
    first call admits A and C, and B joins the queue behind C. *)
Example three_arrivals_out_of_order :
  rr_trace 3 [new_process "A" 0 1 9; new_process "B" 0 1 9;
              new_process "C" 0 1 9] 1 =
  Some [("A", 0, 1); ("C", 1, 2); ("B", 2, 3)]%string.
Proof.
  reflexivity.
Qed.

Lemma calculate_metrics_conservation_witness :
  Forall2 (fun p p' => same_but_times p p' /\ conserved p')
    [ran P1 0 6 S_; ran P2 2 4 S_]
    (fst (Exact.calculate [ran P1 0 6 S_; ran P2 2 4 S_])).
Proof.
  apply (calculate_metrics_conservation Q Exact.true_div Exact.round2
           Exact.times100 Exact.float_gt [ran P1 0 6 S_; ran P2 2 4 S_]).
  - discriminate.
  - repeat constructor; discriminate.
Defined.

Lemma calculate_metrics_twice_witness :
  exists cpu1 m,
    Exact.calculate [ran P1 0 6 S_; ran P2 2 4 S_] = (cpu1, Ok m) /\
    Exact.calculate cpu1 = (cpu1, Ok m) /\
    Forall2 (fun p p' => same_but_times p p' /\ conserved p')
      [ran P1 0 6 S_; ran P2 2 4 S_] cpu1.
Proof.
  apply (calculate_metrics_twice Q Exact.true_div Exact.round2
           Exact.times100 Exact.float_gt exact_no_overflow).
  - discriminate.
  - repeat split; try (apply in_float_range_small; cbn; lia).
    repeat constructor.
    + exists 6, 0. repeat split; apply in_float_range_small; cbn; lia.
    + exists 4, 1. repeat split; apply in_float_range_small; cbn; lia.
  - repeat constructor; discriminate.
  - discriminate.
Defined.

(** * Further properties *)

(** ** update_ready_queue on a list whose arrived processes come first *)

Lemma scan_none (now : Z) (l : list process) :
  Forall (fun p => now < arrival_time p) l -> scan now l = (l, []).
Proof.
  induction 1 as [|p l Hp _ IH]; [reflexivity|].
  rewrite scan_keep by (apply Z.leb_gt; exact Hp). now rewrite IH.
Qed.

Lemma scan_alternates (now : Z) (later : list process) :
  Forall (fun p => now < arrival_time p) later ->
  forall arrived,
    Forall (fun p => arrival_time p <= now) arrived ->
    scan now (arrived ++ later) = (odds arrived ++ later, evens arrived).
Proof.
  intros Hlater arrived.
  induction arrived as [|x|x y l IH _] using list_pair_ind; intro Harr.
  - now apply scan_none.
  - inversion Harr as [|? ? Hx _]; subst. apply Z.leb_le in Hx.
    cbn [app odds evens]. destruct later as [|q later].
    + now rewrite scan_admit_last.
    + inversion Hlater; subst.
      rewrite scan_admit by exact Hx. now rewrite scan_none.
  - inversion Harr as [|? ? Hx Hrest]; subst. apply Z.leb_le in Hx.
    inversion Hrest as [|? ? _ Hl]; subst.
    change ((x :: y :: l) ++ later) with (x :: y :: (l ++ later)).
    rewrite scan_admit by exact Hx. rewrite (IH Hl). reflexivity.
Qed.

(** When the arrived processes of the pending list come first, as in a list
    sorted by arrival time, a call admits those of even rank among them (the
    first, the third, ...) and leaves those of odd rank in the pending list,
    in front of the processes that have not arrived. *)
Theorem update_ready_queue_alternates (s : sim)
  (arrived later : list process) :
  processes s = arrived ++ later ->
  Forall (fun p => arrival_time p <= current_time s) arrived ->
  Forall (fun p => current_time s < arrival_time p) later ->
  processes (update_ready_queue s) = odds arrived ++ later /\
  ready_queue (update_ready_queue s) = ready_queue s ++ evens arrived.
Proof.
  intros Hp Ha Hl. rewrite update_ready_queue_scan. cbn [processes ready_queue].
  rewrite Hp, (scan_alternates _ _ Hl _ Ha). now split.
Qed.

Lemma update_ready_queue_alternates_witness :
  let A := new_process "A" 0 1 9 in
  let B := new_process "B" 0 1 9 in
  let C := new_process "C" 0 1 9 in
  let D := new_process "D" 5 1 9 in
  let s := {| current_time := 0; processes := [A; B; C; D];
              ready_queue := []; cpu := [] |} in
  processes (update_ready_queue s) = odds [A; B; C] ++ [D] /\
  ready_queue (update_ready_queue s) = ready_queue s ++ evens [A; B; C].
Proof.
  cbv zeta.
  apply (update_ready_queue_alternates _
           [new_process "A" 0 1 9; new_process "B" 0 1 9;
            new_process "C" 0 1 9] [new_process "D" 5 1 9]).
  - reflexivity.
  - repeat constructor; cbn; lia.
  - repeat constructor.
Defined.

(** ** The status, the response time and the processor time of a run *)

Lemma complete_flagged (flag : Z -> Z -> status_flag) (now : Z) (p : process) :
  flagged flag (complete flag now p).
Proof.
  exists now. unfold complete. cbn. now split.
Qed.

(** Whatever the state, a turn leaves in the completed list records that
    carry the status of the policy. *)
Lemma turn_flagged (units : process -> Z) (flag : Z -> Z -> status_flag)
  (s s' : sim) (log : list slice) :
  turn units flag s s' log ->
  Forall (flagged flag) (cpu s) -> Forall (flagged flag) (cpu s').
Proof.
  intros [Hr Hp Hr' Hc Ht Hlate | p others adm n HP HA HR Hp Hn Ht Hcase] H.
  - now rewrite Hc.
  - cbv zeta in Hcase. destruct Hcase as [(_ & Hc & _) | (_ & Hc & _)];
      rewrite Hc; [|exact H].
    apply Forall_app. split; [exact H|].
    constructor; [apply complete_flagged|constructor].
Qed.

(** [rr] reports no deadline miss: whatever the input, every process of the
    list it returns has the status ['S'], also when it has ended after its
    deadline. *)
Theorem rr_status_always_success (fuel : nat) (ps : list process)
  (quantum : Z) (rest l : list process) :
  rr fuel ps quantum = Some (rest, Ok l) ->
  Forall (fun p => status p = Some S_) l.
Proof.
  unfold rr. intro H.
  destruct (while pending_or_ready (rr_iter quantum) fuel (initial ps))
    as [s|] eqn:Hw; [|discriminate].
  cbn in H. injection H as _ H.
  assert (Hcpu : Forall (flagged (fun _ _ => S_)) (cpu s)).
  { refine (proj1 (while_invariant pending_or_ready (rr_iter quantum)
                     (fun s => Forall (flagged (fun _ _ => S_)) (cpu s)) _
                     fuel (initial ps) s _ Hw)).
    - intros s0 H0 _. eapply turn_flagged; [|exact H0].
      exact (sched_iter_turn (fun l => l) (rr_units quantum) (fun _ _ => S_)
               same_permutation s0).
    - constructor. }
  eapply Forall_perm;
    [symmetry; apply sorted_by_start_time_permutation; exact H|].
  eapply Forall_impl; [|exact Hcpu]. intros p (e & _ & Hs). exact Hs.
Qed.

Lemma rr_status_always_success_witness :
  Forall (fun p => status p = Some S_) [ran P1 0 6 S_; ran P2_late 2 4 S_].
Proof.
  apply (rr_status_always_success 3 [P1; P2_late] 2 []).
  reflexivity.
Defined.

(** For a list of fresh processes with positive burst times, the response
    time of every process that [rr] (with a positive quantum) or [edf] returns
    is its start time minus its arrival time, and it is not negative. *)
Theorem response_time_is_start_minus_arrival (ps : list process)
  (quantum : Z) (fuel : nat) (rest l : list process) :
  Forall fresh ps ->
  Forall (fun p => 0 < burst_time p) ps ->
  (0 < quantum /\ rr fuel ps quantum = Some (rest, Ok l)) \/
  edf fuel ps = Some (rest, Ok l) ->
  Forall (fun p => exists st,
            start_time p = Some st /\
            response_time p = Some (st - arrival_time p) /\
            0 <= st - arrival_time p) l.
Proof.
  intros Hf Hb H.
  assert (Hdone : exists flag, Forall (done_ok flag) l).
  { destruct H as [[Hq H] | H].
    - destruct (rr_result ps Hf Hb quantum fuel _ Hq H)
        as (l' & _ & E & _ & _ & Hdone & _).
      injection E as _ <-. eexists. exact Hdone.
    - destruct (edf_result ps Hf Hb fuel _ H)
        as (l' & _ & E & _ & _ & Hdone & _).
      injection E as _ <-. eexists. exact Hdone. }
  destruct Hdone as [flag Hdone].
  eapply Forall_impl; [|exact Hdone].
  intros p (_ & _ & st & e & Hst & _ & Hr & _ & Ha & _).
  exists st. repeat split; auto. lia.
Qed.

Lemma response_time_is_start_minus_arrival_witness :
  Forall (fun p => exists st,
            start_time p = Some st /\
            response_time p = Some (st - arrival_time p) /\
            0 <= st - arrival_time p) [ran P1 0 6 S_; ran P2 2 4 S_].
Proof.
  apply (response_time_is_start_minus_arrival [P1; P2] 2 3 []).
  - repeat constructor.
  - repeat constructor.
  - left. split; reflexivity.
Defined.

(** For a list of fresh processes with positive burst times and distinct
    names, the slices that the schedule of a run gives to a process add up to
    its burst time, no more and no less. *)
Theorem processor_time_is_burst_time (ps : list process) (quantum : Z)
  (fuel : nat) (rest l : list process) (tr : list slice) :
  Forall fresh ps ->
  Forall (fun p => 0 < burst_time p) ps ->
  NoDup (map name ps) ->
  (0 < quantum /\ rr fuel ps quantum = Some (rest, Ok l) /\
   rr_trace fuel ps quantum = Some tr) \/
  (edf fuel ps = Some (rest, Ok l) /\ edf_trace fuel ps = Some tr) ->
  Forall (fun p => busy (runs (name p) tr) = burst_time p) l.
Proof.
  intros Hf Hb Hnd H.
  assert (Hlog : Forall (done_log tr) l).
  { destruct H as [(Hq & H & Htr) | (H & Htr)].
    - destruct (rr_result ps Hf Hb quantum fuel _ Hq H)
        as (l' & tr' & E & Htr' & _ & _ & Hlog).
      injection E as _ <-. rewrite Htr in Htr'. injection Htr' as <-. auto.
    - destruct (edf_result ps Hf Hb fuel _ H)
        as (l' & tr' & E & Htr' & _ & _ & Hlog).
      injection E as _ <-. rewrite Htr in Htr'. injection Htr' as <-. auto. }
  eapply Forall_impl; [|exact Hlog]. intros p [Hbusy _]. exact Hbusy.
Qed.

Lemma processor_time_is_burst_time_witness :
  Forall (fun p =>
            busy (runs (name p)
                    [("P1", 0, 1); ("P2", 1, 2); ("P2", 2, 3);
                     ("P1", 3, 4); ("P1", 4, 5); ("P1", 5, 6)]%string)
            = burst_time p)
    [ran P1 0 6 S_; ran P2 1 3 S_].
Proof.
  apply (processor_time_is_burst_time [P1; P2] 2 6 []).
  - repeat constructor.
  - repeat constructor.
  - repeat constructor; cbn; intuition discriminate.
  - right. split; reflexivity.
Defined.

(** ** The schedule of a run *)

(** An invariant of the turns holds of the state and of the schedule of a
    run that has ended. *)
Lemma sched_trace_invariant (select : list process -> list process)
  (units : process -> Z) (flag : Z -> Z -> status_flag)
  (Inv : sim -> list slice -> Prop) (ps : list process) (fuel : nat)
  (tr : list slice) :
  (forall l, Permutation (select l) l) ->
  Inv (initial ps) [] ->
  (forall s s' log log1,
     turn units flag s s' log1 -> Inv s log -> Inv s' (log ++ log1)) ->
  trace (sched_iter select units flag) (sched_dispatch select units flag)
    fuel ps = Some tr ->
  exists s,
    while pending_or_ready (sched_iter select units flag) fuel (initial ps)
    = Some s /\ Inv s tr.
Proof.
  intros Hsel Hinit Hturn. unfold trace.
  pose proof (while_logged (sched_iter select units flag)
                (sched_dispatch select units flag) fuel (initial ps) [])
    as Hl.
  destruct (while (fun sl => pending_or_ready (fst sl))
              (logged (sched_iter select units flag)
                 (sched_dispatch select units flag))
              fuel (initial ps, [])) as [[s tr']|] eqn:Hw; [|discriminate].
  cbn. intros [= <-]. exists s. split; [now rewrite <- Hl|].
  refine (proj1 (while_invariant _
                   (logged (sched_iter select units flag)
                      (sched_dispatch select units flag))
                   (fun sl => Inv (fst sl) (snd sl)) _
                   fuel (initial ps, []) (s, tr') Hinit Hw)).
  intros [s0 log0] H0 _. unfold logged. cbn [fst snd] in *.
  eapply Hturn; [|exact H0]. now apply sched_iter_turn.
Qed.

Lemma in_order_snoc (log : list slice) (from : Z) (n : string) (a b : Z) :
  in_order from log -> log_end from log <= a -> a <= b ->
  in_order from (log ++ [(n, a, b)]) /\
  log_end from (log ++ [(n, a, b)]) = b.
Proof.
  revert from. induction log as [|[[m a1] b1] log IH]; intros from H Ha Hb.
  - cbn. repeat split; auto.
  - cbn in H, Ha |- *. destruct H as (H1 & H2 & H3).
    destruct (IH b1 H3 Ha Hb) as [IH1 IH2]. repeat split; auto.
Qed.

(** A turn keeps the schedule in time order, and behind the clock. *)
Lemma turn_in_order (units : process -> Z) (flag : Z -> Z -> status_flag)
  (s s' : sim) (log log1 : list slice) :
  turn units flag s s' log1 ->
  in_order 0 log /\ log_end 0 log <= current_time s ->
  in_order 0 (log ++ log1) /\ log_end 0 (log ++ log1) <= current_time s'.
Proof.
  intros [Hr Hp Hr' Hc Ht Hlate | p others adm n HP HA HR Hp Hn Ht Hcase]
    [Ho He].
  - rewrite app_nil_r. split; [exact Ho|lia].
  - destruct (in_order_snoc log 0 (name p) (current_time s) (current_time s')
                Ho He) as [H1 H2]; [lia|].
    split; [exact H1|lia].
Qed.

(** The processor is given to one process at a time: whatever the input, in
    the schedule of a run of [rr] or of [edf] the slices follow one another in
    time from time 0 on, none beginning before the previous one has ended. *)
Theorem schedule_in_time_order (fuel : nat) (ps : list process) (quantum : Z)
  (tr : list slice) :
  rr_trace fuel ps quantum = Some tr \/ edf_trace fuel ps = Some tr ->
  in_order 0 tr.
Proof.
  intros [H | H].
  - destruct (sched_trace_invariant (fun l => l) (rr_units quantum)
                (fun _ _ => S_)
                (fun s log => in_order 0 log /\ log_end 0 log <= current_time s)
                ps fuel tr same_permutation) as (s & _ & Ho & _); auto.
    + cbn. split; [exact I|lia].
    + intros s s' log log1. apply turn_in_order.
  - rewrite edf_trace_sched in H.
    destruct (sched_trace_invariant (sort_by deadline) (fun _ => 1) edf_flag
                (fun s log => in_order 0 log /\ log_end 0 log <= current_time s)
                ps fuel tr (sort_by_permutation deadline))
      as (s & _ & Ho & _); auto.
    + cbn. split; [exact I|lia].
    + intros s s' log log1. apply turn_in_order.
Qed.

Lemma schedule_in_time_order_witness :
  in_order 0 [("P1", 0, 2); ("P2", 2, 4); ("P1", 4, 6)]%string.
Proof.
  apply (schedule_in_time_order 3 [P1; P2] 2).
  left. reflexivity.
Defined.

(** The slice of a turn lasts as many units as the policy gives to the
    dispatched process, one at least. *)
Lemma turn_slice_units (units : process -> Z) (flag : Z -> Z -> status_flag)
  (ps : list process) (s s' : sim) (log1 : list slice) :
  (forall p, 0 < remaining_time p -> 1 <= units p <= remaining_time p) ->
  turn units flag s s' log1 -> inv flag ps s ->
  Forall (fun sl => exists p, slice_length sl = units p /\ 1 <= units p) log1.
Proof.
  intros Hu [Hr Hp Hr' Hc Ht Hlate | p others adm n HP HA HR Hp Hn Ht Hcase]
    (_ & Hpend & Hready & _); [constructor|].
  constructor; [|constructor].
  apply pending_ok_remaining in Hpend. apply ready_ok_remaining in Hready.
  assert (Hp_pos : 0 < remaining_time p).
  { assert (Hin : In p (ready_queue s ++ adm))
      by (eapply Permutation_in; [symmetry; exact HR|now left]).
    assert (Hadm : Forall (fun q => 0 < remaining_time q) adm).
    { eapply Forall_perm in Hpend; [|exact HP].
      now apply Forall_app in Hpend. }
    rewrite Forall_forall in Hready, Hadm.
    apply in_app_or in Hin. destruct Hin; auto. }
  pose proof (Hu (first_dispatch (current_time s) p)) as Hk.
  rewrite first_dispatch_remaining_time in Hk. specialize (Hk Hp_pos).
  exists (first_dispatch (current_time s) p).
  unfold slice_length. cbn [fst snd]. split; [|lia].
  rewrite Ht, Hn, Z2Nat.id; lia.
Qed.

Lemma trace_slice_units (select : list process -> list process)
  (units : process -> Z) (flag : Z -> Z -> status_flag)
  (ps : list process) (fuel : nat) (tr : list slice) :
  (forall l, Permutation (select l) l) ->
  (forall p, 0 < remaining_time p -> 1 <= units p <= remaining_time p) ->
  Forall fresh ps ->
  Forall (fun p => 0 < burst_time p) ps ->
  trace (sched_iter select units flag) (sched_dispatch select units flag)
    fuel ps = Some tr ->
  Forall (fun sl => exists p, slice_length sl = units p /\ 1 <= units p) tr.
Proof.
  intros Hsel Hu Hf Hb H.
  destruct (sched_trace_invariant select units flag
              (fun s log =>
                 inv flag ps s /\
                 Forall (fun sl => exists p,
                           slice_length sl = units p /\ 1 <= units p) log)
              ps fuel tr Hsel) as (s & _ & _ & Hlog); auto.
  - split; [|constructor].
    exact (inv_initial flag ps Hf Hb).
  - intros s s' log log1 Hturn [Hinv Hlog]. split.
    + exact (turn_inv _ _ Hu _ _ _ _ Hturn Hinv).
    + apply Forall_app. split; [exact Hlog|].
      exact (turn_slice_units _ _ _ _ _ _ Hu Hturn Hinv).
Qed.

(** For a list of fresh processes with positive burst times and a positive
    quantum, every slice of the schedule of [rr] lasts one unit at least and
    the quantum at most. *)
Theorem rr_slices_within_quantum (fuel : nat) (ps : list process)
  (quantum : Z) (tr : list slice) :
  Forall fresh ps ->
  Forall (fun p => 0 < burst_time p) ps ->
  0 < quantum ->
  rr_trace fuel ps quantum = Some tr ->
  Forall (fun sl => 1 <= slice_length sl <= quantum) tr.
Proof.
  intros Hf Hb Hq H.
  pose proof (trace_slice_units (fun l => l) (rr_units quantum)
                (fun _ _ => S_) ps fuel tr same_permutation
                (rr_units_bounds quantum Hq) Hf Hb H) as Hu.
  eapply Forall_impl; [|exact Hu].
  intros sl (p & -> & H1). unfold rr_units in *. lia.
Qed.

Lemma rr_slices_within_quantum_witness :
  Forall (fun sl => 1 <= slice_length sl <= 2)
    [("P1", 0, 2); ("P2", 2, 4); ("P1", 4, 6)]%string.
Proof.
  apply (rr_slices_within_quantum 3 [P1; P2] 2).
  - repeat constructor.
  - repeat constructor.
  - reflexivity.
  - reflexivity.
Defined.

(** For a list of fresh processes with positive burst times, every slice of
    the schedule of [edf] lasts exactly one unit: the choice of the process is
    made again after every unit of time. *)
Theorem edf_slices_are_units (fuel : nat) (ps : list process)
  (tr : list slice) :
  Forall fresh ps ->
  Forall (fun p => 0 < burst_time p) ps ->
  edf_trace fuel ps = Some tr ->
  Forall (fun sl => slice_length sl = 1) tr.
Proof.
  intros Hf Hb H. rewrite edf_trace_sched in H.
  pose proof (trace_slice_units (sort_by deadline) (fun _ => 1) edf_flag
                ps fuel tr (sort_by_permutation deadline)
                edf_units_bounds Hf Hb H) as Hu.
  eapply Forall_impl; [|exact Hu]. intros sl (p & -> & _). reflexivity.
Qed.

Lemma edf_slices_are_units_witness :
  Forall (fun sl => slice_length sl = 1)
    [("P1", 0, 1); ("P2", 1, 2); ("P2", 2, 3);
     ("P1", 3, 4); ("P1", 4, 5); ("P1", 5, 6)]%string.
Proof.
  apply (edf_slices_are_units 6 [P1; P2]).
  - repeat constructor.
  - repeat constructor.
  - reflexivity.
Defined.

(** ** The clock of a run *)

Lemma executed_app (l l' : list process) :
  executed (l ++ l') = executed l + executed l'.
Proof.
  induction l as [|p l IH]; cbn; [reflexivity|].
  fold (executed (l ++ l')). fold (executed l). lia.
Qed.

Lemma executed_permutation (l l' : list process) :
  Permutation l l' -> executed l = executed l'.
Proof.
  induction 1; cbn; try fold (executed l); try fold (executed l'); lia.
Qed.

Lemma executed_nonneg (l : list process) :
  Forall (fun p => remaining_time p <= burst_time p) l -> 0 <= executed l.
Proof.
  induction 1; cbn; [lia|]. fold (executed l). lia.
Qed.

Lemma executed_done (l : list process) :
  Forall (fun p => remaining_time p = 0) l ->
  executed l = sum (map burst_time l).
Proof.
  induction 1 as [|p l Hp _ IH]; cbn; [reflexivity|].
  fold (executed l). fold (sum (map burst_time l)). lia.
Qed.

Lemma sum_permutation (l l' : list Z) : Permutation l l' -> sum l = sum l'.
Proof.
  induction 1; cbn; try fold (sum l); try fold (sum l'); lia.
Qed.

Lemma burst_time_descriptor (l : list process) :
  map burst_time l = map (fun d => snd (fst d)) (map descriptor l).
Proof.
  now rewrite map_map.
Qed.

Lemma inv_remaining_le (flag : Z -> Z -> status_flag) (ps : list process)
  (s : sim) :
  inv flag ps s -> Forall (fun p => remaining_time p <= burst_time p) (live s).
Proof.
  intros (_ & Hpend & Hready & Hdone). unfold live.
  apply Forall_app. split; [|apply Forall_app; split].
  - eapply Forall_impl; [|exact Hpend]. intros p [[_ Hr] _]. lia.
  - eapply Forall_impl; [|exact Hready]. intros p (_ & Hr & _). lia.
  - eapply Forall_impl; [|exact Hdone]. intros p (Hz & Hb & _). lia.
Qed.

(** No process of a run arrives after the latest arrival of the input. *)
Lemma inv_arrival_gap (flag : Z -> Z -> status_flag) (ps : list process)
  (s : sim) (p : process) :
  inv flag ps s -> In p (live s) -> arrival_time p <= gap 0 ps.
Proof.
  intros (Hperm & _) Hp.
  assert (Hin : In (descriptor p) (map descriptor ps))
    by (eapply Permutation_in; [exact Hperm|now apply in_map]).
  apply in_map_iff in Hin. destruct Hin as (q & Eq & Hq).
  pose proof (gap_bound 0 ps q Hq) as Hg. unfold descriptor in Eq.
  injection Eq as _ Ea _ _. lia.
Qed.

(** The list of the objects of the run after a turn that has dispatched. *)
Lemma turn_run_live_after (flag : Z -> Z -> status_flag) (s s' : sim)
  (p : process) (others : list process) (n : nat) :
  (let p2 := set_remaining_time (remaining_time p - Z.of_nat n)
               (first_dispatch (current_time s) p) in
   (remaining_time p2 = 0 /\
    cpu s' = cpu s ++ [complete flag (current_time s') p2] /\
    Permutation (ready_queue s') others) \/
   (remaining_time p2 <> 0 /\
    cpu s' = cpu s /\
    Permutation (ready_queue s') (p2 :: others))) ->
  exists p',
    Permutation (live s') (p' :: others ++ processes s' ++ cpu s) /\
    burst_time p' = burst_time p /\
    remaining_time p' = remaining_time p - Z.of_nat n.
Proof.
  cbv zeta. intros [(Hz & Hc & Hq) | (Hz & Hc & Hq)].
  - eexists. split; [|split].
    + unfold live. rewrite Hc, Hq.
      etransitivity; [|symmetry; apply Permutation_cons_append].
      rewrite Permutation_app_swap_app, <- !app_assoc. reflexivity.
    + unfold complete, first_dispatch. cbn. now destruct (response_time p).
    + reflexivity.
  - eexists. split; [|split].
    + unfold live. rewrite Hc, Hq. cbn [app].
      etransitivity; [symmetry; apply Permutation_middle|].
      constructor. apply Permutation_app_swap_app.
    + unfold first_dispatch. cbn. now destruct (response_time p).
    + reflexivity.
Qed.

Section Clock.
Variable units : process -> Z.
Variable flag : Z -> Z -> status_flag.
Hypothesis units_bounds :
  forall p, 0 < remaining_time p -> 1 <= units p <= remaining_time p.

(** A turn of a loop that has something left to run keeps the clock. *)
Lemma turn_inv_clock (ps : list process) (s s' : sim) (log : list slice) :
  turn units flag s s' log -> pending_or_ready s = true ->
  inv_clock flag ps s -> inv_clock flag ps s'.
Proof.
  intros Hturn Hcond (Hinv & [Hlo Hhi] & Hend & _).
  pose proof (turn_inv _ _ units_bounds _ _ _ _ Hturn Hinv) as Hinv'.
  split; [exact Hinv'|].
  pose proof (executed_nonneg _ (inv_remaining_le _ _ _ Hinv)) as Hnn.
  destruct Hturn
    as [Hr Hp Hr' Hc Ht Hlate | p others adm n HP HA HR Hp Hn Ht Hcase].
  - assert (Hlive : live s' = live s) by (unfold live; congruence).
    rewrite Hlive, Ht.
    assert (Hne : exists q, In q (processes s)).
    { unfold pending_or_ready in Hcond. rewrite Hr in Hcond.
      destruct (processes s) as [|q l]; [discriminate|].
      exists q. now left. }
    destruct Hne as [q Hq].
    assert (Hq_late : current_time s < arrival_time q)
      by (rewrite Forall_forall in Hlate; now apply Hlate).
    assert (Hq_gap : arrival_time q <= gap 0 ps).
    { apply (inv_arrival_gap flag ps s q Hinv). unfold live.
      apply in_or_app. now left. }
    split; [lia|]. split.
    + rewrite Hc. eapply Forall_impl; [|exact Hend].
      intros x (e & He & Hle). exists e. split; [exact He|lia].
    + left. unfold pending_or_ready. rewrite Hp.
      destruct (processes s); [contradiction|reflexivity].
  - pose proof (turn_run_live _ _ (cpu s) _ _ _ _ HP HR) as Hlive.
    fold (live s) in Hlive.
    destruct (turn_run_live_after flag s s' p others n Hcase)
      as (p' & Hlive' & Hb' & Hr').
    assert (Hexec : executed (live s') = executed (live s) + Z.of_nat n).
    { rewrite (executed_permutation _ _ Hlive),
        (executed_permutation _ _ Hlive').
      cbn. fold (executed (others ++ processes s' ++ cpu s)). lia. }
    rewrite Hexec, Ht. split; [lia|].
    assert (Hlater : current_time s <= current_time s + Z.of_nat n) by lia.
    cbv zeta in Hcase. destruct Hcase as [(Hz & Hc & Hq) | (Hz & Hc & Hq)].
    + split.
      * rewrite Hc. apply Forall_app. split.
        -- eapply Forall_impl; [|exact Hend].
           intros x (e & He & Hle). exists e. split; [exact He|lia].
        -- constructor; [|constructor]. exists (current_time s').
           split; [reflexivity|lia].
      * right. right. eexists. split.
        -- rewrite Hc. apply in_or_app. right. now left.
        -- cbn. now rewrite Ht.
    + split.
      * rewrite Hc. eapply Forall_impl; [|exact Hend].
        intros x (e & He & Hle). exists e. split; [exact He|lia].
      * left. unfold pending_or_ready.
        destruct (ready_queue s') as [|x l].
        -- apply Permutation_nil in Hq. discriminate.
        -- now destruct (processes s').
Qed.
End Clock.

Lemma executed_fresh (l : list process) :
  Forall fresh l -> executed l = 0.
Proof.
  induction 1 as [|p l Hp _ IH]; cbn; [reflexivity|].
  fold (executed l). rewrite IH.
  destruct (fresh_unstarted p Hp) as [_ Hr]. lia.
Qed.

Section ClockOfRun.
Variable select : list process -> list process.
Variable units : process -> Z.
Variable flag : Z -> Z -> status_flag.
Hypothesis select_permutation : forall l, Permutation (select l) l.
Hypothesis units_bounds :
  forall p, 0 < remaining_time p -> 1 <= units p <= remaining_time p.

Variable ps : list process.
Hypothesis ps_nonempty : ps <> [].
Hypothesis ps_fresh : Forall fresh ps.
Hypothesis ps_burst : Forall (fun p => 0 < burst_time p) ps.

Lemma inv_clock_initial : inv_clock flag ps (initial ps).
Proof.
  split; [exact (inv_initial flag ps ps_fresh ps_burst)|].
  assert (Hexec : executed (live (initial ps)) = 0).
  { unfold live, initial. cbn [processes ready_queue cpu].
    rewrite !app_nil_r.
    rewrite (executed_permutation _ _ (sort_by_permutation arrival_time ps)).
    now apply executed_fresh. }
  rewrite Hexec. cbn. split; [|split; [constructor|right; now left]].
  pose proof (gap_nonneg 0 ps). lia.
Qed.

(** When the loop has ended, the latest end time is the clock, which lies
    between the sum of the burst times and that sum plus the latest
    arrival. *)
Lemma sched_last_finish (fuel : nat) (out : outcome) :
  option_map finish
    (while pending_or_ready (sched_iter select units flag) fuel (initial ps))
  = Some out ->
  exists l t,
    out = ([], Ok l) /\
    last_finish l = Ok (Some t) /\
    sum (map burst_time ps) <= t <= sum (map burst_time ps) + gap 0 ps.
Proof.
  destruct (while pending_or_ready (sched_iter select units flag) fuel
              (initial ps)) as [s|] eqn:Hw; [|discriminate].
  cbn. intros [= <-].
  destruct (while_invariant pending_or_ready (sched_iter select units flag)
              (inv_clock flag ps)
              (fun s0 H0 Hc =>
                 turn_inv_clock _ _ units_bounds _ _ _ _
                   (sched_iter_turn _ _ _ select_permutation s0) Hc H0)
              fuel (initial ps) s inv_clock_initial Hw)
    as [(Hinv & Hclock & Hend & Hlast) Hc].
  assert (Hp : processes s = [] /\ ready_queue s = []).
  { unfold pending_or_ready in Hc. destruct (processes s); [|discriminate].
    destruct (ready_queue s); [|discriminate]. now split. }
  destruct Hp as [Hp Hr].
  destruct Hinv as (Hperm & _ & _ & Hdone).
  destruct (sorted_by_start_time_done _ _ Hdone) as (l & Hl & Hpl).
  exists l. unfold finish. rewrite Hp, Hl.
  assert (Hlive : live s = cpu s) by (unfold live; now rewrite Hp, Hr).
  rewrite Hlive in Hperm, Hclock.
  assert (Hsum : executed (cpu s) = sum (map burst_time ps)).
  { rewrite executed_done.
    - rewrite !burst_time_descriptor. apply sum_permutation.
      now apply Permutation_map.
    - eapply Forall_impl; [|exact Hdone]. now intros p (Hz & _). }
  rewrite Hsum in Hclock.
  assert (Hne : l <> []).
  { intros ->. apply Permutation_nil in Hpl. rewrite Hpl in Hperm.
    apply Permutation_nil in Hperm.
    destruct ps; [now apply ps_nonempty|discriminate]. }
  assert (Hcompleted : Forall (fun p => end_time p <> None) l).
  { eapply Forall_perm; [symmetry; exact Hpl|].
    eapply Forall_impl; [|exact Hend].
    intros p (e & He & _). rewrite He. discriminate. }
  destruct (last_finish_latest l Hne Hcompleted) as (t & Ht & Hup & Hat).
  exists t. split; [reflexivity|]. split; [exact Ht|].
  assert (Ht_clock : t = current_time s).
  { apply Z.le_antisymm.
    - apply Exists_exists in Hat. destruct Hat as (p & Hp_in & He).
      rewrite Forall_forall in Hend.
      destruct (Hend p) as (e & He' & Hle).
      + eapply Permutation_in; [exact Hpl|exact Hp_in].
      + rewrite He in He'. injection He' as <-. exact Hle.
    - rewrite Hc in Hlast. destruct Hlast as [Hf | [Hnil | (p & Hp_in & He)]].
      + discriminate.
      + rewrite Hnil in Hpl. symmetry in Hpl.
        apply Permutation_nil in Hpl. contradiction.
      + rewrite Forall_forall in Hup. apply (Hup p); [|exact He].
        eapply Permutation_in; [symmetry; exact Hpl|exact Hp_in]. }
  rewrite Ht_clock. exact Hclock.
Qed.
End ClockOfRun.

(** For a non-empty list of fresh processes with positive burst times (and
    a positive quantum for [rr]), the latest end time of the list that [rr]
    or [edf] returns, which [calculate_metrics] takes as the total time, is at
    least the sum of the burst times, and at most that sum plus the latest
    arrival time: the processor is idle only while it waits for an
    arrival. *)
Theorem last_finish_bounds (ps : list process) (quantum : Z) (fuel : nat)
  (rest l : list process) :
  ps <> [] ->
  Forall fresh ps ->
  Forall (fun p => 0 < burst_time p) ps ->
  (0 < quantum /\ rr fuel ps quantum = Some (rest, Ok l)) \/
  edf fuel ps = Some (rest, Ok l) ->
  exists t,
    last_finish l = Ok (Some t) /\
    sum (map burst_time ps) <= t <= sum (map burst_time ps) + gap 0 ps.
Proof.
  intros Hne Hf Hb [[Hq H] | H].
  - destruct (sched_last_finish (fun l => l) (rr_units quantum)
                (fun _ _ => S_) same_permutation
                (rr_units_bounds quantum Hq) ps Hne Hf Hb fuel _ H)
      as (l' & t & E & Ht & Hbounds).
    injection E as _ <-. now exists t.
  - unfold edf in H. rewrite edf_while in H.
    destruct (sched_last_finish (sort_by deadline) (fun _ => 1) edf_flag
                (sort_by_permutation deadline) edf_units_bounds
                ps Hne Hf Hb fuel _ H)
      as (l' & t & E & Ht & Hbounds).
    injection E as _ <-. now exists t.
Qed.

Lemma last_finish_bounds_witness :
  exists t,
    last_finish [ran P1 0 6 S_; ran P2 2 4 S_] = Ok (Some t) /\
    sum (map burst_time [P1; P2]) <= t
    <= sum (map burst_time [P1; P2]) + gap 0 [P1; P2].
Proof.
  apply (last_finish_bounds [P1; P2] 2 3 []).
  - discriminate.
  - repeat constructor.
  - repeat constructor.
  - left. split; reflexivity.
Defined.

(** ** Runs that do not end *)

Lemma while_never {St : Type} (cond : St -> bool) (body : St -> St)
  (Inv : St -> Prop) :
  (forall s, Inv s -> cond s = true /\ Inv (body s)) ->
  forall n s, Inv s -> while cond body n s = None.
Proof.
  intros H n. induction n as [|n IH]; intros s Hs;
    destruct (H s Hs) as [Hc Hb]; cbn; rewrite Hc; [reflexivity|].
  now apply IH.
Qed.

Lemma stuck_pending_or_ready (bad : Z -> Prop) (s : sim) :
  stuck bad s -> pending_or_ready s = true.
Proof.
  unfold stuck, pending_or_ready. intro H. apply Exists_exists in H.
  destruct H as (p & Hin & _).
  destruct (processes s); [|reflexivity].
  destruct (ready_queue s); [contradiction|reflexivity].
Qed.

Section Stuck.
Variable select : list process -> list process.
Variable units : process -> Z.
Variable flag : Z -> Z -> status_flag.
Hypothesis select_permutation : forall l, Permutation (select l) l.

(** A remaining time that is [bad] stays so, and does not become 0, when the
    process is dispatched. *)
Variable bad : Z -> Prop.
Hypothesis bad_stays :
  forall now p,
    bad (remaining_time p) ->
    bad (remaining_time p
         - Z.of_nat (Z.to_nat (units (first_dispatch now p)))) /\
    remaining_time p
    - Z.of_nat (Z.to_nat (units (first_dispatch now p))) <> 0.

Lemma turn_stuck (s s' : sim) (log : list slice) :
  turn units flag s s' log -> stuck bad s -> stuck bad s'.
Proof.
  unfold stuck.
  intros [Hr Hp Hr' Hc Ht Hlate | p others adm n HP HA HR Hp Hn Ht Hcase] H.
  - now rewrite Hp, Hr', <- Hr.
  - apply Exists_exists in H. destruct H as (q & Hin & Hbad).
    apply Exists_exists.
    assert (Hq : In q (processes s') \/ In q (p :: others)).
    { apply in_app_or in Hin. destruct Hin as [Hin | Hin].
      - apply (Permutation_in _ HP) in Hin. apply in_app_or in Hin.
        destruct Hin as [Hin | Hin]; [right|now left].
        eapply Permutation_in; [exact HR|]. apply in_or_app. now right.
      - right. eapply Permutation_in; [exact HR|]. apply in_or_app.
        now left. }
    cbv zeta in Hcase.
    destruct Hq as [Hq | [<- | Hq]].
    + exists q. split; [apply in_or_app; now left|exact Hbad].
    + destruct (bad_stays (current_time s) p Hbad) as [Hb Hz].
      rewrite <- Hn in Hb, Hz.
      destruct Hcase as [(Hz' & _) | (_ & _ & Hq')].
      * cbn in Hz'. contradiction.
      * eexists. split.
        -- apply in_or_app. right.
           eapply Permutation_in; [symmetry; exact Hq'|now left].
        -- cbn. exact Hb.
    + exists q. split; [|exact Hbad]. apply in_or_app. right.
      destruct Hcase as [(_ & _ & Hq') | (_ & _ & Hq')];
        (eapply Permutation_in; [symmetry; exact Hq'|]);
        [exact Hq|now right].
Qed.

(** A run that starts with such a process never ends. *)
Lemma sched_never_ends (ps : list process) (fuel : nat) :
  Exists (fun p => bad (remaining_time p)) ps ->
  while pending_or_ready (sched_iter select units flag) fuel (initial ps)
  = None.
Proof.
  intro H. apply (while_never _ _ (stuck bad)).
  - intros s Hs. split; [now apply (stuck_pending_or_ready bad)|].
    eapply turn_stuck; [|exact Hs]. now apply sched_iter_turn.
  - unfold stuck, initial. cbn [processes ready_queue]. rewrite app_nil_r.
    apply Exists_exists in H. destruct H as (p & Hin & Hb).
    apply Exists_exists. exists p. split; [|exact Hb].
    eapply Permutation_in; [symmetry; apply sort_by_permutation|exact Hin].
Qed.
End Stuck.

(** With a quantum that is not positive, [rr] never returns as soon as one
    process of the input has a remaining time other than 0 (for a process as
    the constructor builds it: a burst time other than 0): no fuel lets the
    loop end. *)
Theorem rr_never_returns_without_quantum (fuel : nat) (ps : list process)
  (quantum : Z) :
  quantum <= 0 ->
  Exists (fun p => remaining_time p <> 0) ps ->
  rr fuel ps quantum = None.
Proof.
  intros Hq H. unfold rr.
  change (rr_iter quantum)
    with (sched_iter (fun l => l) (rr_units quantum) (fun _ _ => S_)).
  rewrite (sched_never_ends (fun l => l) (rr_units quantum) (fun _ _ => S_)
             same_permutation (fun r => r <> 0)); [reflexivity| |exact H].
  intros now p Hp. cbn beta in *. unfold rr_units.
  rewrite first_dispatch_remaining_time.
  replace (Z.to_nat (Z.min quantum (remaining_time p))) with 0%nat by lia.
  cbn. rewrite Z.sub_0_r. now split.
Qed.

Lemma rr_never_returns_without_quantum_witness :
  rr 100 [P1; P2] 0 = None.
Proof.
  apply (rr_never_returns_without_quantum 100 [P1; P2] 0).
  - lia.
  - left. cbn. discriminate.
Defined.

(** [rr] never returns when a process of the input has a negative remaining
    time (for a process as the constructor builds it: a negative burst time),
    whatever the quantum. *)
Theorem rr_never_returns_on_negative_burst (fuel : nat) (ps : list process)
  (quantum : Z) :
  Exists (fun p => remaining_time p < 0) ps ->
  rr fuel ps quantum = None.
Proof.
  intros H. unfold rr.
  change (rr_iter quantum)
    with (sched_iter (fun l => l) (rr_units quantum) (fun _ _ => S_)).
  rewrite (sched_never_ends (fun l => l) (rr_units quantum) (fun _ _ => S_)
             same_permutation (fun r => r < 0)); [reflexivity| |exact H].
  intros now p Hp. cbn beta in *. unfold rr_units.
  rewrite first_dispatch_remaining_time.
  replace (Z.to_nat (Z.min quantum (remaining_time p))) with 0%nat by lia.
  cbn. rewrite Z.sub_0_r. split; lia.
Qed.

Lemma rr_never_returns_on_negative_burst_witness :
  rr 100 [P1; new_process "N" 0 (-1) 5] 2 = None.
Proof.
  apply (rr_never_returns_on_negative_burst 100).
  right. left. cbn. lia.
Defined.

(** [edf] never returns when a process of the input has a remaining time
    that is not positive (for a process as the constructor builds it: a burst
    time of 0 or less): its remaining time goes below 0 and is never 0
    again. *)
Theorem edf_never_returns_on_nonpositive_burst (fuel : nat)
  (ps : list process) :
  Exists (fun p => remaining_time p <= 0) ps ->
  edf fuel ps = None.
Proof.
  intros H. unfold edf. rewrite edf_while.
  rewrite (sched_never_ends (sort_by deadline) (fun _ => 1) edf_flag
             (sort_by_permutation deadline) (fun r => r <= 0));
    [reflexivity| |exact H].
  intros now p Hp. cbn. split; lia.
Qed.

Lemma edf_never_returns_on_nonpositive_burst_witness :
  edf 100 [P1; new_process "Z" 0 0 5] = None.
Proof.
  apply (edf_never_returns_on_nonpositive_burst 100).
  right. left. cbn. lia.
Defined.

(** ** The choice of edf *)




(** ** More on calculate_metrics *)

Lemma integers_none (l : list (option Z)) :
  In None l -> integers l = Raise TypeError.
Proof.
  induction l as [|[z|] l IH]; cbn; [contradiction| |reflexivity].
  intros [H | H]; [discriminate|]. now rewrite (IH H).
Qed.

Lemma done_ok_times_of_run (flag : Z -> Z -> status_flag) (p : process) :
  done_ok flag p -> times_of_run (assign p).
Proof.
  intros (_ & Hb & st & e & Hst & He & Hr & _ & Ha & Hend).
  unfold assign. rewrite He.
  exists (e - arrival_time p - burst_time p), (st - arrival_time p),
    (e - arrival_time p).
  cbn. rewrite Hr. repeat split; lia.
Qed.

Section MetricsMore.
Variable float : Type.
Variable true_div : Z -> Z -> option float.
Variable round2 : float -> float.
Variable times100 : float -> float.
Variable float_gt : float -> float -> bool.

(** [calculate_metrics] assigns [turnaround_time] and [waiting_time] and
    nothing else: whatever the list and whether the call returns or raises,
    the list it leaves has the same records in the same order, with every
    other attribute as it was. *)
Theorem calculate_metrics_frame (cpu : list process) :
  Forall2 same_but_times cpu
    (fst (calculate_metrics true_div round2 times100 float_gt cpu)).
Proof.
  rewrite calculate_metrics_state.
  destruct (last_finish cpu);
    [apply assign_times_frame|apply same_but_times_refl].
Qed.

(** When a record of the list has no [end_time], [calculate_metrics] raises
    [TypeError], and leaves every record as it was. *)
Theorem calculate_metrics_unset_end_time (cpu : list process) :
  Exists (fun p => end_time p = None) cpu ->
  calculate_metrics true_div round2 times100 float_gt cpu
  = (cpu, Raise TypeError).
Proof.
  intro H. unfold calculate_metrics. rewrite last_finish_map.
  destruct cpu as [|p [|q rest]].
  - inversion H.
  - inversion H as [? ? Hp | ? ? Hp]; subst; [|inversion Hp].
    cbn [map finish_of]. rewrite (assign_times_stop _ _ Hp), Hp.
    reflexivity.
  - cbn [map finish_of]. destruct (end_time p) as [e|] eqn:He;
      [|reflexivity].
    inversion H as [? ? Hp | ? ? Hp]; subst; [congruence|].
    change (end_time q :: map end_time rest) with (map end_time (q :: rest)).
    rewrite integers_none; [reflexivity|].
    apply Exists_exists in Hp. destruct Hp as (x & Hx & Ex).
    rewrite <- Ex. now apply in_map.
Qed.

Lemma average_float (a n : Z) (x : number float) :
  0 < n -> average true_div round2 a n = Ok x -> exists y, x = Float y.
Proof.
  intros Hn. unfold average. apply Z.ltb_lt in Hn. rewrite Hn.
  destruct (divide true_div a n); cbn; [|discriminate].
  intros [= <-]. now eexists.
Qed.

(** The [else 0] of the three averages is never taken: a tuple that
    [calculate_metrics] returns is made of six floats. *)
Theorem calculate_metrics_returns_floats (cpu cpu' : list process)
  (m : metrics float) :
  calculate_metrics true_div round2 times100 float_gt cpu = (cpu', Ok m) ->
  exists awt art att throughput utilization proportionality,
    m = (Float awt, Float art, Float att, Float throughput,
         Float utilization, Float proportionality).
Proof.
  unfold calculate_metrics.
  destruct cpu as [|p rest]; [discriminate|].
  destruct (last_finish (p :: rest)) as [t|]; [|discriminate].
  destruct (end_time p) as [e|] eqn:He.
  - rewrite (assign_times_cons _ _ _ He).
    destruct (snd (assign_times rest)) as [[]|]; [|discriminate].
    intros [= <- H]. unfold aggregate in H.
    set (n := Z.of_nat _) in H.
    assert (Hn : 0 < n) by (subst n; cbn [List.length]; lia).
    destruct (total _) as [w|]; [|discriminate].
    destruct (total _) as [ta|]; [|discriminate].
    destruct (total _) as [r|]; [|discriminate].
    cbn [bind] in H.
    destruct (average true_div round2 w n) as [awt|] eqn:E1; [|discriminate].
    destruct (average true_div round2 r n) as [art|] eqn:E2; [|discriminate].
    destruct (average true_div round2 ta n) as [att|] eqn:E3; [|discriminate].
    cbn [bind] in H.
    destruct (rounded_ratio _ _ _ _) as [th|]; [|discriminate].
    destruct (rounded_percentage _ _ _ _ _) as [ut|]; [|discriminate].
    destruct (max_stretch _ _ _ _) as [pr|]; [|discriminate].
    cbn [bind] in H. injection H as <-.
    destruct (average_float _ _ _ Hn E1) as [x1 ->].
    destruct (average_float _ _ _ Hn E2) as [x2 ->].
    destruct (average_float _ _ _ Hn E3) as [x3 ->].
    now exists x1, x2, x3, th, ut, pr.
  - rewrite (assign_times_stop _ _ He). discriminate.
Qed.
End MetricsMore.

Lemma calculate_metrics_unset_end_time_witness :
  Exact.calculate [ran P1 0 6 S_; P2] = ([ran P1 0 6 S_; P2], Raise TypeError).
Proof.
  apply (calculate_metrics_unset_end_time Q Exact.true_div Exact.round2
           Exact.times100 Exact.float_gt).
  right. left. reflexivity.
Defined.

Lemma calculate_metrics_returns_floats_witness :
  exists awt art att throughput utilization proportionality,
    (Float 0%Q, Float 0%Q, Float 5%Q, Float (1 # 5)%Q, Float 100%Q,
     Float 1%Q)
    = (Float awt, Float art, Float att, Float throughput,
       Float utilization, Float proportionality).
Proof.
  apply (calculate_metrics_returns_floats Q Exact.true_div Exact.round2
           Exact.times100 Exact.float_gt
           [ran (new_process "A" 0 5 10) 0 5 S_]
           (map assign [ran (new_process "A" 0 5 10) 0 5 S_])).
  vm_compute. reflexivity.
Defined.

Section MetricsErrors.
Variable float : Type.
Variable true_div : Z -> Z -> option float.
Variable round2 : float -> float.
Variable times100 : float -> float.
Variable float_gt : float -> float -> bool.
Hypothesis true_div_no_overflow : no_overflow true_div.


(** For a list of fresh processes with positive burst times (and a positive
    quantum for [rr]), [calculate_metrics] leaves the list that [rr] or [edf]
    has returned with the same records in the same order, each with a
    response time that is not negative, a waiting time that is not smaller
    than the response time, and a turnaround time that is the waiting time
    plus the burst time. *)
Theorem metrics_times_of_run (ps : list process) (quantum : Z) (fuel : nat)
  (rest l : list process) :
  Forall fresh ps ->
  Forall (fun p => 0 < burst_time p) ps ->
  (0 < quantum /\ rr fuel ps quantum = Some (rest, Ok l)) \/
  edf fuel ps = Some (rest, Ok l) ->
  Forall2 (fun p p' => same_but_times p p' /\ times_of_run p') l
    (fst (calculate_metrics true_div round2 times100 float_gt l)).
Proof.
  intros Hf Hb H.
  assert (Hdone : exists flag, Forall (done_ok flag) l).
  { destruct H as [[Hq H] | H].
    - destruct (rr_result ps Hf Hb quantum fuel _ Hq H)
        as (l' & _ & E & _ & _ & Hdone & _).
      injection E as _ <-. eexists. exact Hdone.
    - destruct (edf_result ps Hf Hb fuel _ H)
        as (l' & _ & E & _ & _ & Hdone & _).
      injection E as _ <-. eexists. exact Hdone. }
  destruct Hdone as [flag Hdone].
  rewrite calculate_metrics_state.
  destruct l as [|p l']; [cbn; constructor|].
  assert (Hend : Forall (fun p => end_time p <> None) (p :: l')).
  { eapply Forall_impl; [|exact Hdone].
    intros x (_ & _ & st & e & _ & He & _). rewrite He. discriminate. }
  destruct (last_finish_completed (p :: l')) as [t ->];
    [discriminate|exact Hend|].
  apply Forall2_and_right; [apply assign_times_frame|].
  rewrite (assign_times_map _ Hend). cbn [fst].
  apply Forall_map. eapply Forall_impl; [|exact Hdone].
  intros x. apply done_ok_times_of_run.
Qed.
End MetricsErrors.


Lemma metrics_times_of_run_witness :
  Forall2 (fun p p' => same_but_times p p' /\ times_of_run p')
    [ran P1 0 6 S_; ran P2 2 4 S_]
    (fst (Exact.calculate [ran P1 0 6 S_; ran P2 2 4 S_])).
Proof.
  apply (metrics_times_of_run Q Exact.true_div Exact.round2 Exact.times100
           Exact.float_gt [P1; P2] 2 3 []).
  - repeat constructor.
  - repeat constructor.
  - left. split; reflexivity.
Defined.

(** ** read_processes, main and the script *)

Lemma descriptor_assign (p : process) : descriptor (assign p) = descriptor p.
Proof.
  unfold assign. now destruct (end_time p).
Qed.

(** The list that a scheduler has returned has its numbers in the range of
    the floats when its latest end time is. *)
Lemma completed_run_in_range (flag : Z -> Z -> status_flag)
  (ps l : list process) (t : Z) :
  l <> [] ->
  Permutation (map descriptor l) (map descriptor ps) ->
  Forall (done_ok flag) l ->
  Forall (fun p => 0 <= arrival_time p) ps ->
  last_finish l = Ok (Some t) ->
  sum (map burst_time ps) <= t -> t <= float_range ->
  times_in_range l /\
  Forall (fun p => burst_time p <> 0) l /\
  last_finish l <> Ok (Some 0).
Proof.
  intros Hne Hperm Hdone Ha Ht Hsum Hrange.
  assert (Hend : Forall (fun p => end_time p <> None) l).
  { eapply Forall_impl; [|exact Hdone].
    intros p (_ & _ & st & e & _ & He & _). rewrite He. discriminate. }
  destruct (last_finish_latest l Hne Hend) as (t' & Ht' & Hle & Hex).
  rewrite Ht in Ht'. injection Ht' as <-.
  pose proof (arrival_descriptor l ps Hperm Ha) as Ha'.
  assert (Hbursts : sum (map burst_time l) = sum (map burst_time ps)).
  { rewrite !burst_time_descriptor. apply sum_permutation.
    now apply Permutation_map. }
  assert (Hpos : Forall (fun z => 1 <= z) (map burst_time l)).
  { apply Forall_map. eapply Forall_impl; [|exact Hdone].
    intros p (_ & Hb & _). cbn. lia. }
  pose proof (length_le_sum _ Hpos) as Hlen. rewrite length_map in Hlen.
  split; [|split].
  - unfold times_in_range, in_float_range. split; [lia|]. split; [lia|].
    rewrite Forall_forall in *. intros p Hp.
    destruct (Hdone p Hp)
      as (_ & Hb & st & e & _ & He & Hr & _ & Hst & Hfin).
    specialize (Ha' p Hp). specialize (Hle p Hp e He).
    exists e, (st - arrival_time p). repeat split; try assumption; lia.
  - eapply Forall_impl; [|exact Hdone]. intros p (_ & Hb & _). lia.
  - rewrite Ht. intros [= ->].
    apply Exists_exists in Hex. destruct Hex as (p & Hp & He).
    rewrite Forall_forall in Hdone, Ha'.
    destruct (Hdone p Hp)
      as (_ & Hb & st & e & _ & He' & _ & _ & Hst & Hfin).
    specialize (Ha' p Hp). rewrite He in He'. injection He' as <-. lia.
Qed.

(** The same for the list that [rr] or [edf] returns, when the sum of the
    burst times and of the latest arrival time is in the range. *)
Lemma schedulers_in_range (ps : list process) (quantum : Z) (fuel : nat)
  (rest l : list process) :
  ps <> [] ->
  Forall fresh ps ->
  Forall (fun p => 0 < burst_time p) ps ->
  Forall (fun p => 0 <= arrival_time p) ps ->
  sum (map burst_time ps) + gap 0 ps <= float_range ->
  (0 < quantum /\ rr fuel ps quantum = Some (rest, Ok l)) \/
  edf fuel ps = Some (rest, Ok l) ->
  l <> [] /\
  Permutation (map descriptor l) (map descriptor ps) /\
  times_in_range l /\
  Forall (fun p => burst_time p <> 0) l /\
  last_finish l <> Ok (Some 0).
Proof.
  intros Hne Hf Hb Ha Hrange H.
  assert (Hrun : exists flag t,
            Permutation (map descriptor l) (map descriptor ps) /\
            Forall (done_ok flag) l /\
            last_finish l = Ok (Some t) /\
            sum (map burst_time ps) <= t
            <= sum (map burst_time ps) + gap 0 ps).
  { destruct H as [[Hq H] | H].
    - destruct (rr_result ps Hf Hb quantum fuel _ Hq H)
        as (l' & _ & E & _ & Hperm & Hdone & _).
      injection E as _ <-.
      destruct (sched_last_finish (fun l => l) (rr_units quantum)
                  (fun _ _ => S_) same_permutation
                  (rr_units_bounds quantum Hq) ps Hne Hf Hb fuel _ H)
        as (l' & t & E & Ht & Hbounds).
      injection E as _ <-. now exists (fun _ _ => S_), t.
    - destruct (edf_result ps Hf Hb fuel _ H)
        as (l' & _ & E & _ & Hperm & Hdone & _).
      injection E as _ <-.
      unfold edf in H. rewrite edf_while in H.
      destruct (sched_last_finish (sort_by deadline) (fun _ => 1) edf_flag
                  (sort_by_permutation deadline) edf_units_bounds
                  ps Hne Hf Hb fuel _ H)
        as (l' & t & E & Ht & Hbounds).
      injection E as _ <-. now exists edf_flag, t. }
  destruct Hrun as (flag & t & Hperm & Hdone & Ht & Hbounds).
  assert (Hl : l <> []).
  { intros ->. apply Permutation_nil in Hperm.
    destruct ps; [contradiction|discriminate]. }
  split; [exact Hl|]. split; [exact Hperm|].
  apply (completed_run_in_range flag ps l t); auto; lia.
Qed.

Section FilesFacts.
Variable split_fields : string -> list string.
Variable int : string -> option Z.

Lemma process_of_line_spec (line : string) :
  match process_of_line split_fields int line with
  | Ok p => line_gives split_fields int line p
  | Raise e => e = ValueError /\ ~ well_formed split_fields int line
  end.
Proof.
  unfold process_of_line, well_formed, line_gives.
  destruct (split_fields line) as [|n [|a [|b [|d [|x l]]]]] eqn:Hs;
    try (split; [reflexivity|];
         intros (p & n' & a' & b' & d' & za & zb & zd & E & _); discriminate).
  destruct (int a) as [za|] eqn:Ha.
  - destruct (int b) as [zb|] eqn:Hb.
    + destruct (int d) as [zd|] eqn:Hd.
      * exists n, a, b, d, za, zb, zd. repeat split; assumption.
      * split; [reflexivity|].
        intros (p & n' & a' & b' & d' & za' & zb' & zd' & E & _ & _ & Hd' & _).
        injection E as <- <- <- <-. congruence.
    + split; [reflexivity|].
      intros (p & n' & a' & b' & d' & za' & zb' & zd' & E & _ & Hb' & _).
      injection E as <- <- <- <-. congruence.
  - split; [reflexivity|].
    intros (p & n' & a' & b' & d' & za' & zb' & zd' & E & Ha' & _).
    injection E as <- <- <- <-. congruence.
Qed.

Lemma processes_of_lines_spec (lines : list string) :
  match processes_of_lines split_fields int lines with
  | Ok ps => Forall2 (line_gives split_fields int) lines ps
  | Raise e =>
      e = ValueError /\
      Exists (fun line => ~ well_formed split_fields int line) lines
  end.
Proof.
  induction lines as [|line lines IH]; [constructor|].
  cbn [processes_of_lines].
  pose proof (process_of_line_spec line) as Hl.
  destruct (process_of_line split_fields int line) as [p|e]; cbn [bind].
  - destruct (processes_of_lines split_fields int lines) as [ps|e];
      cbn [bind].
    + now constructor.
    + destruct IH as [-> IH]. split; [reflexivity|now right].
  - destruct Hl as [-> Hl]. split; [reflexivity|now left].
Qed.

Lemma line_gives_fresh (line : string) (p : process) :
  line_gives split_fields int line p -> fresh p.
Proof.
  intros (n & a & b & d & za & zb & zd & _ & _ & _ & _ & ->). reflexivity.
Qed.

Lemma read_processes_lines (file : list string) (ps : list process) :
  read_processes split_fields int file = Returns ps ->
  exists header lines,
    file = header :: lines /\
    Forall2 (line_gives split_fields int) lines ps.
Proof.
  unfold read_processes. destruct file as [|header lines]; [discriminate|].
  pose proof (processes_of_lines_spec lines) as H.
  destruct (processes_of_lines split_fields int lines) as [ps'|e];
    [|discriminate].
  intros [= <-]. now exists header, lines.
Qed.

Lemma read_processes_fresh (file : list string) (ps : list process) :
  read_processes split_fields int file = Returns ps -> Forall fresh ps.
Proof.
  intro H. destruct (read_processes_lines file ps H) as (_ & lines & _ & Hl).
  clear H. induction Hl as [|line p lines ps Hp _ IH]; constructor.
  - exact (line_gives_fresh line p Hp).
  - exact IH.
Qed.

(** When [read_processes] returns, the file has a first line, which is not
    read any further, and the list holds one process for each of the other
    lines, in their order: a fresh process, whose name is the first of the
    four fields of the line and whose arrival time, burst time and deadline
    are the integers that the three other fields denote. *)
Theorem read_processes_returns (file : list string) (ps : list process) :
  read_processes split_fields int file = Returns ps ->
  exists header lines,
    file = header :: lines /\
    Forall2 (line_gives split_fields int) lines ps /\
    Forall fresh ps.
Proof.
  intro H. destruct (read_processes_lines file ps H) as (h & lines & E & Hl).
  exists h, lines. split; [exact E|]. split; [exact Hl|].
  exact (read_processes_fresh file ps H).
Qed.

Lemma line_gives_fields (line : string) (p : process) :
  line_gives split_fields int line p ->
  List.length (split_fields line) = 4%nat /\
  Forall (fun field => int field <> None) (tl (split_fields line)).
Proof.
  intros (n & a & b & d & za & zb & zd & -> & Ha & Hb & Hd & _).
  split; [reflexivity|]. cbn [tl].
  repeat constructor; congruence.
Qed.

(** [read_processes] raises [StopIteration] on a file without any line.  On
    a file with a first line it raises [ValueError], and returns no list,
    when one of the other lines does not split into exactly four fields (as
    a line that holds no field), or has among its last three fields one that
    does not denote an integer. *)
Theorem read_processes_raises (header : string) (lines : list string) :
  Exists (fun line =>
            List.length (split_fields line) <> 4%nat \/
            Exists (fun field => int field = None)
              (tl (split_fields line))) lines ->
  read_processes split_fields int [] = Raises StopIteration /\
  read_processes split_fields int (header :: lines)
  = Raises (Exception ValueError).
Proof.
  intro H. split; [reflexivity|]. unfold read_processes.
  pose proof (processes_of_lines_spec lines) as Hspec.
  destruct (processes_of_lines split_fields int lines) as [ps|e].
  - exfalso. induction Hspec as [|line p lines ps Hp _ IH];
      [inversion H|].
    destruct (line_gives_fields line p Hp) as [Hlen Hints].
    inversion H as [? ? [Hbad | Hbad] | ? ? Hrest]; subst.
    + contradiction.
    + apply Exists_exists in Hbad. destruct Hbad as (f & Hf & Hnone).
      rewrite Forall_forall in Hints. now apply (Hints f Hf).
    + now apply IH.
  - now destruct Hspec as [-> _].
Qed.

Variable float : Type.
Variable true_div : Z -> Z -> option float.
Variable round2 : float -> float.
Variable times100 : float -> float.
Variable float_gt : float -> float -> bool.

(** A file with a header line and nothing else makes [main] raise
    [ValueError]: both schedulers return the empty list, on which
    [calculate_metrics] raises. *)
Theorem main_raises_on_header_only (fuel : nat) (header : string)
  (quantum : Z) :
  main_metrics split_fields int true_div round2 times100 float_gt
    fuel [header] quantum
  = Some (Raises (Exception ValueError)).
Proof.
  unfold main_metrics. cbn [read_processes processes_of_lines].
  now destruct fuel.
Qed.

(** When the file reads as a non-empty list of processes with positive burst
    times and arrival times that are not negative, the quantum is positive
    and the sum of the burst times and of the latest arrival time is in the
    range of the floats, [main] gets the metrics of both policies, from two
    lists that hold the processes of the file. *)
Theorem main_returns_metrics (file : list string) (ps : list process)
  (quantum : Z) :
  no_overflow true_div ->
  read_processes split_fields int file = Returns ps ->
  ps <> [] ->
  Forall (fun p => 0 < burst_time p) ps ->
  Forall (fun p => 0 <= arrival_time p) ps ->
  0 < quantum ->
  sum (map burst_time ps) + gap 0 ps <= float_range ->
  exists fuel cpu_rr metrics_rr cpu_edf metrics_edf,
    main_metrics split_fields int true_div round2 times100 float_gt
      fuel file quantum
    = Some (Returns ((cpu_rr, metrics_rr), (cpu_edf, metrics_edf))) /\
    Permutation (map descriptor cpu_rr) (map descriptor ps) /\
    Permutation (map descriptor cpu_edf) (map descriptor ps).
Proof.
  intros Hdiv Hread Hne Hb Ha Hq Hrange.
  pose proof (read_processes_fresh file ps Hread) as Hf.
  destruct (rr_terminates ps Hf Hb quantum Hq) as [out1 Hout1].
  destruct (rr_result ps Hf Hb quantum _ out1 Hq Hout1)
    as (l1 & _ & -> & _).
  destruct (edf_terminates ps Hf Hb) as [out2 Hout2].
  destruct (edf_result ps Hf Hb _ out2 Hout2) as (l2 & _ & -> & _).
  destruct (schedulers_in_range ps quantum _ [] l1 Hne Hf Hb Ha Hrange
              (or_introl (conj Hq Hout1)))
    as (Hne1 & Hperm1 & Hrange1 & Hb1 & Hlast1).
  destruct (schedulers_in_range ps quantum _ [] l2 Hne Hf Hb Ha Hrange
              (or_intror Hout2))
    as (Hne2 & Hperm2 & Hrange2 & Hb2 & Hlast2).
  destruct (calculate_metrics_returns float true_div round2 times100
              float_gt Hdiv l1 Hne1 Hrange1 Hb1 Hlast1) as [m1 Hm1].
  destruct (calculate_metrics_returns float true_div round2 times100
              float_gt Hdiv l2 Hne2 Hrange2 Hb2 Hlast2) as [m2 Hm2].
  exists (work_left (initial ps)), (map assign l1), m1, (map assign l2), m2.
  split.
  - unfold main_metrics. rewrite Hread, Hout1, Hout2, Hm1, Hm2. reflexivity.
  - rewrite !map_map.
    rewrite (map_ext (fun p => descriptor (assign p)) descriptor
               descriptor_assign l1).
    rewrite (map_ext (fun p => descriptor (assign p)) descriptor
               descriptor_assign l2).
    now split.
Qed.

Variable lower : string -> string.

(** The script calls [main] exactly when it has two arguments, of which the
    first one, put in lower case, ends with [.txt] and the second one denotes
    a positive integer: [main] receives that file name as it was given and
    that integer as the quantum.  In every other case the script exits with
    the status 1. *)
Theorem script_outcome (argv : list string) :
  (forall input_file quantum,
     script int lower argv = Main input_file quantum <->
     exists program argument,
       argv = [program; input_file; argument] /\
       endswith (lower input_file) ".txt" = true /\
       int argument = Some quantum /\ 0 < quantum) /\
  (forall status printed,
     script int lower argv = Exit status printed -> status = 1).
Proof.
  unfold script. split.
  - intros input_file quantum. split.
    + destruct argv as [|program [|file [|argument [|x l]]]];
        try discriminate.
      destruct (endswith (lower file) ".txt") eqn:Hend; cbn [negb];
        [|discriminate].
      destruct (int argument) as [q|] eqn:Hint; [|discriminate].
      destruct (q <=? 0) eqn:Hq; [discriminate|].
      intros [= <- <-]. apply Z.leb_gt in Hq.
      exists program, argument. now repeat split.
    + intros (program & argument & -> & Hend & Hint & Hq).
      rewrite Hend, Hint. cbn [negb].
      apply Z.leb_gt in Hq. now rewrite Hq.
  - intros status printed.
    destruct argv as [|program [|file [|argument [|x l]]]];
      try (now intros [= <- _]).
    destruct (endswith (lower file) ".txt"); cbn [negb];
      [|now intros [= <- _]].
    destruct (int argument) as [q|]; [|now intros [= <- _]].
    destruct (q <=? 0); [now intros [= <- _]|discriminate].
Qed.
End FilesFacts.

Lemma read_processes_returns_witness :
  exists header lines,
    map Plain.line
      ["Name Arrival Burst Deadline"; "P1 0 4 10"; "P2 1 2 3"]%string
    = header :: lines /\
    Forall2 (line_gives Plain.split_fields Plain.int) lines [P1; P2] /\
    Forall fresh [P1; P2].
Proof.
  apply (read_processes_returns Plain.split_fields Plain.int).
  reflexivity.
Defined.

Lemma read_processes_raises_witness :
  read_processes Plain.split_fields Plain.int [] = Raises StopIteration /\
  read_processes Plain.split_fields Plain.int
    (map Plain.line ["Name Arrival Burst Deadline"; "P1 0 4 10"; ""]%string)
  = Raises (Exception ValueError).
Proof.
  apply (read_processes_raises Plain.split_fields Plain.int).
  right. left. left. cbn. discriminate.
Defined.

Lemma main_returns_metrics_witness :
  exists fuel cpu_rr metrics_rr cpu_edf metrics_edf,
    main_metrics Plain.split_fields Plain.int Exact.true_div Exact.round2
      Exact.times100 Exact.float_gt fuel
      (map Plain.line
         ["Name Arrival Burst Deadline"; "P1 0 4 10"; "P2 1 2 3"]%string) 2
    = Some (Returns ((cpu_rr, metrics_rr), (cpu_edf, metrics_edf))) /\
    Permutation (map descriptor cpu_rr) (map descriptor [P1; P2]) /\
    Permutation (map descriptor cpu_edf) (map descriptor [P1; P2]).
Proof.
  apply (main_returns_metrics Plain.split_fields Plain.int Q Exact.true_div
           Exact.round2 Exact.times100 Exact.float_gt).
  - exact exact_no_overflow.
  - reflexivity.
  - discriminate.
  - repeat constructor.
  - repeat constructor; cbn; lia.
  - reflexivity.
  - pose proof float_range_large. cbn. lia.
Defined.

(** ** The caller's list *)

Lemma while_ends_false {St : Type} (cond : St -> bool) (body : St -> St)
  (fuel : nat) (s s' : St) :
  while cond body fuel s = Some s' -> cond s' = false.
Proof.
  intro H.
  exact (proj2 (while_invariant cond body (fun _ => True)
                  (fun _ _ _ => I) fuel s s' I H)).
Qed.

Lemma finish_empties (s : sim) (rest : list process)
  (r : result (list process)) :
  pending_or_ready s = false -> finish s = (rest, r) -> rest = [].
Proof.
  unfold pending_or_ready, finish. intros Hc [= <- _].
  destruct (processes s); [reflexivity|discriminate].
Qed.

(** [rr] and [edf] consume the list they are given: whatever the input and
    whether the call returns a list or raises, the caller's list is empty
    when the call ends.  This is why [main] reads the file once for each
    policy. *)
Theorem schedulers_empty_the_input (fuel : nat) (ps : list process)
  (quantum : Z) (rest : list process) (r : result (list process)) :
  rr fuel ps quantum = Some (rest, r) \/ edf fuel ps = Some (rest, r) ->
  rest = [].
Proof.
  unfold rr, edf. intros [H|H].
  - destruct (while pending_or_ready (rr_iter quantum) fuel (initial ps))
      as [s|] eqn:Hw; [|discriminate].
    cbn [option_map] in H. assert (E : finish s = (rest, r)) by congruence.
    clear H; rename E into H.
    exact (finish_empties s rest r (while_ends_false _ _ _ _ _ Hw) H).
  - destruct (while pending_or_ready edf_iter fuel (initial ps))
      as [s|] eqn:Hw; [|discriminate].
    cbn [option_map] in H. assert (E : finish s = (rest, r)) by congruence.
    clear H; rename E into H.
    exact (finish_empties s rest r (while_ends_false _ _ _ _ _ Hw) H).
Qed.

Lemma schedulers_empty_the_input_witness : @nil process = [].
Proof.
  apply (schedulers_empty_the_input 3 [P1; P2_late] 2 []
           (Ok [ran P1 0 6 S_; ran P2_late 2 4 S_])).
  left. reflexivity.
Defined.

(** On the empty list both schedulers return the empty list at once,
    whatever the quantum, also one that is not positive. *)
Theorem schedulers_on_empty_list (fuel : nat) (quantum : Z) :
  rr fuel [] quantum = Some ([], Ok []) /\
  edf fuel [] = Some ([], Ok []).
Proof.
  unfold rr, edf. now destruct fuel.
Qed.
